(** * hierarchical_agent_chat: the chat client, embedded and verified

    A shallow embedding of the TypeScript front end of the repository:

    - [types/index.ts]            messages and conversations,
    - [utils/index.ts]            the local-storage helpers,
    - [api/index.ts]              [chatAPI.sendMessage], the reader of the
                                  server-sent event stream,
    - [stores/conversation.ts]    the conversation store,
    - [components/MainContent], [components/ChatInput]  the send guard.

    JavaScript code that mutates state and may throw is written in a small
    state-and-exception monad: a computation maps a world to a result (a value
    or a thrown error) and the world it leaves behind.  As in JavaScript, what
    was written before a throw stays written. *)

From Stdlib Require Import String Ascii List ZArith Bool Lia.
From stdpp Require Import base gmap strings.
Import ListNotations.

Local Open Scope string_scope.
Local Open Scope list_scope.

(** ** Results and the state-and-exception monad *)

Inductive Error : Type :=
| TypeError                 (* a property read on null or undefined *)
| SyntaxError               (* JSON.parse on text that is not JSON *)
| DOMException              (* localStorage refusing an access or a write *)
| HttpError (status : Z)    (* new Error(`HTTP error! status: ${status}`) *)
| NoReaderError             (* new Error('无法读取响应流') *)
| NetworkError.             (* fetch or reader.read() rejecting *)

Inductive Result (A : Type) : Type :=
| Ok (a : A)
| Throw (e : Error).

Arguments Ok {A} a.
Arguments Throw {A} e.

Definition M (W A : Type) : Type := W -> Result A * W.

Definition ret {W A} (a : A) : M W A := fun w => (Ok a, w).

Definition bind {W A B} (c : M W A) (k : A -> M W B) : M W B :=
  fun w => match c w with
           | (Ok a, w') => k a w'
           | (Throw e, w') => (Throw e, w')
           end.

Definition throw {W A} (e : Error) : M W A := fun w => (Throw e, w).

(** [try { body } catch (e) { handler e }] *)
Definition try_catch {W A} (body : M W A) (handler : Error -> M W A) : M W A :=
  fun w => match body w with
           | (Ok a, w') => (Ok a, w')
           | (Throw e, w') => handler e w'
           end.

(** [try { body } finally { final }]: [final] runs on both exits; a throw of
    [final] itself replaces the outcome of [body]. *)
Definition try_finally {W A} (body : M W A) (final : M W unit) : M W A :=
  fun w => match body w with
           | (r, w') => match final w' with
                        | (Ok _, w'') => (r, w'')
                        | (Throw e, w'') => (Throw e, w'')
                        end
           end.

Definition get {W} : M W W := fun w => (Ok w, w).
Definition gets {W A} (f : W -> A) : M W A := fun w => (Ok (f w), w).
Definition modify {W} (f : W -> W) : M W unit := fun w => (Ok tt, f w).

(** A primitive that reads or changes the world and cannot throw. *)
Definition total {W A} (f : W -> A * W) : M W A :=
  fun w => match f w with (a, w') => (Ok a, w') end.

(** [await p]: the caller is suspended until the promise settles; [during] is
    what the other event handlers of the page do to the world meanwhile. *)
Definition await {W} (during : W -> W) : M W unit := modify during.

Declare Scope js_scope.
Delimit Scope js_scope with js.

Notation "'let*' x ':=' c 'in' k" := (bind c (fun x => k))
  (at level 10, x pattern, c at level 100, k at level 200) : js_scope.
Notation "c ;; k" := (bind c (fun _ => k))
  (at level 100, k at level 200, right associativity) : js_scope.

Local Open Scope js_scope.

(** [if (f) f(x)] for an optional callback. *)
Definition call_opt {W A} (f : option (A -> M W unit)) (x : A) : M W unit :=
  match f with
  | Some g => g x
  | None => ret tt
  end.

Definition is_ok {A} (r : Result A) : bool :=
  match r with Ok _ => true | Throw _ => false end.

(** ** types/index.ts *)

Module Message.

Inductive Role : Type := user | assistant.

Definition Role_eqb (a b : Role) : bool :=
  match a, b with
  | user, user | assistant, assistant => true
  | _, _ => false
  end.

(** [isStreaming?: boolean] is optional; [displayContent] is the property the
    store adds to the assistant message while it streams and deletes at
    settlement.  [None] is a property that is absent (undefined). *)
Record t : Type := mk {
  id : string;
  role : Role;
  content : string;
  timestamp : Z;
  isStreaming : option bool;
  displayContent : option string
}.

End Message.

Module Conversation.

Record t : Type := mk {
  id : string;
  title : string;
  messages : list Message.t;
  model : string;
  deepThink : bool;
  useSearch : bool;
  createdAt : Z;
  updatedAt : Z
}.

End Conversation.

(** Equality of messages and of conversations is decidable. *)
#[global] Instance Role_eq_dec : EqDecision Message.Role.
Proof. solve_decision. Defined.

#[global] Instance Message_eq_dec : EqDecision Message.t.
Proof. solve_decision. Defined.

#[global] Instance Conversation_eq_dec : EqDecision Conversation.t.
Proof. solve_decision. Defined.

Record ChatRequest : Type := {
  req_messages : list Message.t;
  req_model : string;
  req_deepThink : bool;
  req_useSearch : bool;
  req_conversationId : option string;
  req_message : option string
}.

Record ChatResponse : Type := {
  resp_id : Z;              (* Date.now().toString(), kept as the number *)
  resp_content : string;
  resp_model : string;
  resp_timestamp : Z
}.

Record ConversationSettings : Type := {
  set_model : option string;
  set_deepThink : option bool;
  set_useSearch : option bool
}.

(** ** localStorage and JSON

    The values this application hands to [JSON.stringify] are a conversation
    list, a conversation id and [null]; [JOther] stands for every other JSON
    value (a number, a boolean, a plain object).  A slot of localStorage holds
    text: either text that [JSON.parse] rejects, or the encoding of a value. *)

Inductive JSON : Type :=
| JNull
| JString (s : string)
| JConversations (l : list Conversation.t)   (* a JSON array *)
| JOther.

Inductive Text : Type :=
| NotJSON (s : string)     (* text that JSON.parse rejects; [""] included *)
| Encoded (v : JSON).      (* the text JSON.stringify gives for [v] *)

Definition JSON_stringify (v : JSON) : Text := Encoded v.

Definition JSON_parse {W} (t : Text) : M W JSON :=
  match t with
  | NotJSON _ => throw SyntaxError
  | Encoded v => ret v
  end.

(** Truthiness of a string: every string but the empty one. *)
Definition text_truthy (t : Text) : bool :=
  match t with
  | NotJSON EmptyString => false
  | _ => true
  end.

Definition Array_isArray (v : JSON) : bool :=
  match v with JConversations _ => true | _ => false end.

(** [accessDenied]: the browser refuses every access (storage disabled);
    [quotaExceeded]: the browser refuses every write. *)
Record LocalStorage : Type := {
  items : gmap string Text;
  accessDenied : bool;
  quotaExceeded : bool
}.

(** ** The world: the reactive state of the page and its environment *)

Record World : Type := {
  (* stores/conversation.ts *)
  conversations : list Conversation.t;
  currentConversationId : option string;
  isLoading : bool;
  (* components/MainContent *)
  inputText : string;
  mainIsLoading : bool;
  (* the browser *)
  localStorage : LocalStorage;
  clock : nat -> Z;            (* what the n-th reading of Date.now() returns *)
  entropy : nat -> string;     (* what the n-th call of generateId() returns *)
  tick : nat                   (* readings made so far *)
}.

Definition set_conversations (l : list Conversation.t) (w : World) : World :=
  {| conversations := l; currentConversationId := currentConversationId w;
     isLoading := isLoading w; inputText := inputText w;
     mainIsLoading := mainIsLoading w; localStorage := localStorage w;
     clock := clock w; entropy := entropy w; tick := tick w |}.

Definition set_currentConversationId (c : option string) (w : World) : World :=
  {| conversations := conversations w; currentConversationId := c;
     isLoading := isLoading w; inputText := inputText w;
     mainIsLoading := mainIsLoading w; localStorage := localStorage w;
     clock := clock w; entropy := entropy w; tick := tick w |}.

Definition set_isLoading (b : bool) (w : World) : World :=
  {| conversations := conversations w;
     currentConversationId := currentConversationId w;
     isLoading := b; inputText := inputText w;
     mainIsLoading := mainIsLoading w; localStorage := localStorage w;
     clock := clock w; entropy := entropy w; tick := tick w |}.

Definition set_inputText (s : string) (w : World) : World :=
  {| conversations := conversations w;
     currentConversationId := currentConversationId w;
     isLoading := isLoading w; inputText := s;
     mainIsLoading := mainIsLoading w; localStorage := localStorage w;
     clock := clock w; entropy := entropy w; tick := tick w |}.

Definition set_mainIsLoading (b : bool) (w : World) : World :=
  {| conversations := conversations w;
     currentConversationId := currentConversationId w;
     isLoading := isLoading w; inputText := inputText w;
     mainIsLoading := b; localStorage := localStorage w;
     clock := clock w; entropy := entropy w; tick := tick w |}.

Definition set_localStorage (ls : LocalStorage) (w : World) : World :=
  {| conversations := conversations w;
     currentConversationId := currentConversationId w;
     isLoading := isLoading w; inputText := inputText w;
     mainIsLoading := mainIsLoading w; localStorage := ls;
     clock := clock w; entropy := entropy w; tick := tick w |}.

Definition set_tick (n : nat) (w : World) : World :=
  {| conversations := conversations w;
     currentConversationId := currentConversationId w;
     isLoading := isLoading w; inputText := inputText w;
     mainIsLoading := mainIsLoading w; localStorage := localStorage w;
     clock := clock w; entropy := entropy w; tick := n |}.

(** [Date.now()] *)
Definition readClock (w : World) : Z * World :=
  (clock w (tick w), set_tick (S (tick w)) w).

Definition Date_now : M World Z := total readClock.

(** [localStorage.getItem(key)] *)
Definition getItem (key : string) : M World (option Text) :=
  fun w => if accessDenied (localStorage w) then (Throw DOMException, w)
           else (Ok (items (localStorage w) !! key), w).

(** [localStorage.setItem(key, value)] *)
Definition setItem (key : string) (value : Text) : M World unit :=
  fun w =>
    let ls := localStorage w in
    if accessDenied ls || quotaExceeded ls then (Throw DOMException, w)
    else (Ok tt,
          set_localStorage {| items := <[key := value]> (items ls);
                              accessDenied := accessDenied ls;
                              quotaExceeded := quotaExceeded ls |} w).

(** ** utils/index.ts *)

Module STORAGE_KEYS.
Definition CONVERSATIONS : string := "llm_conversations".
Definition CURRENT_CONVERSATION_ID : string := "llm_current_conversation_id".
Definition MODELS : string := "llm_models".
End STORAGE_KEYS.

(** [generateId()]: Date.now().toString(36) + Math.random().toString(36).substr(2).
    The string is whatever the environment makes it. *)
Definition generateId : M World string :=
  total (fun w => (entropy w (tick w), set_tick (S (tick w)) w)).

Module storage.

(** [getConversations]: try { data = getItem(KEY); return data ? JSON.parse(data) : [] }
    catch { return [] } *)
Definition getConversations : M World JSON :=
  try_catch
    (let* data := getItem STORAGE_KEYS.CONVERSATIONS in
     match data with
     | Some text => if text_truthy text then JSON_parse text
                    else ret (JConversations [])
     | None => ret (JConversations [])
     end)
    (fun _ => ret (JConversations [])).

(** [saveConversations]: no try/catch around the write. *)
Definition saveConversations (l : list Conversation.t) : M World unit :=
  setItem STORAGE_KEYS.CONVERSATIONS (JSON_stringify (JConversations l)).

End storage.

Definition getDefaultModel : string := "deepseek-chat".

(** [saveToLocalStorage(key, data)]: a failing write is logged and swallowed. *)
Definition saveToLocalStorage (key : string) (data : JSON) : M World unit :=
  try_catch (setItem key (JSON_stringify data)) (fun _ => ret tt).

(** [loadFromLocalStorage(key)]: try { data = getItem(key); return data ?
    JSON.parse(data) : null } catch { return null } *)
Definition loadFromLocalStorage (key : string) : M World JSON :=
  try_catch
    (let* data := getItem key in
     match data with
     | Some text => if text_truthy text then JSON_parse text else ret JNull
     | None => ret JNull
     end)
    (fun _ => ret JNull).

(** ** JavaScript strings

    A JavaScript string is a sequence of UTF-16 code units: [length] counts
    units, [slice] and [split('')] cut between units, and [trim] removes the
    units that are white space.  A string is held here unit by unit, each
    unit in one, two or three bytes, laid out as UTF-8 lays out the code
    points below U+10000: a text of the Basic Multilingual Plane is written
    as itself, and a character beyond it is its two surrogate units.  The
    first byte of a unit is below 128 or above 191, the bytes that follow it
    are between 128 and 191; the bytes of the ASCII characters are units of
    their own, so that splitting at a line feed and testing an ASCII prefix
    can be done on the bytes. *)

(** A byte that continues a unit: [10xxxxxx]. *)
Definition is_continuation (c : ascii) : bool :=
  match c with
  | Ascii _ _ _ _ _ _ b6 b7 => b7 && negb b6
  end.

(** [parts.join('')]: the concatenation, in order. *)
Definition joined (fragments : list string) : string :=
  fold_right String.append EmptyString fragments.

(** [s.split('')]: the code units of [s], in order, each one as the string
    of that unit. *)
Fixpoint units (s : string) : list string :=
  match s with
  | EmptyString => []
  | String c rest =>
      match units rest with
      | String d k :: more =>
          if is_continuation d then String c (String d k) :: more
          else String c EmptyString :: String d k :: more
      | more => String c EmptyString :: more
      end
  end.

(** [s.length] *)
Definition js_length (s : string) : nat := length (units s).

(** [s.split(sep)] for a separator that is one ASCII character: never the
    empty list. *)
Fixpoint split (sep : ascii) (s : string) : list string :=
  match s with
  | EmptyString => [EmptyString]
  | String c rest =>
      if Ascii.eqb c sep then EmptyString :: split sep rest
      else match split sep rest with
           | [] => [String c EmptyString]
           | line :: lines => String c line :: lines
           end
  end.

(** [s.startsWith(p)] *)
Definition startsWith (p s : string) : bool := String.prefix p s.

(** [s.slice(n)] *)
Definition slice (n : nat) (s : string) : string := joined (skipn n (units s)).

(** [s.slice(0, n)] *)
Definition slice_to (n : nat) (s : string) : string := joined (firstn n (units s)).

(** The code unit that the bytes of a unit hold. *)
Definition codeOf (unit : string) : N :=
  match unit with
  | String a EmptyString => if (N_of_ascii a <? 128)%N then N_of_ascii a else 0%N
  | String a (String b EmptyString) =>
      ((N_of_ascii a mod 32) * 64 + N_of_ascii b mod 64)%N
  | String a (String b (String c EmptyString)) =>
      (((N_of_ascii a mod 16) * 64 + N_of_ascii b mod 64) * 64
       + N_of_ascii c mod 64)%N
  | _ => 0%N
  end.

(** The bytes of a code unit. *)
Definition unitOf (code : N) : string :=
  if (code <? 128)%N then String (ascii_of_N code) EmptyString
  else if (code <? 2048)%N then
    String (ascii_of_N (192 + code / 64))
      (String (ascii_of_N (128 + code mod 64)) EmptyString)
  else
    String (ascii_of_N (224 + code / 4096))
      (String (ascii_of_N (128 + (code / 64) mod 64))
         (String (ascii_of_N (128 + code mod 64)) EmptyString)).

(** The code units that [trim] removes, ECMAScript's WhiteSpace and
    LineTerminator: U+0009 to U+000D, U+0020, U+00A0, U+1680, U+2000 to
    U+200A, U+2028, U+2029, U+202F, U+205F, U+3000 and U+FEFF. *)
Definition isWhiteSpace (code : N) : bool :=
  match code with
  | 9 | 10 | 11 | 12 | 13 | 32 | 160 | 5760 | 8232 | 8233 | 8239 | 8287
  | 12288 | 65279 => true
  | _ => (8192 <=? code) && (code <=? 8202)
  end%N.

Definition is_space (unit : string) : bool := isWhiteSpace (codeOf unit).

Fixpoint dropSpaces (l : list string) : list string :=
  match l with
  | unit :: rest => if is_space unit then dropSpaces rest else l
  | [] => []
  end.

(** [s.trimStart()] and [s.trimEnd()], on the units. *)
Definition trim_start (l : list string) : list string := dropSpaces l.
Definition trim_end (l : list string) : list string := rev (dropSpaces (rev l)).

(** [s.trim()]: the white space is removed at both ends. *)
Definition trim (s : string) : string := joined (trim_end (trim_start (units s))).

(** A run of units: each element is one unit, a byte and the bytes that
    continue it, and each one after the first begins a unit. *)
Fixpoint continues (s : string) : bool :=
  match s with
  | EmptyString => true
  | String c rest => is_continuation c && continues rest
  end.

Definition isUnit (unit : string) : bool :=
  match unit with
  | String _ rest => continues rest
  | EmptyString => false
  end.

Definition startsUnit (unit : string) : bool :=
  match unit with
  | String c _ => negb (is_continuation c)
  | EmptyString => false
  end.

Definition segmented (l : list string) : Prop :=
  Forall (fun unit => isUnit unit = true) l
  /\ Forall (fun unit => startsUnit unit = true) (List.tl l).

(** The string is empty or begins with the first byte of a unit. *)
Definition leads (s : string) : Prop :=
  match s with
  | String c _ => is_continuation c = false
  | EmptyString => True
  end.

(** Truthiness of a string value. *)
Definition truthy (s : string) : bool :=
  match s with EmptyString => false | _ => true end.

(** The string of a text written in UTF-8, as the literals of this file are:
    a character beyond U+FFFF, four bytes in UTF-8, becomes its two
    surrogate units; the rest is unchanged. *)
Fixpoint ofUTF8 (text : string) : string :=
  match text with
  | String a ((String b (String c (String d rest))) as tail) =>
      if (240 <=? N_of_ascii a)%N then
        let point := ((((N_of_ascii a mod 8) * 64 + N_of_ascii b mod 64) * 64
                       + N_of_ascii c mod 64) * 64 + N_of_ascii d mod 64)%N in
        (unitOf (55296 + (point - 65536) / 1024)
         ++ unitOf (56320 + (point - 65536) mod 1024)
         ++ ofUTF8 rest)%string
      else String a (ofUTF8 tail)
  | String a tail => String a (ofUTF8 tail)
  | EmptyString => EmptyString
  end.

Definition newline : ascii := ascii_of_nat 10.

(** ** api/index.ts: the network as the client sees it

    A response is scripted: what [fetch] settles to, and what each
    [reader.read()] settles to.  Every [await] carries the change that other
    handlers make to the world while the caller is suspended.  The chunks are
    the texts that [decoder.decode(value, { stream: true })] returns. *)

Record Read (W : Type) : Type := {
  whileReading : W -> W;
  value : string
}.

Arguments whileReading {W} r.
Arguments value {W} r.

Inductive StreamEnd : Type :=
| EndOfStream               (* { done: true } *)
| ReadFails.                (* reader.read() rejects *)

Record Body (W : Type) : Type := {
  reads : list (Read W);
  whileLastRead : W -> W;
  ending : StreamEnd
}.

Arguments reads {W} b.
Arguments whileLastRead {W} b.
Arguments ending {W} b.

Inductive Response (W : Type) : Type :=
| FetchRejects
| Responds (ok : bool) (status : Z) (body : option (Body W)).

Arguments FetchRejects {W}.
Arguments Responds {W} ok status body.

Record Exchange (W : Type) : Type := {
  whileFetching : W -> W;
  response : Response W
}.

Arguments whileFetching {W} e.
Arguments response {W} e.

Module chatAPI.

Section WithWorld.

Context {W : Type}.
Variable getItem : string -> M W (option Text).   (* localStorage.getItem *)
Variable Date_now : W -> Z * W.                   (* Date.now *)

Variable request : ChatRequest.
Variable onChunk : option (string -> M W unit).
Variable onComplete : option (ChatResponse -> M W unit).
Variable onError : option (Error -> M W unit).

(** The body of [for (const line of lines)].  [None]: the function has
    returned (the sentinel was met); [Some acc]: the loop ran to its end with
    [accumulatedContent = acc]. *)
Fixpoint forLines (lines : list string) (accumulatedContent : string)
  : M W (option string) :=
  match lines with
  | [] => ret (Some accumulatedContent)
  | line :: rest =>
      if startsWith "data: " line then
        let data := slice 6 line in
        if String.eqb data "[DONE]" then
          (match onComplete with
           | Some f =>
               let* id := total Date_now in
               let* ts := total Date_now in
               f {| resp_id := id; resp_content := accumulatedContent;
                    resp_model := req_model request; resp_timestamp := ts |}
           | None => ret tt
           end) ;;
          ret None
        else
          let accumulatedContent' := (accumulatedContent ++ data)%string in
          try_catch (call_opt onChunk data) (fun _ => ret tt) ;;
          forLines rest accumulatedContent'
      else forLines rest accumulatedContent
  end.

(** The [while (true)] loop over [reader.read()]. *)
Fixpoint readLoop (rs : list (Read W)) (whileLast : W -> W) (fin : StreamEnd)
    (accumulatedContent : string) : M W unit :=
  match rs with
  | [] =>
      await whileLast ;;
      match fin with
      | EndOfStream => ret tt                  (* if (done) break *)
      | ReadFails => throw NetworkError
      end
  | r :: rest =>
      await (whileReading r) ;;
      let* continue := forLines (split newline (value r)) accumulatedContent in
      match continue with
      | None => ret tt                         (* return *)
      | Some acc => readLoop rest whileLast fin acc
      end
  end.

(** From [let accumulatedContent = ''] to the end of the loop. *)
Definition consumeStream (body : Body W) : M W unit :=
  readLoop (reads body) (whileLastRead body) (ending body) EmptyString.

(** [mockResponse]: the text of the simulated reply. *)
Definition mockResponse : string :=
  let message := match req_message request with Some m => m | None => "undefined" end in
  let thinkingProcess :=
    if req_deepThink request then ofUTF8 "

🤔 深度思考过程：
- 分析问题背景
- 检索相关知识
- 构建回答框架
- 完善细节内容
" else "" in
  let searchInfo :=
    if req_useSearch request then ofUTF8 "
🔍 已启用联网搜索，获取最新信息...
" else "" in
  ("这是" ++ req_model request ++ "的回复：" ++ message ++ thinkingProcess
   ++ searchInfo ++ "

当前设置：
- 模型：" ++ req_model request ++ "
- 深度思考：" ++ (if req_deepThink request then "开启" else "关闭") ++ "
- 联网搜索：" ++ (if req_useSearch request then "开启" else "关闭"))%string.

(** [const chunks = mockResponse.split('')] *)
Definition chunks : list string := units mockResponse.

Fixpoint mockLoop (chunks : list string) (accumulatedContent : string)
  : M W string :=
  match chunks with
  | [] => ret accumulatedContent
  | chunk :: rest =>
      call_opt onChunk chunk ;;
      mockLoop rest (accumulatedContent ++ chunk)%string
  end.

(** [sendMessageMock]: the simulated reply, one code unit at a time, then
    [onComplete]; the timer waits are not interleaved with other handlers. *)
Definition sendMessageMock : M W unit :=
  try_catch
    (let* accumulatedContent := mockLoop chunks EmptyString in
     match onComplete with
     | Some f =>
         let* id := total Date_now in
         let* ts := total Date_now in
         f {| resp_id := id; resp_content := accumulatedContent;
              resp_model := req_model request; resp_timestamp := ts |}
     | None => ret tt
     end)
    (fun error => call_opt onError error).

(** [sendMessage(request, onChunk, onComplete, onError)] *)
Definition sendMessage (net : Exchange W) : M W unit :=
  try_catch
    (let* token := getItem "auth_token" in
     await (whileFetching net) ;;
     match response net with
     | FetchRejects => throw NetworkError
     | Responds ok status body =>
         if negb ok then throw (HttpError status)
         else match body with
              | None => throw NoReaderError
              | Some b => consumeStream b
              end
     end)
    (fun error =>
       match onError with
       | Some f => f error
       | None => sendMessageMock
       end).

End WithWorld.

End chatAPI.

(** ** Array primitives of JavaScript used by the store *)

(** [l.findIndex(p)]; [None] is the -1 of JavaScript. *)
Fixpoint findIndex {A} (p : A -> bool) (l : list A) : option nat :=
  match l with
  | [] => None
  | x :: rest => if p x then Some O
                 else match findIndex p rest with
                      | Some i => Some (S i)
                      | None => None
                      end
  end.

(** [l.splice(i, 1)] *)
Fixpoint splice1 {A} (i : nat) (l : list A) : list A :=
  match i, l with
  | _, [] => []
  | O, _ :: rest => rest
  | S i', x :: rest => x :: splice1 i' rest
  end.

(** [const x = l.find(p); if (x) { mutate x }]: the object that [find] returns
    is the first match, and the mutation is seen through the list. *)
Fixpoint update_first {A} (p : A -> bool) (f : A -> A) (l : list A) : list A :=
  match l with
  | [] => []
  | x :: rest => if p x then f x :: rest else x :: update_first p f rest
  end.

(** ** stores/conversation.ts *)

Module conversationStore.

Definition hasId (cid : string) (conv : Conversation.t) : bool :=
  String.eqb (Conversation.id conv) cid.

Definition msgHasId (mid : string) (msg : Message.t) : bool :=
  String.eqb (Message.id msg) mid.

(** [msg.role === 'assistant' && msg.isStreaming] *)
Definition isStreamingAssistant (msg : Message.t) : bool :=
  Message.Role_eqb (Message.role msg) Message.assistant
  && match Message.isStreaming msg with Some true => true | _ => false end.

(** The computed property [currentConversation]:
    conversations.find(conv => conv.id === currentConversationId) || null *)
Definition currentConversation (w : World) : option Conversation.t :=
  match currentConversationId w with
  | Some cid => List.find (hasId cid) (conversations w)
  | None => None
  end.

(** [currentConversation.value!.id] and the other property reads on
    [currentConversation.value]: a TypeError when it is null. *)
Definition currentConversationValue : M World Conversation.t :=
  fun w => match currentConversation w with
           | Some conv => (Ok conv, w)
           | None => (Throw TypeError, w)
           end.

(** [conversations.value.find(conv => conv.id === currentConversation.value!.id)]:
    the test reads [currentConversation.value!.id] for each element it is
    applied to, so the TypeError of a null current conversation arises only
    when the list has an element to test. *)
Definition findCurrentConversation : M World (option Conversation.t) :=
  fun w => match conversations w with
           | [] => (Ok None, w)
           | _ :: _ =>
               match currentConversation w with
               | Some cur =>
                   (Ok (List.find (hasId (Conversation.id cur)) (conversations w)), w)
               | None => (Throw TypeError, w)
               end
           end.

Definition defaultModel : string := getDefaultModel.

Definition saveConversations : M World unit :=
  let* convs := gets conversations in
  saveToLocalStorage "conversations" (JConversations convs).

Definition loadConversations : M World unit :=
  let* saved := loadFromLocalStorage "conversations" in
  match saved with
  | JConversations l =>                  (* saved && Array.isArray(saved) *)
      modify (set_conversations l) ;;
      let* current := gets currentConversationId in
      match l, current with
      | first :: _, None => modify (set_currentConversationId (Some (Conversation.id first)))
      | first :: _, Some EmptyString =>
          modify (set_currentConversationId (Some (Conversation.id first)))
      | _, _ => ret tt
      end
  | _ => ret tt
  end.

Definition createNewConversation (settings : option ConversationSettings)
  : M World Conversation.t :=
  let* newId := generateId in
  let* created := Date_now in
  let* updated := Date_now in
  let newConversation :=
    {| Conversation.id := newId;
       Conversation.title := "新对话";
       Conversation.messages := [];
       Conversation.model :=
         match settings with
         | Some s => match set_model s with
                     | Some m => if truthy m then m else defaultModel
                     | None => defaultModel
                     end
         | None => defaultModel
         end;
       Conversation.deepThink :=
         match settings with
         | Some s => match set_deepThink s with Some b => b | None => false end
         | None => false
         end;
       Conversation.useSearch :=
         match settings with
         | Some s => match set_useSearch s with Some b => b | None => false end
         | None => false
         end;
       Conversation.createdAt := created;
       Conversation.updatedAt := updated |} in
  modify (fun w => set_conversations (newConversation :: conversations w) w) ;;
  modify (set_currentConversationId (Some newId)) ;;
  saveConversations ;;
  ret newConversation.

Definition switchConversation (conversationId : string) : M World unit :=
  let* convs := gets conversations in
  match List.find (hasId conversationId) convs with
  | Some _ =>
      modify (set_currentConversationId (Some conversationId)) ;;
      saveToLocalStorage "currentConversationId" (JString conversationId)
  | None => ret tt
  end.

Definition deleteConversation (conversationId : string) : M World unit :=
  let* convs := gets conversations in
  match findIndex (hasId conversationId) convs with
  | Some index =>
      modify (set_conversations (splice1 index convs)) ;;
      let* current := gets currentConversationId in
      (match current with
       | Some cid =>
           if String.eqb cid conversationId then
             let* remaining := gets conversations in
             match remaining with
             | first :: _ => modify (set_currentConversationId (Some (Conversation.id first)))
             | [] => modify (set_currentConversationId None)
             end
           else ret tt
       | None => ret tt
       end) ;;
      saveConversations
  | None => ret tt
  end.

(** Defined by the store but neither exported nor called. *)
Definition deleteEmptyConversations : M World unit :=
  modify (fun w =>
    set_conversations
      (List.filter (fun conv => (0 <? length (Conversation.messages conv))%nat)
                   (conversations w)) w) ;;
  saveConversations.

Definition withTitle (title : string) (updated : Z) (c : Conversation.t)
  : Conversation.t :=
  {| Conversation.id := Conversation.id c; Conversation.title := title;
     Conversation.messages := Conversation.messages c;
     Conversation.model := Conversation.model c;
     Conversation.deepThink := Conversation.deepThink c;
     Conversation.useSearch := Conversation.useSearch c;
     Conversation.createdAt := Conversation.createdAt c;
     Conversation.updatedAt := updated |}.

Definition withMessages (msgs : list Message.t) (updated : Z) (c : Conversation.t)
  : Conversation.t :=
  {| Conversation.id := Conversation.id c; Conversation.title := Conversation.title c;
     Conversation.messages := msgs;
     Conversation.model := Conversation.model c;
     Conversation.deepThink := Conversation.deepThink c;
     Conversation.useSearch := Conversation.useSearch c;
     Conversation.createdAt := Conversation.createdAt c;
     Conversation.updatedAt := updated |}.

Definition withSettings (settings : ConversationSettings) (updated : Z)
    (c : Conversation.t) : Conversation.t :=
  {| Conversation.id := Conversation.id c; Conversation.title := Conversation.title c;
     Conversation.messages := Conversation.messages c;
     Conversation.model :=
       match set_model settings with
       | Some m => if truthy m then m else Conversation.model c
       | None => Conversation.model c
       end;
     Conversation.deepThink :=
       match set_deepThink settings with
       | Some b => b
       | None => Conversation.deepThink c
       end;
     Conversation.useSearch :=
       match set_useSearch settings with
       | Some b => b
       | None => Conversation.useSearch c
       end;
     Conversation.createdAt := Conversation.createdAt c;
     Conversation.updatedAt := updated |}.

Definition updateConversationTitle (conversationId title : string) : M World unit :=
  let* convs := gets conversations in
  match List.find (hasId conversationId) convs with
  | Some _ =>
      let* now := Date_now in
      modify (fun w => set_conversations
                (update_first (hasId conversationId) (withTitle title now)
                              (conversations w)) w) ;;
      saveConversations
  | None => ret tt
  end.

Definition updateConversationSettings (settings : ConversationSettings)
  : M World unit :=
  let* current := gets currentConversation in
  match current with
  | None => ret tt
  | Some cur =>
      let* now := Date_now in
      modify (fun w => set_conversations
                (update_first (hasId (Conversation.id cur))
                              (withSettings settings now) (conversations w)) w) ;;
      saveConversations
  end.

(** The title given by the first message:
    content.slice(0, 30) + (content.length > 30 ? '...' : '') *)
Definition titleOf (content : string) : string :=
  (slice_to 30 content
   ++ (if (30 <? js_length content)%nat then "..." else ""))%string.

(** What [addMessage] does to the conversation it found. *)
Definition pushMessage (message : Message.t) (now : Z) (c : Conversation.t)
  : Conversation.t :=
  let msgs := Conversation.messages c ++ [message] in
  {| Conversation.id := Conversation.id c;
     Conversation.title :=
       if (length msgs =? 1)%nat
          && Message.Role_eqb (Message.role message) Message.user
       then titleOf (Message.content message)
       else Conversation.title c;
     Conversation.messages := msgs;
     Conversation.model := Conversation.model c;
     Conversation.deepThink := Conversation.deepThink c;
     Conversation.useSearch := Conversation.useSearch c;
     Conversation.createdAt := Conversation.createdAt c;
     Conversation.updatedAt := now |}.

Definition addMessage (conversationId : string) (message : Message.t)
  : M World unit :=
  let* convs := gets conversations in
  match List.find (hasId conversationId) convs with
  | Some _ =>
      let* now := Date_now in
      modify (fun w => set_conversations
                (update_first (hasId conversationId) (pushMessage message now)
                              (conversations w)) w) ;;
      saveConversations
  | None => ret tt
  end.

(** A mutation of the messages of a conversation object, in place. *)
Definition mapMessages (f : list Message.t -> list Message.t) (c : Conversation.t)
  : Conversation.t :=
  withMessages (f (Conversation.messages c)) (Conversation.updatedAt c) c.

(** [conversation.updatedAt = Date.now()] *)
Definition touch (now : Z) (c : Conversation.t) : Conversation.t :=
  withMessages (Conversation.messages c) now c.

(** [message.displayContent += chunk]; on an absent property JavaScript
    concatenates the text of [undefined]. *)
Definition appendDisplay (chunk : string) (m : Message.t) : Message.t :=
  {| Message.id := Message.id m; Message.role := Message.role m;
     Message.content := Message.content m;
     Message.timestamp := Message.timestamp m;
     Message.isStreaming := Message.isStreaming m;
     Message.displayContent :=
       Some ((match Message.displayContent m with
              | Some d => d
              | None => "undefined"
              end) ++ chunk)%string |}.

(** [message.content = c; message.isStreaming = false;
     delete message.displayContent] *)
Definition settled (c : string) (m : Message.t) : Message.t :=
  {| Message.id := Message.id m; Message.role := Message.role m;
     Message.content := c;
     Message.timestamp := Message.timestamp m;
     Message.isStreaming := Some false;
     Message.displayContent := None |}.

Definition apology : string := "抱歉，AI回复时出现了错误。请稍后重试。".

(** The [onChunk] callback that [sendMessage] passes to the API; [aiId] is
    the [aiMessage.id] its closure holds. *)
Definition onChunk (aiId : string) (chunk : string) : M World unit :=
  let* found := findCurrentConversation in
  match found with
  | Some conversation =>
      match List.find (msgHasId aiId) (Conversation.messages conversation) with
      | Some _ =>
          modify (fun w => set_conversations
            (update_first (hasId (Conversation.id conversation))
               (mapMessages (update_first (msgHasId aiId) (appendDisplay chunk)))
               (conversations w)) w)
      | None => ret tt
      end
  | None => ret tt
  end.

(** The [onComplete] callback. *)
Definition onComplete (aiId : string) (response : ChatResponse) : M World unit :=
  let* found := findCurrentConversation in
  match found with
  | Some conversation =>
      match List.find (msgHasId aiId) (Conversation.messages conversation) with
      | Some _ =>
          modify (fun w => set_conversations
            (update_first (hasId (Conversation.id conversation))
               (mapMessages (update_first (msgHasId aiId)
                                          (settled (resp_content response))))
               (conversations w)) w) ;;
          let* now := Date_now in
          modify (fun w => set_conversations
            (update_first (hasId (Conversation.id conversation)) (touch now)
                          (conversations w)) w) ;;
          saveConversations
      | None => ret tt
      end
  | None => ret tt
  end.

(** The error handling shared, word for word, by the [onError] callback and
    by the [catch] block of [sendMessage]. *)
Definition settleWithApology : M World unit :=
  let* found := findCurrentConversation in
  match found with
  | Some conversation =>
      match List.find isStreamingAssistant (Conversation.messages conversation) with
      | Some _ =>
          modify (fun w => set_conversations
            (update_first (hasId (Conversation.id conversation))
               (mapMessages (update_first isStreamingAssistant (settled apology)))
               (conversations w)) w) ;;
          let* now := Date_now in
          modify (fun w => set_conversations
            (update_first (hasId (Conversation.id conversation)) (touch now)
                          (conversations w)) w) ;;
          saveConversations
      | None => ret tt
      end
  | None => ret tt
  end.

Definition onError (error : Error) : M World unit := settleWithApology.

(** [sendMessage], from the user message to the request handed to the API:
    the user message and the streaming assistant message are added to the
    current conversation, and the request is built. *)
Definition sendMessage_messages (content : string)
  : M World (ChatRequest * Message.t) :=
  let* userId := generateId in
  let* userTime := Date_now in
  let userMessage :=
    {| Message.id := userId; Message.role := Message.user;
       Message.content := content; Message.timestamp := userTime;
       Message.isStreaming := None; Message.displayContent := None |} in
  let* cur := currentConversationValue in
  addMessage (Conversation.id cur) userMessage ;;
  let* aiId := generateId in
  let* aiTime := Date_now in
  let aiMessage :=
    {| Message.id := aiId; Message.role := Message.assistant;
       Message.content := ""; Message.timestamp := aiTime;
       Message.isStreaming := Some true; Message.displayContent := Some "" |} in
  let* cur := currentConversationValue in
  addMessage (Conversation.id cur) aiMessage ;;
  let* cur := currentConversationValue in
  ret ({| req_messages := [userMessage];
          req_model := Conversation.model cur;
          req_deepThink := Conversation.deepThink cur;
          req_useSearch := Conversation.useSearch cur;
          req_conversationId := Some (Conversation.id cur);
          req_message := Some content |},
       aiMessage).

(** [sendMessage], from its [try] to the call of the API: the conversation is
    created when there is none, then the messages are added.  The only
    [await] here is on [createNewConversation], which has no pending promise
    inside: no other handler runs in between. *)
Definition sendMessage_begin (content : string)
  : M World (ChatRequest * Message.t) :=
  let* current := gets currentConversation in
  (match current with
   | None => createNewConversation None ;; ret tt
   | Some _ => ret tt
   end) ;;
  sendMessage_messages content.

Definition sendMessage (content : string) (net : Exchange World) : M World unit :=
  modify (set_isLoading true) ;;
  try_finally
    (try_catch
       (let* (request, aiMessage) := sendMessage_begin content in
        chatAPI.sendMessage getItem readClock request
          (Some (onChunk (Message.id aiMessage)))
          (Some (onComplete (Message.id aiMessage)))
          (Some onError)
          net)
       (fun error => settleWithApology))
    (modify (set_isLoading false)).

Definition clearAllConversations : M World unit :=
  modify (set_conversations []) ;;
  modify (set_currentConversationId None) ;;
  saveConversations.

Definition clearCurrentConversation : M World unit :=
  modify (set_currentConversationId None) ;;
  saveToLocalStorage "currentConversationId" JNull.

End conversationStore.

(** ** components/ChatInput and components/MainContent *)

Module ChatInput.

(** [canSend]: localValue.trim().length > 0 && !props.isLoading *)
Definition canSend (localValue : string) (isLoading : bool) : bool :=
  (0 <? js_length (trim localValue))%nat && negb isLoading.

End ChatInput.

Module MainContent.

(** [handleSendMessage]: a blank text or a send in flight makes it return at
    once. *)
Definition handleSendMessage (content : string) (net : Exchange World)
  : M World unit :=
  let* loading := gets mainIsLoading in
  if negb (truthy (trim content)) || loading then ret tt
  else
    modify (set_mainIsLoading true) ;;
    try_finally
      (try_catch
         (conversationStore.sendMessage content net ;;
          modify (set_inputText ""))
         (fun error => ret tt))
      (modify (set_mainIsLoading false)).

End MainContent.

(** [handleSend] of ChatInput emits [send-message] with the trimmed text when
    [canSend] holds; MainContent answers with [handleSendMessage]. *)
Definition ChatInput_handleSend (localValue : string) (net : Exchange World)
  : M World unit :=
  let* loading := gets mainIsLoading in
  if ChatInput.canSend localValue loading
  then MainContent.handleSendMessage (trim localValue) net
  else ret tt.

(** ** Observing the calls made to the callbacks

    The callbacks handed to [chatAPI.sendMessage] are arbitrary.  To speak of
    the calls it makes, every callback is wrapped so that it writes its
    argument to a log before it runs; the log sits beside the world. *)

Inductive Call : Type :=
| CallChunk (data : string)
| CallComplete (content : string)
| CallError (e : Error).

Section Recording.

Context {W : Type}.

Definition lifted {A} (c : M W A) : M (W * list Call) A :=
  fun s => match c (fst s) with (r, w') => (r, (w', snd s)) end.

Definition liftedTotal {A} (f : W -> A * W) : W * list Call -> A * (W * list Call) :=
  fun s => match f (fst s) with (a, w') => (a, (w', snd s)) end.

Definition liftedHook (h : W -> W) : W * list Call -> W * list Call :=
  fun s => (h (fst s), snd s).

Definition recorded {A} (ev : A -> Call) (f : A -> M W unit)
  : A -> M (W * list Call) unit :=
  fun a s => match f a (fst s) with (r, w') => (r, (w', snd s ++ [ev a])) end.

Definition liftedRead (r : Read W) : Read (W * list Call) :=
  {| whileReading := liftedHook (whileReading r); value := value r |}.

Definition liftedBody (b : Body W) : Body (W * list Call) :=
  {| reads := map liftedRead (reads b);
     whileLastRead := liftedHook (whileLastRead b);
     ending := ending b |}.

Definition liftedResponse (r : Response W) : Response (W * list Call) :=
  match r with
  | FetchRejects => FetchRejects
  | Responds ok status body => Responds ok status (option_map liftedBody body)
  end.

Definition liftedExchange (e : Exchange W) : Exchange (W * list Call) :=
  {| whileFetching := liftedHook (whileFetching e);
     response := liftedResponse (response e) |}.

(** The calls that consuming a stream makes to the given callbacks. *)
Definition callsOfStream (Date_now : W -> Z * W) (request : ChatRequest)
    (onChunk : string -> M W unit) (onComplete : ChatResponse -> M W unit)
    (body : Body W) (w : W) : list Call :=
  snd (snd (chatAPI.consumeStream (liftedTotal Date_now) request
              (Some (recorded CallChunk onChunk))
              (Some (recorded (fun r => CallComplete (resp_content r)) onComplete))
              (liftedBody body) (w, []))).

(** The calls that a whole [chatAPI.sendMessage] makes. *)
Definition callsOfSend (getItem : string -> M W (option Text))
    (Date_now : W -> Z * W) (request : ChatRequest)
    (onChunk : string -> M W unit) (onComplete : ChatResponse -> M W unit)
    (onError : Error -> M W unit) (net : Exchange W) (w : W) : list Call :=
  snd (snd (chatAPI.sendMessage (fun k => lifted (getItem k))
              (liftedTotal Date_now) request
              (Some (recorded CallChunk onChunk))
              (Some (recorded (fun r => CallComplete (resp_content r)) onComplete))
              (Some (recorded CallError onError))
              (liftedExchange net) (w, []))).

End Recording.

(** ** The stream as the specification reads it

    A stream is a text of lines; a line that begins with "data: " carries a
    fragment, the text after the prefix; the fragment "[DONE]" is the
    sentinel.  The text of the stream is what the reads deliver, end to end:
    where the network cuts it into reads is no part of it. *)

Definition sentinel : string := "[DONE]".

(** The fragment a line carries: the text after the prefix. *)
Definition payload (line : string) : option string :=
  if startsWith "data: " line then Some (slice 6 line) else None.

(** The text of the stream. *)
Definition streamText {W} (rs : list (Read W)) : string :=
  joined (map value rs).

(** The fragments of the stream, in order: the payloads of the lines of its
    text. *)
Definition fragmentsOfStream {W} (rs : list (Read W)) : list string :=
  omap payload (split newline (streamText rs)).

(** ** The stream as the reader cuts it

    The reader splits every read into lines on its own, and keeps nothing
    from one read to the next: a line that the network cuts in two is for it
    two lines. *)

(** The lines that the reader sees, in arrival order. *)
Definition linesOf {W} (rs : list (Read W)) : list string :=
  flat_map (fun r => split newline (value r)) rs.

(** The payloads that the reader sees, in arrival order. *)
Definition payloadsOf {W} (rs : list (Read W)) : list string :=
  omap payload (linesOf rs).

(** The payloads that come before the first sentinel. *)
Fixpoint beforeSentinel (payloads : list string) : list string :=
  match payloads with
  | [] => []
  | p :: rest => if String.eqb p sentinel then [] else p :: beforeSentinel rest
  end.

Definition hasSentinel (payloads : list string) : bool :=
  existsb (fun p => String.eqb p sentinel) payloads.

Definition isChunkCall (c : Call) : bool :=
  match c with CallChunk _ => true | _ => false end.

Definition isTerminalCall (c : Call) : bool :=
  match c with CallChunk _ => false | _ => true end.

(** ** Reading the store *)

(** What a successful or refused write leaves in the world: the outcome of
    [saveToLocalStorage(key, data)]. *)
Definition persist (key : string) (data : JSON) (w : World) : World :=
  let ls := localStorage w in
  if accessDenied ls || quotaExceeded ls then w
  else set_localStorage {| items := <[key := JSON_stringify data]> (items ls);
                           accessDenied := accessDenied ls;
                           quotaExceeded := quotaExceeded ls |} w.

(** The world a computation leaves, and its outcome. *)
Definition worldAfter {A} (c : M World A) (w : World) : World := snd (c w).
Definition outcome {A} (c : M World A) (w : World) : Result A := fst (c w).

(** The message of a conversation that has the given id. *)
Definition messageOf (mid : string) (conv : Conversation.t) : option Message.t :=
  List.find (conversationStore.msgHasId mid) (Conversation.messages conv).

(** The ids of the messages of a conversation, in position order. *)
Definition messageIds (conv : Conversation.t) : list string :=
  map Message.id (Conversation.messages conv).

(** ** The atomic steps of the store

    Between two [await]s JavaScript runs a handler to its end.  The steps
    below are the pieces of store code that run without suspension: the
    exported operations and the pieces of [sendMessage]: the setting of
    [isLoading], the part before the request, the three callbacks, the
    [catch] block and the [finally] block. *)

Inductive Action : Type :=
| LoadConversations
| SaveConversations
| CreateNewConversation (settings : option ConversationSettings)
| SwitchConversation (conversationId : string)
| DeleteConversation (conversationId : string)
| UpdateConversationTitle (conversationId title : string)
| UpdateConversationSettings (settings : ConversationSettings)
| AddMessage (conversationId : string) (message : Message.t)
| ClearAllConversations
| ClearCurrentConversation
| SendLoading
| SendBegin (content : string)
| StreamChunk (aiId chunk : string)
| StreamComplete (aiId : string) (response : ChatResponse)
| StreamError (error : Error)
| SendCatch
| SendFinally.

Definition perform (a : Action) : M World unit :=
  match a with
  | LoadConversations => conversationStore.loadConversations
  | SaveConversations => conversationStore.saveConversations
  | CreateNewConversation settings =>
      conversationStore.createNewConversation settings ;; ret tt
  | SwitchConversation cid => conversationStore.switchConversation cid
  | DeleteConversation cid => conversationStore.deleteConversation cid
  | UpdateConversationTitle cid title =>
      conversationStore.updateConversationTitle cid title
  | UpdateConversationSettings settings =>
      conversationStore.updateConversationSettings settings
  | AddMessage cid message => conversationStore.addMessage cid message
  | ClearAllConversations => conversationStore.clearAllConversations
  | ClearCurrentConversation => conversationStore.clearCurrentConversation
  | SendLoading => modify (set_isLoading true)
  | SendBegin content => conversationStore.sendMessage_begin content ;; ret tt
  | StreamChunk aiId chunk => conversationStore.onChunk aiId chunk
  | StreamComplete aiId response => conversationStore.onComplete aiId response
  | StreamError error => conversationStore.onError error
  | SendCatch => conversationStore.settleWithApology
  | SendFinally => modify (set_isLoading false)
  end.

(** A handler that throws is reported to the console; the world keeps what
    was written before the throw. *)
Definition step (a : Action) (w : World) : World := worldAfter (perform a) w.

Definition steps (actions : list Action) (w : World) : World :=
  fold_left (fun w a => step a w) actions w.



(** A conversation object grows: it keeps its id, and the messages it had
    keep their positions; what is new comes after them. *)
Definition grows (c c' : Conversation.t) : Prop :=
  Conversation.id c' = Conversation.id c
  /\ exists appended, messageIds c' = messageIds c ++ appended.

(** ** The invariant on the current conversation *)

Definition currentIsListed (w : World) : Prop :=
  match currentConversationId w with
  | None => True
  | Some cid => In cid (map Conversation.id (conversations w))
  end.

(** A computation keeps a relation between the world it starts from and the
    world it leaves, whatever its outcome. *)
Definition keeps {W A} (R : W -> W -> Prop) (c : M W A) : Prop :=
  forall w, R w (snd (c w)).

(** The conversation objects stay where they are, and each one grows. *)
Definition inPlace (w w' : World) : Prop :=
  Forall2 grows (conversations w) (conversations w').

(** The list of conversation ids and the current id are unchanged. *)
Definition sameListing (w w' : World) : Prop :=
  map Conversation.id (conversations w') = map Conversation.id (conversations w)
  /\ currentConversationId w' = currentConversationId w.

(** Every handler that runs while the request is pending keeps [R]. *)
Definition hooksStep {W} (R : W -> W -> Prop) (net : Exchange W) : Prop :=
  (forall w, R w (whileFetching net w))
  /\ match response net with
     | Responds _ _ (Some body) =>
         Forall (fun r => forall w, R w (whileReading r w)) (reads body)
         /\ (forall w, R w (whileLastRead body w))
     | _ => True
     end.

(** The conversation objects stay in place and grow, and the current id is
    unchanged. *)
Definition evolves (w w' : World) : Prop :=
  inPlace w w' /\ currentConversationId w' = currentConversationId w.

(** A step that keeps the invariant on the current conversation. *)
Definition keepsListed (w w' : World) : Prop :=
  currentIsListed w -> currentIsListed w'.

(** The pieces of [sendMessage content]. *)
Definition isSendPiece (content : string) (a : Action) : Prop :=
  match a with
  | SendLoading | StreamChunk _ _ | StreamComplete _ _ | StreamError _
  | SendCatch | SendFinally => True
  | SendBegin c => c = content
  | _ => False
  end.

(** When [loadConversations] keeps the current id listed: what it loads is
    not a list, or no conversation is current, or the loaded list has the
    current id (an empty current id counts as none when the loaded list is
    not empty: the code tests the id for truthiness). *)
Definition loadKeepsCurrent (w : World) : Prop :=
  match outcome (loadFromLocalStorage "conversations") w with
  | Ok (JConversations l) =>
      match currentConversationId w with
      | None => True
      | Some cur => In cur (map Conversation.id l) \/ (cur = "" /\ l <> [])
      end
  | _ => True
  end.

(** ** Worlds to run the code on *)

Definition emptyStorage : LocalStorage :=
  {| items := ∅; accessDenied := false; quotaExceeded := false |}.

(** The n-th generated id: "a", "b", "c", ... *)
Definition letters (n : nat) : string :=
  String (ascii_of_nat (97 + n)) EmptyString.

(** The store as [defineStore] sets it up, before [loadConversations] runs. *)
Definition newStore (ls : LocalStorage) : World :=
  {| conversations := []; currentConversationId := None; isLoading := false;
     inputText := ""; mainIsLoading := false; localStorage := ls;
     clock := fun n => Z.of_nat n; entropy := letters; tick := 0 |}.

Definition storedConversation : Conversation.t :=
  {| Conversation.id := "stored"; Conversation.title := "新对话";
     Conversation.messages := []; Conversation.model := "deepseek-chat";
     Conversation.deepThink := false; Conversation.useSearch := false;
     Conversation.createdAt := 0; Conversation.updatedAt := 0 |}.

(** A storage that holds one conversation and accepts no more writes. *)
Definition fullStorage : LocalStorage :=
  {| items := {[ "conversations" := Encoded (JConversations [storedConversation]) ]};
     accessDenied := false; quotaExceeded := true |}.

(** No other handler runs while a promise is pending. *)
Definition undisturbed : World -> World := fun w => w.

Definition chunksOf (texts : list string) : list (Read World) :=
  map (fun t => {| whileReading := undisturbed; value := t |}) texts.

(** A response with status 200 whose body delivers the given chunks. *)
Definition streamOf (texts : list string) (fin : StreamEnd) : Exchange World :=
  {| whileFetching := undisturbed;
     response := Responds true 200
                   (Some {| reads := chunksOf texts;
                            whileLastRead := undisturbed;
                            ending := fin |}) |}.

Definition line (s : string) : string := (s ++ String newline EmptyString)%string.

(** A body that delivers the given texts, one in each read, and then ends;
    nothing else happens meanwhile. *)
Definition bodyOf {W} (texts : list string) : Body W :=
  {| reads := map (fun t => {| whileReading := fun w => w; value := t |}) texts;
     whileLastRead := fun w => w;
     ending := EndOfStream |}.

(** The user presses "new conversation" while the request is pending; then
    the answer comes, complete. *)
Definition newConversationThenAnswer : Exchange World :=
  {| whileFetching :=
       step (CreateNewConversation
               (Some {| set_model := Some "deepseek-chat";
                        set_deepThink := Some false;
                        set_useSearch := Some false |}));
     response := Responds true 200
                   (Some (bodyOf [line "data: late answer"; line "data: [DONE]"])) |}.


(** The world while a first send, made through MainContent on a new store, is
    waiting for its response. *)
Definition pendingWorld : World :=
  steps [SendLoading; SendBegin "first"]
        (set_mainIsLoading true (newStore emptyStorage)).

(** The calls that may end a send: none, one [onComplete], one [onError], or
    an [onComplete] followed by the [onError] that reports its throw. *)
Definition terminalShape (calls : list Call) : Prop :=
  calls = []
  \/ (exists c, calls = [CallComplete c])
  \/ (exists e, calls = [CallError e])
  \/ (exists c e, calls = [CallComplete c; CallError e]).

(** The calls that the API makes to the callbacks of the store during
    [sendMessage content]. *)
Definition callsOfStoreSend (content : string) (net : Exchange World) (w : World)
  : list Call :=
  match conversationStore.sendMessage_begin content (set_isLoading true w) with
  | (Ok (request, aiMessage), w1) =>
      callsOfSend getItem readClock request
        (conversationStore.onChunk (Message.id aiMessage))
        (conversationStore.onComplete (Message.id aiMessage))
        conversationStore.onError net w1
  | (Throw _, _) => []
  end.

(** A stream that delivers one fragment and then ends, with no sentinel. *)
Definition cutStream : Exchange World :=
  streamOf [line "data: partial answer"] EndOfStream.

(** The user presses "new conversation" while the request is pending, and
    then the request fails. *)
Definition newConversationThenFailure : Exchange World :=
  {| whileFetching :=
       step (CreateNewConversation
               (Some {| set_model := Some "deepseek-chat";
                        set_deepThink := Some false;
                        set_useSearch := Some false |}));
     response := FetchRejects |}.

(** A request that fails, with nothing else happening. *)
Definition failure : Exchange World :=
  {| whileFetching := undisturbed; response := FetchRejects |}.

(** The state of the message with this id in the first conversation that has
    one: its content, its streaming flag, and what is displayed. *)
Definition messageState (mid : string) (w : World)
  : option (string * option bool * option string) :=
  match List.find (fun conv => match messageOf mid conv with
                               | Some _ => true
                               | None => false
                               end) (conversations w) with
  | Some conv =>
      match messageOf mid conv with
      | Some m => Some (Message.content m, Message.isStreaming m,
                        Message.displayContent m)
      | None => None
      end
  | None => None
  end.

(** The code that [onComplete] and the error handling have in common: in the
    current conversation, the first message that [p] selects is rewritten by
    [f], the conversation is dated, and the list is saved. *)
Definition settleFirst (p : Message.t -> bool) (f : Message.t -> Message.t)
  : M World unit :=
  let* found := conversationStore.findCurrentConversation in
  match found with
  | Some conversation =>
      match List.find p (Conversation.messages conversation) with
      | Some _ =>
          modify (fun w => set_conversations
            (update_first (conversationStore.hasId (Conversation.id conversation))
               (conversationStore.mapMessages (update_first p f))
               (conversations w)) w) ;;
          let* now := Date_now in
          modify (fun w => set_conversations
            (update_first (conversationStore.hasId (Conversation.id conversation))
                          (conversationStore.touch now) (conversations w)) w) ;;
          conversationStore.saveConversations
      | None => ret tt
      end
  | None => ret tt
  end.

(** What the store has persisted under its key. *)
Definition persistedConversations (w : World) : option Text :=
  items (localStorage w) !! "conversations".

Definition storageWritable (w : World) : Prop :=
  accessDenied (localStorage w) = false /\ quotaExceeded (localStorage w) = false.

(** A send has begun on a new store and waits for its response; its
    assistant message has the id "g". *)
Definition streamingWorld : World :=
  steps [SendLoading; SendBegin "first"] (newStore emptyStorage).

Definition lateResponse : ChatResponse :=
  {| resp_id := 0; resp_content := "late answer";
     resp_model := "deepseek-chat"; resp_timestamp := 0 |}.

(** A storage whose conversation slot holds the text [null]. *)
Definition nullStorage : LocalStorage :=
  {| items := {[ STORAGE_KEYS.CONVERSATIONS := Encoded JNull ]};
     accessDenied := false; quotaExceeded := false |}.

(** What a reader of the storage finds under a key: nothing usable (the key
    is missing, the text is empty or is not JSON, or the access is refused),
    or the value that the text encodes. *)
Definition storedValue (key : string) (w : World) : option JSON :=
  if accessDenied (localStorage w) then None
  else match items (localStorage w) !! key with
       | Some (Encoded v) => Some v
       | _ => None
       end.

Definition noteMessage (mid text : string) : Message.t :=
  {| Message.id := mid; Message.role := Message.user; Message.content := text;
     Message.timestamp := 0; Message.isStreaming := None;
     Message.displayContent := None |}.

(** A store with one conversation, "a", that holds one message. *)
Definition oneMessageWorld : World :=
  steps [CreateNewConversation None; AddMessage "a" (noteMessage "m1" "one")]
        (newStore emptyStorage).

(** ** utils/index.ts: the title of a conversation *)

(** [generateConversationTitle(firstMessage)]: the message when it has at
    most 20 code units, its first 20 units and an ellipsis otherwise. *)
Definition generateConversationTitle (firstMessage : string) : string :=
  if (js_length firstMessage <=? 20)%nat then firstMessage
  else (slice_to 20 firstMessage ++ "...")%string.

(** ** components/ChatMessages: what the page shows of a message

    A user message shows its content.  An assistant message shows
    [displayContent] while [isStreaming] is set (an absent property is
    rendered as the empty text), and its content otherwise. *)
Definition ChatMessages_text (message : Message.t) : string :=
  match Message.role message with
  | Message.user => Message.content message
  | Message.assistant =>
      match Message.isStreaming message with
      | Some true => match Message.displayContent message with
                     | Some d => d
                     | None => ""
                     end
      | _ => Message.content message
      end
  end.

(** ** components/MainContent: the controls of the conversation *)

(** [handleModelChange(model)] *)
Definition MainContent_handleModelChange (model : string) : M World unit :=
  let* current := gets conversationStore.currentConversation in
  match current with
  | Some _ =>
      conversationStore.updateConversationSettings
        {| set_model := Some model; set_deepThink := None; set_useSearch := None |}
  | None => ret tt
  end.

(** [handleToggleDeepThink(deepThink)] *)
Definition MainContent_handleToggleDeepThink (deepThink : bool) : M World unit :=
  let* current := gets conversationStore.currentConversation in
  match current with
  | Some _ =>
      conversationStore.updateConversationSettings
        {| set_model := None; set_deepThink := Some deepThink; set_useSearch := None |}
  | None => ret tt
  end.

(** [handleToggleSearch(useSearch)] *)
Definition MainContent_handleToggleSearch (useSearch : bool) : M World unit :=
  let* current := gets conversationStore.currentConversation in
  match current with
  | Some _ =>
      conversationStore.updateConversationSettings
        {| set_model := None; set_deepThink := None; set_useSearch := Some useSearch |}
  | None => ret tt
  end.

(** The properties that MainContent hands to ChatInput:
    [currentConversation?.deepThink || false] and
    [currentConversation?.useSearch || false]. *)
Definition MainContent_deepThink (w : World) : bool :=
  match conversationStore.currentConversation w with
  | Some conv => Conversation.deepThink conv
  | None => false
  end.

Definition MainContent_useSearch (w : World) : bool :=
  match conversationStore.currentConversation w with
  | Some conv => Conversation.useSearch conv
  | None => false
  end.

(** ** components/ChatInput: the keyboard *)

(** [handleKeydown(event)]: Enter without Shift sends. *)
Definition ChatInput_handleKeydown (key : string) (shiftKey : bool)
    (localValue : string) (net : Exchange World) : M World unit :=
  if String.eqb key "Enter" && negb shiftKey
  then ChatInput_handleSend localValue net
  else ret tt.

(** ** What the store keeps in localStorage *)

(** The list in memory is the list that is persisted. *)
Definition inSync (w : World) : Prop :=
  persistedConversations w = Some (Encoded (JConversations (conversations w))).

(** The storage is the same but for the two slots the store writes. *)
Definition sameElsewhere (w w' : World) : Prop :=
  accessDenied (localStorage w') = accessDenied (localStorage w)
  /\ quotaExceeded (localStorage w') = quotaExceeded (localStorage w)
  /\ forall key, key <> "conversations" -> key <> "currentConversationId" ->
       items (localStorage w') !! key = items (localStorage w) !! key.

(** The page is loaded again: the store and MainContent start from
    their initial state, on the storage as it is, and the store calls
    [loadConversations]. *)
Definition reloaded (w : World) : World :=
  worldAfter conversationStore.loadConversations
    (set_conversations []
       (set_currentConversationId None
          (set_isLoading false (set_inputText "" (set_mainIsLoading false w))))).

(** A step of the store that is not the arrival of a fragment. *)
Definition isChunkStep (a : Action) : bool :=
  match a with StreamChunk _ _ => true | _ => false end.

(** ** The fragments of a stream, as the store receives them *)

(** [message.displayContent += chunk], once for each fragment. *)
Definition appendAll (fragments : list string) (m : Message.t) : Message.t :=
  fold_left (fun m chunk => conversationStore.appendDisplay chunk m) fragments m.

(** The text that [displayContent] starts from. *)
Definition displayBase (m : Message.t) : string :=
  match Message.displayContent m with
  | Some d => d
  | None => "undefined"
  end.

(** The storage accepts writes and holds the list that is in memory. *)
Definition savedState (w : World) : Prop := storageWritable w /\ inSync w.

(** What a step of the store does about the persisted list: it leaves the
    list in memory and the persisted one as they are, or it ends by saving
    the list in memory.  The browser's refusals are what they were. *)
Definition savesChanges (w w' : World) : Prop :=
  accessDenied (localStorage w') = accessDenied (localStorage w)
  /\ quotaExceeded (localStorage w') = quotaExceeded (localStorage w)
  /\ ((conversations w' = conversations w
       /\ persistedConversations w' = persistedConversations w)
      \/ (storageWritable w -> inSync w')).

(** ** A send whose request nothing disturbs *)

(** No other handler changes the world while the request is pending. *)
Definition quiet (net : Exchange World) : Prop :=
  (forall w, whileFetching net w = w)
  /\ match response net with
     | Responds _ _ (Some body) =>
         Forall (fun r => forall w, whileReading r w = w) (reads body)
         /\ (forall w, whileLastRead body w = w)
     | _ => True
     end.



(** The request fails: [fetch] rejects, the status is not a success, the
    response has no body, or a read rejects before the sentinel. *)
Definition fails (net : Exchange World) : bool :=
  match response net with
  | FetchRejects => true
  | Responds false _ _ => true
  | Responds true _ None => true
  | Responds true _ (Some body) =>
      negb (hasSentinel (payloadsOf (reads body)))
      && match ending body with ReadFails => true | EndOfStream => false end
  end.




(** The states of a send between its request and its end.  [msgs] are the
    messages of the conversation [cid] when the request is made, [aid] the id
    of the assistant message, [ls] the storage.  While the fragments [ds]
    have arrived, the first message with the id [aid] has received them. *)
Definition streamingState (aid cid : string) (msgs : list Message.t)
    (ls : LocalStorage) (ds : list string) (w : World) : Prop :=
  exists conv,
    conversationStore.currentConversation w = Some conv
    /\ Conversation.id conv = cid
    /\ Conversation.messages conv
       = update_first (conversationStore.msgHasId aid) (appendAll ds) msgs
    /\ localStorage w = ls.

(** Once [settle] has been applied to the first message that [p] selects
    among the messages [msgs'], and the list saved. *)
Definition settledState (p : Message.t -> bool) (settle : Message.t -> Message.t)
    (cid : string) (msgs' : list Message.t) (ls : LocalStorage) (w : World)
  : Prop :=
  exists conv,
    conversationStore.currentConversation w = Some conv
    /\ Conversation.id conv = cid
    /\ Conversation.messages conv = update_first p settle msgs'
    /\ accessDenied (localStorage w) = accessDenied ls
    /\ quotaExceeded (localStorage w) = quotaExceeded ls
    /\ (accessDenied ls = false -> quotaExceeded ls = false ->
        List.find p msgs' <> None -> inSync w).

(** The messages of the current conversation, none when there is none. *)
Definition currentMessages (w : World) : list Message.t :=
  match conversationStore.currentConversation w with
  | Some conv => Conversation.messages conv
  | None => []
  end.

(** The flags and the input text of the page are unchanged. *)
Definition samePage (w w' : World) : Prop :=
  isLoading w' = isLoading w
  /\ mainIsLoading w' = mainIsLoading w
  /\ inputText w' = inputText w.

(** ** api/index.ts: the calls of the simulated reply *)

(** The calls that [sendMessageMock] makes to the given callbacks. *)
Definition callsOfMock {W} (Date_now : W -> Z * W) (request : ChatRequest)
    (onChunk : string -> M W unit) (onComplete : ChatResponse -> M W unit)
    (w : W) : list Call :=
  snd (snd (chatAPI.sendMessageMock (liftedTotal Date_now) request
              (Some (recorded CallChunk onChunk))
              (Some (recorded (fun r => CallComplete (resp_content r)) onComplete))
              None (w, []))).

(** ** utils/index.ts: the slot of the current conversation id

    [storage.saveCurrentConversationId] and [storage.getCurrentConversationId]
    keep the id as it is, not its JSON encoding: for them a slot of
    localStorage is the text it holds. *)

Record TextStorage : Type := {
  texts : gmap string string;
  textAccessDenied : bool;       (* the browser refuses every access *)
  textQuotaExceeded : bool       (* the browser refuses every write *)
}.

(** [localStorage.getItem(key)] *)
Definition text_getItem (key : string) : M TextStorage (option string) :=
  fun s => if textAccessDenied s then (Throw DOMException, s)
           else (Ok (texts s !! key), s).

(** [localStorage.setItem(key, value)] *)
Definition text_setItem (key value : string) : M TextStorage unit :=
  fun s => if textAccessDenied s || textQuotaExceeded s then (Throw DOMException, s)
           else (Ok tt, {| texts := <[key := value]> (texts s);
                           textAccessDenied := textAccessDenied s;
                           textQuotaExceeded := textQuotaExceeded s |}).

(** [localStorage.removeItem(key)]: needs no room. *)
Definition text_removeItem (key : string) : M TextStorage unit :=
  fun s => if textAccessDenied s then (Throw DOMException, s)
           else (Ok tt, {| texts := delete key (texts s);
                           textAccessDenied := textAccessDenied s;
                           textQuotaExceeded := textQuotaExceeded s |}).

(** [storage.saveCurrentConversationId(id)]: a null or empty id removes the
    entry. *)
Definition storage_saveCurrentConversationId (id : option string)
  : M TextStorage unit :=
  match id with
  | Some text => if truthy text
                 then text_setItem STORAGE_KEYS.CURRENT_CONVERSATION_ID text
                 else text_removeItem STORAGE_KEYS.CURRENT_CONVERSATION_ID
  | None => text_removeItem STORAGE_KEYS.CURRENT_CONVERSATION_ID
  end.

(** [storage.getCurrentConversationId()] *)
Definition storage_getCurrentConversationId : M TextStorage (option string) :=
  text_getItem STORAGE_KEYS.CURRENT_CONVERSATION_ID.

(** Nothing is written while the browser refuses writes. *)
Definition nothingWritten (w w' : World) : Prop :=
  accessDenied (localStorage w) || quotaExceeded (localStorage w) = true ->
  localStorage w' = localStorage w.

(** ** The sidebar (components/Sidebar/index.vue) *)

(** [Array.prototype.sort] with a comparator: a stable sort, here by
    insertion.  The comparator of the sidebar is consistent (a difference of
    numbers), so the sorted order is determined: [a] comes before [b] when
    the comparator is negative, and elements that compare equal keep the
    order of the array. *)
Fixpoint Array_insert {A} (compare : A -> A -> Z) (x : A) (sorted : list A) : list A :=
  match sorted with
  | [] => [x]
  | y :: rest =>
      if (compare x y <=? 0)%Z then x :: sorted
      else y :: Array_insert compare x rest
  end.

Definition Array_sort {A} (compare : A -> A -> Z) (array : list A) : list A :=
  fold_right (Array_insert compare) [] array.

Module Sidebar.

(** [[...props.conversations].sort((a, b) => b.updatedAt - a.updatedAt)]: the
    copy is sorted, the list of the store is not. *)
Definition sortedConversations (conversations : list Conversation.t)
  : list Conversation.t :=
  Array_sort (fun a b => (Conversation.updatedAt b - Conversation.updatedAt a)%Z)
    conversations.

(** [conversation.title || '新对话'] *)
Definition titleText (conversation : Conversation.t) : string :=
  if truthy (Conversation.title conversation) then Conversation.title conversation
  else "新对话".

(** [conversation.messages[conversation.messages.length - 1]?.content || '空对话'] *)
Definition preview (conversation : Conversation.t) : string :=
  match last (Conversation.messages conversation) with
  | Some message =>
      if truthy (Message.content message) then Message.content message
      else "空对话"
  | None => "空对话"
  end.

(** The collapsed sidebar: [sortedConversations.slice(0, 5)]. *)
Definition collapsedConversations (conversations : list Conversation.t)
  : list Conversation.t :=
  firstn 5 (sortedConversations conversations).

End Sidebar.

(** Newest first: no conversation is older than one listed after it. *)
Fixpoint newestFirst (l : list Conversation.t) : Prop :=
  match l with
  | [] => True
  | c :: rest =>
      Forall (fun d => (Conversation.updatedAt d <= Conversation.updatedAt c)%Z) rest
      /\ newestFirst rest
  end.

(** The conversations last updated at [t], in the order of the list. *)
Definition updatedAtTime (t : Z) (l : list Conversation.t) : list Conversation.t :=
  List.filter (fun c => (Conversation.updatedAt c =? t)%Z) l.
(** * Theorems *)

(** ** Strings *)

Local Arguments String.append : simpl nomatch.
Local Arguments slice : simpl never.
Local Arguments startsWith : simpl never.
Local Arguments String.eqb : simpl never.

Lemma append_assoc (a b c : string) :
  ((a ++ b) ++ c)%string = (a ++ (b ++ c))%string.
Proof. induction a as [|x a IH]; simpl; [reflexivity | now rewrite IH]. Qed.

Lemma append_empty_r (a : string) : (a ++ "")%string = a.
Proof. induction a as [|x a IH]; simpl; [reflexivity | now rewrite IH]. Qed.

Lemma joined_app (l1 l2 : list string) :
  joined (l1 ++ l2) = (joined l1 ++ joined l2)%string.
Proof.
  induction l1 as [|x l1 IH]; simpl; [reflexivity|].
  now rewrite IH, append_assoc.
Qed.

(** ** The stream reader *)

Lemma beforeSentinel_no_sentinel (ps : list string) :
  ~ In sentinel (beforeSentinel ps).
Proof.
  induction ps as [|p ps IH]; simpl; [tauto|].
  destruct (String.eqb p sentinel) eqn:E; simpl; [tauto|].
  intros [H|H]; [|tauto].
  subst p. now rewrite String.eqb_refl in E.
Qed.


Lemma beforeSentinel_app (ps qs : list string) :
  beforeSentinel (ps ++ qs)
  = if hasSentinel ps then beforeSentinel ps else ps ++ beforeSentinel qs.
Proof.
  induction ps as [|p ps IH]; simpl; [reflexivity|].
  destruct (String.eqb p sentinel); simpl; [reflexivity|].
  rewrite IH. now destruct (hasSentinel ps).
Qed.

Lemma hasSentinel_app (ps qs : list string) :
  hasSentinel (ps ++ qs) = hasSentinel ps || hasSentinel qs.
Proof. unfold hasSentinel. apply existsb_app. Qed.

(** One step of the loop over lines, read through [payload]. *)
Lemma forLines_cons {W} (Date_now : W -> Z * W) (request : ChatRequest)
    (onChunk : option (string -> M W unit))
    (onComplete : option (ChatResponse -> M W unit))
    (line : string) (rest : list string) (acc : string) :
  chatAPI.forLines Date_now request onChunk onComplete (line :: rest) acc
  = match payload line with
    | None => chatAPI.forLines Date_now request onChunk onComplete rest acc
    | Some data =>
        if String.eqb data sentinel then
          (match onComplete with
           | Some f =>
               let* id := total Date_now in
               let* ts := total Date_now in
               f {| resp_id := id; resp_content := acc;
                    resp_model := req_model request; resp_timestamp := ts |}
           | None => ret tt
           end) ;;
          ret None
        else
          try_catch (call_opt onChunk data) (fun _ => ret tt) ;;
          chatAPI.forLines Date_now request onChunk onComplete rest
            (acc ++ data)%string
    end.
Proof. unfold payload. simpl. now destruct (startsWith "data: " line). Qed.

Section StreamReader.

Context {W : Type}.
Variable Date_now : W -> Z * W.
Variable request : ChatRequest.
Variable onChunk : string -> M W unit.
Variable onComplete : ChatResponse -> M W unit.

Local Notation "'forLinesR'" :=
  (chatAPI.forLines (liftedTotal Date_now) request
     (Some (recorded CallChunk onChunk))
     (Some (recorded (fun r => CallComplete (resp_content r)) onComplete))).

Local Notation "'readLoopR'" :=
  (chatAPI.readLoop (liftedTotal Date_now) request
     (Some (recorded CallChunk onChunk))
     (Some (recorded (fun r => CallComplete (resp_content r)) onComplete))).

(** Forwarding a fragment: the call is logged, and a throw of the callback
    is swallowed. *)
Lemma forward_recorded {A} (data : string) (k : M (W * list Call) A)
    (w : W) (tr : list Call) :
  bind (try_catch (call_opt (Some (recorded CallChunk onChunk)) data)
                  (fun _ => ret tt))
       (fun _ => k) (w, tr)
  = k (snd (onChunk data w), tr ++ [CallChunk data]).
Proof.
  unfold bind, try_catch, call_opt, recorded, ret. cbn [fst snd].
  now destruct (onChunk data w) as [[[]|e] w1].
Qed.

(** Meeting the sentinel: [onComplete] is called with the content, and the
    loop is left; a throw of the callback becomes the outcome. *)
Lemma complete_recorded (acc : string) (w : W) (tr : list Call) :
  exists (out : Result (option string)) (w' : W),
    bind (match Some (recorded (fun r => CallComplete (resp_content r)) onComplete) with
          | Some f =>
              let* id := total (liftedTotal Date_now) in
              let* ts := total (liftedTotal Date_now) in
              f {| resp_id := id; resp_content := acc;
                   resp_model := req_model request; resp_timestamp := ts |}
          | None => ret tt
          end)
         (fun _ => ret None) (w, tr)
    = (out, (w', tr ++ [CallComplete acc]))
    /\ forall a, out <> Ok (Some a).
Proof.
  unfold bind, total, liftedTotal, recorded, ret. cbn [fst snd].
  destruct (Date_now w) as [i w1]. cbn [fst snd].
  destruct (Date_now w1) as [t w2]. cbn [fst snd].
  match goal with
  | |- context [onComplete ?r w2] => destruct (onComplete r w2) as [[[]|e] w3]
  end; cbn [resp_content]; eexists _, _; split; try reflexivity; discriminate.
Qed.

(** What one pass over the lines of a chunk logs, and how it ends. *)
Lemma forLines_calls (lines : list string) :
  forall (acc : string) (w : W) (tr : list Call),
    let ps := omap payload lines in
    let out := forLinesR lines acc (w, tr) in
    if hasSentinel ps then
      snd (snd out)
        = tr ++ map CallChunk (beforeSentinel ps)
             ++ [CallComplete (acc ++ joined (beforeSentinel ps))%string]
      /\ (forall a, fst out <> Ok (Some a))
    else
      snd (snd out) = tr ++ map CallChunk ps
      /\ fst out = Ok (Some (acc ++ joined ps)%string).
Proof.
  induction lines as [|line rest IH]; intros acc w tr; cbv zeta.
  - simpl. rewrite !app_nil_r, append_empty_r. auto.
  - rewrite forLines_cons. cbn [omap list_omap].
    destruct (payload line) as [data|]; [|apply IH].
    cbn [hasSentinel existsb beforeSentinel].
    fold (hasSentinel (omap payload rest)).
    destruct (String.eqb data sentinel) eqn:Hd; cbn [orb].
    + destruct (complete_recorded acc w tr) as (out & w' & E & Hout).
      rewrite E. cbn [fst snd map app joined fold_right].
      rewrite append_empty_r. auto.
    + rewrite forward_recorded.
      specialize (IH (acc ++ data)%string (snd (onChunk data w))
                     (tr ++ [CallChunk data])).
      cbv zeta in IH.
      destruct (hasSentinel (omap payload rest));
        destruct IH as [IH1 IH2]; rewrite IH1; cbn [map joined fold_right];
        rewrite <- ?app_assoc, ?append_assoc; split; auto.
      rewrite IH2. now rewrite ?append_assoc.
Qed.

Lemma payloadsOf_cons {V} (r : Read V) (rs : list (Read V)) :
  payloadsOf (r :: rs) = omap payload (split newline (value r)) ++ payloadsOf rs.
Proof. unfold payloadsOf, linesOf. cbn [flat_map]. apply omap_app. Qed.

Lemma readLoop_cons (r : Read W) (rs : list (Read (W * list Call)))
    (whileLast : W * list Call -> W * list Call) (fin : StreamEnd)
    (acc : string) (w : W) (tr : list Call) :
  readLoopR (liftedRead r :: rs) whileLast fin acc (w, tr)
  = match forLinesR (split newline (value r)) acc (whileReading r w, tr) with
    | (Ok (Some a), s) => readLoopR rs whileLast fin a s
    | (Ok None, s) => (Ok tt, s)
    | (Throw e, s) => (Throw e, s)
    end.
Proof.
  cbn [chatAPI.readLoop].
  unfold bind, await, modify, liftedRead, liftedHook. cbn [whileReading value fst snd].
  destruct (chatAPI.forLines _ _ _ _ _ _ _) as [[[a|]|e] s]; reflexivity.
Qed.

(** What the whole loop logs, and how it ends when no sentinel comes. *)
Lemma readLoop_calls (rs : list (Read W)) (whileLast : W -> W) (fin : StreamEnd) :
  forall (acc : string) (w : W) (tr : list Call),
    let ps := payloadsOf rs in
    exists (out : Result unit) (w' : W),
      readLoopR (map liftedRead rs) (liftedHook whileLast) fin acc (w, tr)
      = (out, (w', tr ++ map CallChunk (beforeSentinel ps)
                      ++ (if hasSentinel ps
                          then [CallComplete (acc ++ joined (beforeSentinel ps))%string]
                          else [])))
      /\ (hasSentinel ps = false ->
          out = match fin with
                | EndOfStream => Ok tt
                | ReadFails => Throw NetworkError
                end).
Proof.
  induction rs as [|r rs IH]; intros acc w tr; cbv zeta.
  - cbn. unfold bind, await, modify, liftedHook. cbn.
    rewrite app_nil_r.
    destruct fin; eexists _, _; split; reflexivity || auto.
  - cbn [map]. rewrite readLoop_cons.
    rewrite payloadsOf_cons, beforeSentinel_app, hasSentinel_app.
    pose proof (forLines_calls (split newline (value r)) acc
                  (whileReading r w) tr) as H.
    cbv zeta in H.
    destruct (forLinesR (split newline (value r)) acc (whileReading r w, tr))
      as [out1 [w1 tr1]] eqn:E1.
    cbn [fst snd] in H.
    destruct (hasSentinel (omap payload (split newline (value r)))) eqn:Hs;
      cbn [orb]; destruct H as [H1 H2].
    + subst tr1. destruct out1 as [[a|]|e].
      * now elim (H2 a).
      * eexists _, _. split; [reflexivity | discriminate].
      * eexists _, _. split; [reflexivity | discriminate].
    + subst tr1 out1.
      destruct (IH (acc ++ joined (omap payload (split newline (value r))))%string
                   w1 (tr ++ map CallChunk (omap payload (split newline (value r)))))
        as (out & w' & E & Hout).
      cbv zeta in E. rewrite E. eexists _, _. split; [|exact Hout].
      f_equal. f_equal. rewrite map_app, <- !app_assoc, joined_app, append_assoc.
      reflexivity.
Qed.

End StreamReader.

Lemma beforeSentinel_split (ps : list string) :
  exists rest,
    ps = beforeSentinel ps ++ (if hasSentinel ps then sentinel :: rest else []).
Proof.
  induction ps as [|p ps [rest IH]]; cbn [beforeSentinel hasSentinel existsb].
  - now exists [].
  - fold (hasSentinel ps). destruct (String.eqb p sentinel) eqn:E; cbn [orb app].
    + apply String.eqb_eq in E. subst p. now exists ps.
    + exists rest. now rewrite IH at 1.
Qed.

(** What the reader forwards, read by read: for every stream — the chunks
    the reader delivers, whatever the other handlers do meanwhile and
    whatever the callbacks are — the calls made are one [onChunk] per payload
    that the reader sees before the first sentinel, in arrival order, and
    then, if it saw the sentinel, one [onComplete] whose content is the
    concatenation of the payloads forwarded. *)
Lemma callsOfStream_per_read
    {W : Type} (Date_now : W -> Z * W) (request : ChatRequest)
    (onChunk : string -> M W unit) (onComplete : ChatResponse -> M W unit)
    (body : Body W) (w : W) :
  callsOfStream Date_now request onChunk onComplete body w
  = map CallChunk (beforeSentinel (payloadsOf (reads body)))
    ++ (if hasSentinel (payloadsOf (reads body))
        then [CallComplete (joined (beforeSentinel (payloadsOf (reads body))))]
        else []).
Proof.
  unfold callsOfStream, chatAPI.consumeStream, liftedBody.
  cbn [reads whileLastRead ending].
  destruct (readLoop_calls Date_now request onChunk onComplete (reads body)
              (whileLastRead body) (ending body) EmptyString w [])
    as (out & w' & E & _).
  cbv zeta in E. rewrite E. reflexivity.
Qed.

(** C1 (the code against the claim).  The reader keeps no rest of a line
    from one read to the next.  The stream "data: Hello", "data: [DONE]"
    arrives in two reads, the first ending inside the first line: the
    fragment of the stream is "Hello", but the reader forwards "Hel", drops
    "lo" — a line without the prefix — and completes with "Hel".  When the
    cut falls inside the sentinel line, the reader forwards the piece
    "[DO" as content and never calls [onComplete].  This holds whatever the
    callbacks are. *)
Theorem C1_line_cut_between_reads
    {W : Type} (Date_now : W -> Z * W) (request : ChatRequest)
    (onChunk : string -> M W unit) (onComplete : ChatResponse -> M W unit)
    (w : W) :
  let cutLine : Body W := bodyOf ["data: Hel"; (line "lo" ++ line "data: [DONE]")%string] in
  let cutSentinel : Body W := bodyOf [(line "data: Hi" ++ "data: [DO")%string; line "NE]"] in
  (streamText (reads cutLine) = (line "data: Hello" ++ line "data: [DONE]")%string
   /\ fragmentsOfStream (reads cutLine) = ["Hello"; sentinel]
   /\ callsOfStream Date_now request onChunk onComplete cutLine w
      = [CallChunk "Hel"; CallComplete "Hel"])
  /\ (streamText (reads cutSentinel) = (line "data: Hi" ++ line "data: [DONE]")%string
      /\ fragmentsOfStream (reads cutSentinel) = ["Hi"; sentinel]
      /\ callsOfStream Date_now request onChunk onComplete cutSentinel w
         = [CallChunk "Hi"; CallChunk "[DO"]).
Proof.
  cbv zeta. rewrite !callsOfStream_per_read.
  repeat split; vm_compute; reflexivity.
Qed.

(** *** Reads that end at a line boundary

    The reader splits each chunk on its own.  When every chunk ends with a
    newline, the fragments it sees are the fragments of the whole text. *)

Lemma split_not_nil (sep : ascii) (s : string) : split sep s <> [].
Proof.
  destruct s as [|c s]; cbn [split]; [discriminate|].
  destruct (Ascii.eqb c sep); [discriminate|].
  destruct (split sep s); discriminate.
Qed.

Lemma split_append (sep : ascii) (a b : string) :
  split sep (a ++ String sep b)%string = split sep a ++ split sep b.
Proof.
  induction a as [|c a IH]; cbn [split String.append].
  - now rewrite Ascii.eqb_refl.
  - destruct (Ascii.eqb c sep); [now rewrite IH|].
    rewrite IH. pose proof (split_not_nil sep a) as Hne.
    destruct (split sep a) as [|l ls]; [contradiction | reflexivity].
Qed.

Lemma payload_empty : payload "" = None.
Proof. reflexivity. Qed.

Lemma payloads_line_then_rest (a b : string) :
  omap payload (split newline (line a ++ b)%string)
  = omap payload (split newline (line a)) ++ omap payload (split newline b).
Proof.
  unfold line. rewrite append_assoc. cbn [String.append].
  rewrite !split_append, !omap_app. cbn [split omap list_omap].
  rewrite payload_empty. now rewrite app_nil_r.
Qed.

Lemma payloads_of_line_aligned_reads {W} (rs : list (Read W)) :
  Forall (fun r => exists a, value r = line a) rs ->
  payloadsOf rs = omap payload (split newline (joined (map value rs))).
Proof.
  induction 1 as [|r rs [a Ha] H IH].
  - reflexivity.
  - rewrite payloadsOf_cons, IH. cbn [map joined fold_right].
    fold (joined (map value rs)). rewrite Ha.
    now rewrite payloads_line_then_rest.
Qed.

Lemma fragments_of_line_aligned_reads {W} (rs : list (Read W)) :
  Forall (fun r => exists a, value r = line a) rs ->
  payloadsOf rs = fragmentsOfStream rs.
Proof. apply payloads_of_line_aligned_reads. Qed.

(** X25.  When every read ends at the end of a line, the reader forwards the
    fragments of the stream: whatever the other handlers do meanwhile and
    whatever the callbacks are, the calls made are one [onChunk] per
    fragment, in order, for the fragments that come before the first
    sentinel "[DONE]"; then, if the sentinel came, one [onComplete] whose
    content is the concatenation of the fragments forwarded.  The sentinel
    itself is never forwarded, and nothing that follows it is. *)
Theorem aligned_reads_forward_every_fragment
    {W : Type} (Date_now : W -> Z * W) (request : ChatRequest)
    (onChunk : string -> M W unit) (onComplete : ChatResponse -> M W unit)
    (body : Body W) (w : W) :
  Forall (fun r => exists a, value r = line a) (reads body) ->
  let fragments := fragmentsOfStream (reads body) in
  let forwarded := beforeSentinel fragments in
  callsOfStream Date_now request onChunk onComplete body w
  = map CallChunk forwarded
    ++ (if hasSentinel fragments then [CallComplete (joined forwarded)] else [])
  /\ ~ In sentinel forwarded
  /\ exists rest,
       fragments = forwarded ++ (if hasSentinel fragments then sentinel :: rest else []).
Proof.
  intros Haligned. cbv zeta.
  rewrite <- (fragments_of_line_aligned_reads _ Haligned).
  split; [apply callsOfStream_per_read|]. split.
  - apply beforeSentinel_no_sentinel.
  - apply beforeSentinel_split.
Qed.

Lemma aligned_reads_forward_every_fragment_witness :
  callsOfStream readClock
    {| req_messages := []; req_model := "deepseek-chat"; req_deepThink := false;
       req_useSearch := false; req_conversationId := None;
       req_message := Some "hello" |}
    (fun _ => ret tt) (fun _ => ret tt)
    (bodyOf [(line "data: Hel" ++ line "data: lo")%string;
             (line "data: [DONE]" ++ line "data: late")%string])
    (newStore emptyStorage)
  = [CallChunk "Hel"; CallChunk "lo"; CallComplete "Hello"].
Proof.
  assert (Ha : Forall (fun r : Read World => exists a, value r = line a)
                 (reads (bodyOf [(line "data: Hel" ++ line "data: lo")%string;
                                 (line "data: [DONE]" ++ line "data: late")%string]))).
  { repeat constructor.
    - exists ("data: Hel" ++ String newline "data: lo")%string. reflexivity.
    - exists ("data: [DONE]" ++ String newline "data: late")%string. reflexivity. }
  rewrite (proj1 (aligned_reads_forward_every_fragment readClock _
                    (fun _ => ret tt) (fun _ => ret tt) _ (newStore emptyStorage) Ha)).
  vm_compute. reflexivity.
Defined.

(** ** The world and its setters *)

Lemma conversations_set_conversations l w :
  conversations (set_conversations l w) = l.
Proof. reflexivity. Qed.

Lemma currentConversationId_set_currentConversationId c w :
  currentConversationId (set_currentConversationId c w) = c.
Proof. reflexivity. Qed.

Lemma persist_conversations k v w : conversations (persist k v w) = conversations w.
Proof. unfold persist. now destruct (_ || _). Qed.

Lemma persist_currentConversationId k v w :
  currentConversationId (persist k v w) = currentConversationId w.
Proof. unfold persist. now destruct (_ || _). Qed.

Lemma persist_tick k v w : tick (persist k v w) = tick w.
Proof. unfold persist. now destruct (_ || _). Qed.

Lemma persist_clock k v w : clock (persist k v w) = clock w.
Proof. unfold persist. now destruct (_ || _). Qed.

Lemma persist_entropy k v w : entropy (persist k v w) = entropy w.
Proof. unfold persist. now destruct (_ || _). Qed.

Lemma persist_isLoading k v w : isLoading (persist k v w) = isLoading w.
Proof. unfold persist. now destruct (_ || _). Qed.

Lemma persist_mainIsLoading k v w : mainIsLoading (persist k v w) = mainIsLoading w.
Proof. unfold persist. now destruct (_ || _). Qed.

Lemma persist_inputText k v w : inputText (persist k v w) = inputText w.
Proof. unfold persist. now destruct (_ || _). Qed.

Lemma persist_flags k v w :
  accessDenied (localStorage (persist k v w)) = accessDenied (localStorage w)
  /\ quotaExceeded (localStorage (persist k v w)) = quotaExceeded (localStorage w).
Proof. unfold persist. now destruct (_ || _). Qed.

(** A write that the browser accepts is read back. *)
Lemma persist_lookup k v w :
  accessDenied (localStorage w) = false ->
  quotaExceeded (localStorage w) = false ->
  items (localStorage (persist k v w)) !! k = Some (Encoded v).
Proof.
  intros Ha Hq. unfold persist. rewrite Ha, Hq. cbn.
  apply lookup_insert_eq.
Qed.

(** [saveToLocalStorage] never throws. *)
Lemma saveToLocalStorage_run k v w :
  saveToLocalStorage k v w = (Ok tt, persist k v w).
Proof.
  unfold saveToLocalStorage, try_catch, setItem, persist, ret.
  now destruct (_ || _).
Qed.

Lemma saveConversations_run w :
  conversationStore.saveConversations w
  = (Ok tt, persist "conversations" (JConversations (conversations w)) w).
Proof.
  unfold conversationStore.saveConversations, bind, gets.
  apply saveToLocalStorage_run.
Qed.

Create Rewrite HintDb world.

#[local] Hint Rewrite conversations_set_conversations
  currentConversationId_set_currentConversationId
  persist_conversations persist_currentConversationId persist_tick
  persist_clock persist_entropy persist_isLoading persist_mainIsLoading
  persist_inputText : world.

Local Arguments conversationStore.saveConversations : simpl never.
Local Arguments saveToLocalStorage : simpl never.
Local Arguments loadFromLocalStorage : simpl never.
Local Arguments persist : simpl never.

(** ** Computations that keep a preorder *)

Section Keeps.

Context {W : Type} (R : W -> W -> Prop).
Hypothesis R_refl : forall w, R w w.
Hypothesis R_trans : forall w1 w2 w3, R w1 w2 -> R w2 w3 -> R w1 w3.

Lemma keeps_ret {A} (a : A) : keeps R (ret a).
Proof. intros w. apply R_refl. Qed.

Lemma keeps_throw {A} (e : Error) : keeps R (@throw W A e).
Proof. intros w. apply R_refl. Qed.

Lemma keeps_gets {A} (f : W -> A) : keeps R (gets f).
Proof. intros w. apply R_refl. Qed.

Lemma keeps_modify (f : W -> W) : (forall w, R w (f w)) -> keeps R (modify f).
Proof. intros H w. apply H. Qed.

Lemma keeps_total {A} (f : W -> A * W) :
  (forall w, R w (snd (f w))) -> keeps R (total f).
Proof. intros H w. unfold total. specialize (H w). now destruct (f w). Qed.

Lemma keeps_bind {A B} (c : M W A) (k : A -> M W B) :
  keeps R c -> (forall a, keeps R (k a)) -> keeps R (bind c k).
Proof.
  intros Hc Hk w. unfold bind. specialize (Hc w).
  destruct (c w) as [[a|e] w1]; cbn in *; [|exact Hc].
  eapply R_trans; [exact Hc | apply Hk].
Qed.

Lemma keeps_try_catch {A} (c : M W A) (h : Error -> M W A) :
  keeps R c -> (forall e, keeps R (h e)) -> keeps R (try_catch c h).
Proof.
  intros Hc Hh w. unfold try_catch. specialize (Hc w).
  destruct (c w) as [[a|e] w1]; cbn in *; [exact Hc|].
  eapply R_trans; [exact Hc | apply Hh].
Qed.

Lemma keeps_try_finally {A} (c : M W A) (f : M W unit) :
  keeps R c -> keeps R f -> keeps R (try_finally c f).
Proof.
  intros Hc Hf w. unfold try_finally. specialize (Hc w).
  destruct (c w) as [r w1]. specialize (Hf w1).
  destruct (f w1) as [[[]|e] w2]; cbn in *; eapply R_trans; eauto.
Qed.

Lemma keeps_call_opt {A} (f : option (A -> M W unit)) (x : A) :
  (forall g, f = Some g -> keeps R (g x)) -> keeps R (call_opt f x).
Proof.
  intros H. destruct f as [g|]; cbn; [now apply H | apply keeps_ret].
Qed.

(** *** The API keeps what its callbacks and the interleaved handlers keep *)

Variable getItem : string -> M W (option Text).
Variable Date_now : W -> Z * W.
Variable request : ChatRequest.
Variable onChunk : option (string -> M W unit).
Variable onComplete : option (ChatResponse -> M W unit).
Variable onError : option (Error -> M W unit).

Hypothesis getItem_keeps : forall key, keeps R (getItem key).
Hypothesis Date_now_keeps : forall w, R w (snd (Date_now w)).
Hypothesis onChunk_keeps : forall f data, onChunk = Some f -> keeps R (f data).
Hypothesis onComplete_keeps : forall f r, onComplete = Some f -> keeps R (f r).
Hypothesis onError_keeps : forall f e, onError = Some f -> keeps R (f e).

Lemma complete_keeps (acc : string) :
  keeps R (match onComplete with
           | Some f =>
               let* id := total Date_now in
               let* ts := total Date_now in
               f {| resp_id := id; resp_content := acc;
                    resp_model := req_model request; resp_timestamp := ts |}
           | None => ret tt
           end).
Proof.
  destruct onComplete as [f|] eqn:E; [|apply keeps_ret].
  apply keeps_bind; [now apply keeps_total|]. intros id.
  apply keeps_bind; [now apply keeps_total|]. intros ts.
  now apply onComplete_keeps.
Qed.

Lemma forLines_keeps (lines : list string) :
  forall acc, keeps R (chatAPI.forLines Date_now request onChunk onComplete lines acc).
Proof.
  induction lines as [|line rest IH]; intros acc.
  - apply keeps_ret.
  - rewrite forLines_cons. destruct (payload line) as [data|]; [|apply IH].
    destruct (String.eqb data sentinel).
    + apply keeps_bind; [apply complete_keeps | intros; apply keeps_ret].
    + apply keeps_bind; [|intros; apply IH].
      apply keeps_try_catch; [|intros; apply keeps_ret].
      apply keeps_call_opt. intros g Hg. now apply onChunk_keeps.
Qed.

Lemma readLoop_keeps (rs : list (Read W)) (whileLast : W -> W) (fin : StreamEnd) :
  Forall (fun r => forall w, R w (whileReading r w)) rs ->
  (forall w, R w (whileLast w)) ->
  forall acc,
    keeps R (chatAPI.readLoop Date_now request onChunk onComplete rs whileLast fin acc).
Proof.
  intros Hrs Hlast. induction Hrs as [|r rs Hr Hrs IH]; intros acc; cbn.
  - apply keeps_bind; [now apply keeps_modify|]. intros _.
    destruct fin; [apply keeps_ret | apply keeps_throw].
  - apply keeps_bind; [now apply keeps_modify|]. intros _.
    apply keeps_bind; [apply forLines_keeps|]. intros [a|]; [apply IH | apply keeps_ret].
Qed.

Lemma mockLoop_keeps (chunks : list string) :
  forall acc, keeps R (chatAPI.mockLoop onChunk chunks acc).
Proof.
  induction chunks as [|c rest IH]; intros acc; cbn.
  - apply keeps_ret.
  - apply keeps_bind; [|intros; apply IH].
    apply keeps_call_opt. intros g Hg. now apply onChunk_keeps.
Qed.

Lemma sendMessageMock_keeps :
  keeps R (chatAPI.sendMessageMock Date_now request onChunk onComplete onError).
Proof.
  unfold chatAPI.sendMessageMock. apply keeps_try_catch.
  - apply keeps_bind; [apply mockLoop_keeps|]. intros acc. apply complete_keeps.
  - intros e. apply keeps_call_opt. intros g Hg. now apply onError_keeps.
Qed.

Lemma chatAPI_sendMessage_keeps (net : Exchange W) :
  hooksStep R net ->
  keeps R (chatAPI.sendMessage getItem Date_now request onChunk onComplete onError net).
Proof.
  intros [Hfetch Hbody]. unfold chatAPI.sendMessage. apply keeps_try_catch.
  - apply keeps_bind; [apply getItem_keeps|]. intros token.
    apply keeps_bind; [now apply keeps_modify|]. intros _.
    destruct (response net) as [|ok status body]; [apply keeps_throw|].
    destruct (negb ok); [apply keeps_throw|].
    destruct body as [b|]; [|apply keeps_throw].
    destruct Hbody as [Hreads Hlast]. now apply readLoop_keeps.
  - intros e. pose proof sendMessageMock_keeps as Hmock.
    pose proof onError_keeps as Herr.
    destruct onError as [f|]; [now apply Herr | exact Hmock].
Qed.

End Keeps.

(** ** Lists: [find], [findIndex], [splice], and mutation of the first match *)

Lemma find_update_first {A} (p : A -> bool) (f : A -> A) (l : list A) :
  (forall x, p x = true -> p (f x) = true) ->
  List.find p (update_first p f l) = option_map f (List.find p l).
Proof.
  intros Hp. induction l as [|x l IH]; cbn; [reflexivity|].
  destruct (p x) eqn:E; cbn.
  - now rewrite (Hp x E).
  - now rewrite E.
Qed.

Lemma update_first_not_found {A} (p : A -> bool) (f : A -> A) (l : list A) :
  List.find p l = None -> update_first p f l = l.
Proof.
  induction l as [|x l IH]; cbn; [reflexivity|].
  destruct (p x); [discriminate|]. intros H. now rewrite IH.
Qed.

Lemma update_first_Forall2 {A} (Rel : A -> A -> Prop) (p : A -> bool)
    (f : A -> A) (l : list A) :
  (forall x, Rel x x) -> (forall x, Rel x (f x)) ->
  Forall2 Rel l (update_first p f l).
Proof.
  intros Hrefl Hf. induction l as [|x l IH]; cbn; [constructor|].
  destruct (p x); constructor; auto.
  clear IH. induction l; constructor; auto.
Qed.

Lemma map_update_first {A B} (g : A -> B) (p : A -> bool) (f : A -> A)
    (l : list A) :
  (forall x, g (f x) = g x) -> map g (update_first p f l) = map g l.
Proof.
  intros Hg. induction l as [|x l IH]; cbn; [reflexivity|].
  destruct (p x); cbn; [now rewrite Hg | now rewrite IH].
Qed.

Lemma find_some_In {A} (p : A -> bool) (l : list A) (x : A) :
  List.find p l = Some x -> In x l /\ p x = true.
Proof. apply List.find_some. Qed.

Lemma findIndex_find {A} (p : A -> bool) (l : list A) :
  findIndex p l = None <-> List.find p l = None.
Proof.
  induction l as [|x l IH]; cbn; [tauto|].
  destruct (p x); [split; discriminate|].
  destruct (findIndex p l); split; try discriminate; try tauto.
  intros H. apply IH in H. discriminate.
Qed.

Lemma findIndex_lookup {A} (p : A -> bool) (l : list A) (k : nat) :
  findIndex p l = Some k -> exists x, l !! k = Some x /\ p x = true.
Proof.
  revert k. induction l as [|x l IH]; intros k; cbn; [discriminate|].
  destruct (p x) eqn:E.
  - intros [= <-]. now exists x.
  - destruct (findIndex p l) as [i|]; [|discriminate].
    intros [= <-]. now apply IH.
Qed.



Lemma splice1_In {A} (l : list A) (k : nat) (x : A) :
  In x (splice1 k l) -> In x l.
Proof.
  revert k. induction l as [|y l IH]; intros k; [now destruct k|].
  destruct k as [|k]; cbn; [tauto|]. intros [H|H]; [tauto|]. right. eauto.
Qed.

(** What [splice] at the first match removes: the elements before it do not
    match, and the rest stays. *)
Lemma splice1_findIndex {A} (p : A -> bool) (l : list A) (k : nat) :
  findIndex p l = Some k ->
  exists l1 x l2, l = l1 ++ x :: l2 /\ splice1 k l = l1 ++ l2
                  /\ p x = true /\ length l1 = k
                  /\ Forall (fun y => p y = false) l1.
Proof.
  revert k. induction l as [|y l IH]; intros k; cbn; [discriminate|].
  destruct (p y) eqn:E.
  - intros [= <-]. exists [], y, l. cbn. auto.
  - destruct (findIndex p l) as [i|]; [|discriminate]. intros [= <-].
    destruct (IH i eq_refl) as (l1 & x & l2 & -> & H2 & H3 & H4 & H5).
    exists (y :: l1), x, l2. cbn. rewrite H2. repeat split; auto.
Qed.

(** ** Conversations that grow *)

Lemma grows_refl (c : Conversation.t) : grows c c.
Proof. split; [reflexivity|]. exists []. now rewrite app_nil_r. Qed.

Lemma grows_trans (c1 c2 c3 : Conversation.t) :
  grows c1 c2 -> grows c2 c3 -> grows c1 c3.
Proof.
  intros [H1 [a1 E1]] [H2 [a2 E2]]. split; [congruence|].
  exists (a1 ++ a2). now rewrite E2, E1, app_assoc.
Qed.

Lemma Forall2_grows_refl (l : list Conversation.t) : Forall2 grows l l.
Proof. induction l; constructor; auto using grows_refl. Qed.

Lemma Forall2_grows_trans (l1 l2 l3 : list Conversation.t) :
  Forall2 grows l1 l2 -> Forall2 grows l2 l3 -> Forall2 grows l1 l3.
Proof.
  intros H. revert l3. induction H as [|x y l1 l2 Hxy H IH]; intros l3 H3.
  - inversion H3. constructor.
  - inversion H3 as [|y' z l2' l3' Hyz H3' E1 E2]; subst.
    constructor; eauto using grows_trans.
Qed.

Lemma Forall2_grows_ids (l l' : list Conversation.t) :
  Forall2 grows l l' -> map Conversation.id l' = map Conversation.id l.
Proof.
  induction 1 as [|x y l l' [Hid _] H IH]; cbn; [reflexivity|].
  now rewrite Hid, IH.
Qed.

Lemma inPlace_refl (w : World) : inPlace w w.
Proof. apply Forall2_grows_refl. Qed.

Lemma inPlace_trans (w1 w2 w3 : World) :
  inPlace w1 w2 -> inPlace w2 w3 -> inPlace w1 w3.
Proof. apply Forall2_grows_trans. Qed.

Lemma evolves_refl (w : World) : evolves w w.
Proof. split; [apply inPlace_refl | reflexivity]. Qed.

Lemma evolves_trans (w1 w2 w3 : World) :
  evolves w1 w2 -> evolves w2 w3 -> evolves w1 w3.
Proof.
  intros [H1 E1] [H2 E2]. split; [eapply inPlace_trans; eauto | congruence].
Qed.

(** [evolves] looks at the conversation list and at the current id only. *)
Lemma evolves_same (w w' : World) :
  conversations w' = conversations w ->
  currentConversationId w' = currentConversationId w ->
  evolves w w'.
Proof.
  intros Hc Hi. split; [|exact Hi]. unfold inPlace. rewrite Hc.
  apply Forall2_grows_refl.
Qed.

Lemma evolves_sameListing (w w' : World) : evolves w w' -> sameListing w w'.
Proof. intros [H E]. split; [now apply Forall2_grows_ids | exact E]. Qed.

Lemma sameListing_keepsListed (w w' : World) :
  sameListing w w' -> keepsListed w w'.
Proof. intros [Hc Hi]. unfold keepsListed, currentIsListed. now rewrite Hc, Hi. Qed.

Lemma evolves_keepsListed (w w' : World) : evolves w w' -> keepsListed w w'.
Proof. intros H. now apply sameListing_keepsListed, evolves_sameListing. Qed.

Lemma keepsListed_refl (w : World) : keepsListed w w.
Proof. now intros H. Qed.

Lemma keepsListed_trans (w1 w2 w3 : World) :
  keepsListed w1 w2 -> keepsListed w2 w3 -> keepsListed w1 w3.
Proof. unfold keepsListed. auto. Qed.

(** The mutations of one conversation object that the store makes. *)

Lemma grows_pushMessage (m : Message.t) (now : Z) (c : Conversation.t) :
  grows c (conversationStore.pushMessage m now c).
Proof.
  split; [reflexivity|]. exists [Message.id m].
  unfold messageIds. cbn. now rewrite map_app.
Qed.

Lemma grows_withTitle (t : string) (now : Z) (c : Conversation.t) :
  grows c (conversationStore.withTitle t now c).
Proof. split; [reflexivity|]. exists []. now rewrite app_nil_r. Qed.

Lemma grows_withSettings (s : ConversationSettings) (now : Z) (c : Conversation.t) :
  grows c (conversationStore.withSettings s now c).
Proof. split; [reflexivity|]. exists []. now rewrite app_nil_r. Qed.

Lemma grows_touch (now : Z) (c : Conversation.t) :
  grows c (conversationStore.touch now c).
Proof. split; [reflexivity|]. exists []. now rewrite app_nil_r. Qed.

Lemma grows_mapMessages (q : Message.t -> bool) (g : Message.t -> Message.t)
    (c : Conversation.t) :
  (forall m, Message.id (g m) = Message.id m) ->
  grows c (conversationStore.mapMessages (update_first q g) c).
Proof.
  intros Hg. split; [reflexivity|]. exists []. rewrite app_nil_r.
  unfold messageIds. cbn. now apply map_update_first.
Qed.

(** ** The primitives of the store *)

Lemma getItem_world (key : string) (w : World) : snd (getItem key w) = w.
Proof. unfold getItem. now destruct (accessDenied _). Qed.

(** [loadFromLocalStorage] never throws and leaves the world as it is. *)
Lemma loadFromLocalStorage_run (key : string) (w : World) :
  exists v, loadFromLocalStorage key w = (Ok v, w).
Proof.
  unfold loadFromLocalStorage, try_catch, bind, getItem.
  destruct (accessDenied (localStorage w)); [now eexists|].
  destruct (items (localStorage w) !! key) as [[s|v]|]; cbn.
  - destruct s; cbn; now eexists.
  - now eexists.
  - now eexists.
Qed.

Lemma currentConversationValue_world (w : World) :
  snd (conversationStore.currentConversationValue w) = w.
Proof.
  unfold conversationStore.currentConversationValue.
  now destruct (conversationStore.currentConversation w).
Qed.

Lemma findCurrentConversation_world (w : World) :
  snd (conversationStore.findCurrentConversation w) = w.
Proof.
  unfold conversationStore.findCurrentConversation.
  destruct (conversations w); [reflexivity|].
  now destruct (conversationStore.currentConversation w).
Qed.

Section StoreKeeps.

Variable R : World -> World -> Prop.
Hypothesis R_refl : forall w, R w w.
Hypothesis R_trans : forall w1 w2 w3, R w1 w2 -> R w2 w3 -> R w1 w3.
(** [R] reads the conversation list and the current id only. *)
Hypothesis R_same : forall w w',
  conversations w' = conversations w ->
  currentConversationId w' = currentConversationId w -> R w w'.

Lemma keeps_Date_now : keeps R Date_now.
Proof. apply keeps_total; auto. Qed.

Lemma keeps_generateId : keeps R generateId.
Proof. apply keeps_total; auto. Qed.

Lemma keeps_getItem (key : string) : keeps R (getItem key).
Proof. intros w. rewrite getItem_world. apply R_refl. Qed.

Lemma keeps_saveToLocalStorage (key : string) (v : JSON) :
  keeps R (saveToLocalStorage key v).
Proof.
  intros w. rewrite saveToLocalStorage_run. cbn.
  apply R_same; autorewrite with world; reflexivity.
Qed.

Lemma keeps_saveConversations : keeps R conversationStore.saveConversations.
Proof.
  intros w. rewrite saveConversations_run. cbn.
  apply R_same; autorewrite with world; reflexivity.
Qed.

Lemma keeps_loadFromLocalStorage (key : string) :
  keeps R (loadFromLocalStorage key).
Proof.
  intros w. destruct (loadFromLocalStorage_run key w) as [v E].
  rewrite E. apply R_refl.
Qed.

Lemma keeps_currentConversationValue :
  keeps R conversationStore.currentConversationValue.
Proof. intros w. rewrite currentConversationValue_world. apply R_refl. Qed.

Lemma keeps_findCurrentConversation :
  keeps R conversationStore.findCurrentConversation.
Proof. intros w. rewrite findCurrentConversation_world. apply R_refl. Qed.

Lemma keeps_set_isLoading (b : bool) : keeps R (modify (set_isLoading b)).
Proof. apply keeps_modify. intros w. now apply R_same. Qed.

Lemma keeps_set_mainIsLoading (b : bool) : keeps R (modify (set_mainIsLoading b)).
Proof. apply keeps_modify. intros w. now apply R_same. Qed.

Lemma keeps_set_inputText (s : string) : keeps R (modify (set_inputText s)).
Proof. apply keeps_modify. intros w. now apply R_same. Qed.

End StoreKeeps.

(** Mutating the first conversation that matches, in place. *)
Lemma keeps_update_first (p : Conversation.t -> bool)
    (f : Conversation.t -> Conversation.t) :
  (forall c, grows c (f c)) ->
  keeps evolves
    (modify (fun w => set_conversations (update_first p f (conversations w)) w)).
Proof.
  intros Hf. apply keeps_modify. intros w. split; [|reflexivity].
  unfold inPlace. cbn. apply update_first_Forall2; auto using grows_refl.
Qed.

Ltac keeps_evolves :=
  repeat first
    [ apply (keeps_bind evolves evolves_trans); [|intros ?]
    | apply (keeps_ret evolves evolves_refl)
    | apply (keeps_gets evolves evolves_refl)
    | apply (keeps_Date_now evolves evolves_same)
    | apply (keeps_generateId evolves evolves_same)
    | apply (keeps_saveConversations evolves evolves_same)
    | apply (keeps_saveToLocalStorage evolves evolves_same)
    | apply (keeps_currentConversationValue evolves evolves_refl)
    | apply (keeps_findCurrentConversation evolves evolves_refl)
    | apply (keeps_set_isLoading evolves evolves_same)
    | apply keeps_update_first; intros ?
    | apply grows_pushMessage
    | apply grows_withTitle
    | apply grows_withSettings
    | apply grows_touch
    | apply grows_mapMessages; intros ?; reflexivity
    | match goal with
      | |- keeps _ (match ?x with _ => _ end) => destruct x
      end ].

(** ** The steps that keep every conversation object in place *)

Lemma addMessage_evolves (cid : string) (m : Message.t) :
  keeps evolves (conversationStore.addMessage cid m).
Proof. unfold conversationStore.addMessage. keeps_evolves. Qed.

Lemma updateConversationTitle_evolves (cid title : string) :
  keeps evolves (conversationStore.updateConversationTitle cid title).
Proof. unfold conversationStore.updateConversationTitle. keeps_evolves. Qed.

Lemma updateConversationSettings_evolves (s : ConversationSettings) :
  keeps evolves (conversationStore.updateConversationSettings s).
Proof. unfold conversationStore.updateConversationSettings. keeps_evolves. Qed.

Lemma onChunk_evolves (aiId chunk : string) :
  keeps evolves (conversationStore.onChunk aiId chunk).
Proof. unfold conversationStore.onChunk. keeps_evolves. Qed.

Lemma onComplete_evolves (aiId : string) (r : ChatResponse) :
  keeps evolves (conversationStore.onComplete aiId r).
Proof. unfold conversationStore.onComplete. keeps_evolves. Qed.

Lemma settleWithApology_evolves :
  keeps evolves conversationStore.settleWithApology.
Proof. unfold conversationStore.settleWithApology. keeps_evolves. Qed.

Lemma onError_evolves (e : Error) : keeps evolves (conversationStore.onError e).
Proof. apply settleWithApology_evolves. Qed.

(** ** What the operations do to the list and to the current id *)

Lemma hasId_eq (cid : string) (c : Conversation.t) :
  conversationStore.hasId cid c = true <-> Conversation.id c = cid.
Proof. unfold conversationStore.hasId. apply String.eqb_eq. Qed.


Lemma currentConversation_id (w : World) (c : Conversation.t) :
  conversationStore.currentConversation w = Some c ->
  currentConversationId w = Some (Conversation.id c) /\ In c (conversations w).
Proof.
  unfold conversationStore.currentConversation.
  destruct (currentConversationId w) as [cid|]; [|discriminate].
  intros H. apply List.find_some in H as [Hin Hid].
  apply hasId_eq in Hid. now subst cid.
Qed.

Lemma currentConversation_listed (w : World) (c : Conversation.t) :
  conversationStore.currentConversation w = Some c -> currentIsListed w.
Proof.
  intros H. apply currentConversation_id in H as [Hid Hin].
  unfold currentIsListed. rewrite Hid. now apply in_map.
Qed.

(** [addMessage] on a conversation that exists. *)
Lemma addMessage_found (cid : string) (m : Message.t) (w : World)
    (c : Conversation.t) :
  List.find (conversationStore.hasId cid) (conversations w) = Some c ->
  exists w',
    conversationStore.addMessage cid m w = (Ok tt, w')
    /\ conversations w'
       = update_first (conversationStore.hasId cid)
           (conversationStore.pushMessage m (clock w (tick w))) (conversations w)
    /\ currentConversationId w' = currentConversationId w.
Proof.
  intros H. unfold conversationStore.addMessage, bind, gets. rewrite H.
  unfold Date_now, total, readClock, modify. cbn.
  rewrite saveConversations_run. eexists. split; [reflexivity|].
  autorewrite with world. split; reflexivity.
Qed.

(** [addMessage] on an id that no conversation has: nothing happens. *)
Lemma addMessage_not_found (cid : string) (m : Message.t) (w : World) :
  List.find (conversationStore.hasId cid) (conversations w) = None ->
  conversationStore.addMessage cid m w = (Ok tt, w).
Proof.
  intros H. unfold conversationStore.addMessage, bind, gets. now rewrite H.
Qed.

Lemma createNewConversation_run (settings : option ConversationSettings)
    (w : World) :
  exists c w',
    conversationStore.createNewConversation settings w = (Ok c, w')
    /\ conversations w' = c :: conversations w
    /\ currentConversationId w' = Some (Conversation.id c)
    /\ Conversation.messages c = []
    /\ Conversation.id c = entropy w (tick w).
Proof.
  unfold conversationStore.createNewConversation, bind, generateId, Date_now,
    total, readClock, modify, ret. cbn.
  rewrite saveConversations_run. cbn. eexists _, _. split; [reflexivity|].
  autorewrite with world. cbn. auto.
Qed.

Lemma switchConversation_run (cid : string) (w : World) :
  exists w',
    conversationStore.switchConversation cid w = (Ok tt, w')
    /\ conversations w' = conversations w
    /\ currentConversationId w'
       = match List.find (conversationStore.hasId cid) (conversations w) with
         | Some _ => Some cid
         | None => currentConversationId w
         end.
Proof.
  unfold conversationStore.switchConversation, bind, gets, modify.
  destruct (List.find _ _); cbn.
  - rewrite saveToLocalStorage_run. eexists. split; [reflexivity|].
    autorewrite with world. auto.
  - eexists. split; [reflexivity|]. auto.
Qed.

Lemma deleteConversation_run (cid : string) (w : World) :
  exists w',
    conversationStore.deleteConversation cid w = (Ok tt, w')
    /\ conversations w'
       = match findIndex (conversationStore.hasId cid) (conversations w) with
         | Some k => splice1 k (conversations w)
         | None => conversations w
         end
    /\ currentConversationId w'
       = match findIndex (conversationStore.hasId cid) (conversations w) with
         | Some k =>
             match currentConversationId w with
             | Some cur =>
                 if String.eqb cur cid then
                   match splice1 k (conversations w) with
                   | first :: _ => Some (Conversation.id first)
                   | [] => None
                   end
                 else Some cur
             | None => None
             end
         | None => currentConversationId w
         end.
Proof.
  unfold conversationStore.deleteConversation, bind, gets, modify.
  destruct (findIndex _ _) as [k|]; cbn; [|eexists; split; [reflexivity|auto]].
  destruct (currentConversationId w) as [cur|] eqn:Hcur; cbn.
  - destruct (String.eqb cur cid); cbn.
    + destruct (splice1 k (conversations w)) as [|first rest] eqn:E; cbn;
        rewrite saveConversations_run; eexists; (split; [reflexivity|]);
        autorewrite with world; cbn; auto.
    + rewrite saveConversations_run. eexists. split; [reflexivity|].
      autorewrite with world. cbn. auto.
  - rewrite saveConversations_run. eexists. split; [reflexivity|].
    autorewrite with world. cbn. auto.
Qed.

Lemma loadConversations_run (w : World) :
  exists v w',
    loadFromLocalStorage "conversations" w = (Ok v, w)
    /\ conversationStore.loadConversations w = (Ok tt, w')
    /\ conversations w'
       = match v with JConversations l => l | _ => conversations w end
    /\ currentConversationId w'
       = match v with
         | JConversations (first :: _) =>
             match currentConversationId w with
             | None | Some EmptyString => Some (Conversation.id first)
             | Some cur => Some cur
             end
         | _ => currentConversationId w
         end.
Proof.
  destruct (loadFromLocalStorage_run "conversations" w) as [v E].
  exists v. unfold conversationStore.loadConversations, bind. rewrite E.
  destruct v as [| s | l |]; try (eexists; repeat split; reflexivity).
  unfold modify, gets. cbn.
  destruct l as [|first rest]; cbn.
  - destruct (currentConversationId w) as [[|]|] eqn:Hcur; cbn;
      eexists; repeat split; try reflexivity; cbn; now rewrite Hcur.
  - destruct (currentConversationId w) as [[|a s]|] eqn:Hcur; cbn;
      eexists; repeat split; try reflexivity; cbn; now rewrite ?Hcur.
Qed.

Lemma clearAllConversations_run (w : World) :
  exists w',
    conversationStore.clearAllConversations w = (Ok tt, w')
    /\ conversations w' = [] /\ currentConversationId w' = None.
Proof.
  unfold conversationStore.clearAllConversations, bind, modify. cbn.
  rewrite saveConversations_run. eexists. split; [reflexivity|].
  autorewrite with world. auto.
Qed.

Lemma clearCurrentConversation_run (w : World) :
  exists w',
    conversationStore.clearCurrentConversation w = (Ok tt, w')
    /\ conversations w' = conversations w /\ currentConversationId w' = None.
Proof.
  unfold conversationStore.clearCurrentConversation, bind, modify. cbn.
  rewrite saveToLocalStorage_run. eexists. split; [reflexivity|].
  autorewrite with world. auto.
Qed.

(** ** The current conversation is a listed one *)

Lemma keeps_result_irrelevant {A} (R : World -> World -> Prop) (c : M World A) :
  keeps R c -> keeps R (c ;; ret tt).
Proof.
  intros H w. unfold bind, ret. specialize (H w). now destruct (c w) as [[a|e] w'].
Qed.

Lemma createNewConversation_listed (settings : option ConversationSettings)
    (w : World) :
  currentIsListed (worldAfter (conversationStore.createNewConversation settings) w).
Proof.
  destruct (createNewConversation_run settings w) as (c & w' & E & Hc & Hi & _).
  unfold worldAfter. rewrite E. cbn. unfold currentIsListed.
  rewrite Hi, Hc. cbn. now left.
Qed.

Lemma switchConversation_listed (cid : string) (w : World) :
  currentIsListed w ->
  currentIsListed (worldAfter (conversationStore.switchConversation cid) w).
Proof.
  intros H. destruct (switchConversation_run cid w) as (w' & E & Hc & Hi).
  unfold worldAfter. rewrite E. cbn. unfold currentIsListed in *.
  rewrite Hi, Hc.
  destruct (List.find _ _) as [c|] eqn:F; [|exact H].
  apply List.find_some in F as [Hin Hid]. apply hasId_eq in Hid. subst cid.
  now apply in_map.
Qed.

Lemma deleteConversation_listed (cid : string) (w : World) :
  currentIsListed w ->
  currentIsListed (worldAfter (conversationStore.deleteConversation cid) w).
Proof.
  intros H. destruct (deleteConversation_run cid w) as (w' & E & Hc & Hi).
  unfold worldAfter. rewrite E. cbn. unfold currentIsListed in *.
  rewrite Hi, Hc.
  destruct (findIndex _ _) as [k|] eqn:F; [|exact H].
  destruct (currentConversationId w) as [cur|]; [|exact I].
  destruct (String.eqb cur cid) eqn:Heq.
  - destruct (splice1 k (conversations w)) as [|first rest]; [exact I|].
    cbn. now left.
  - apply splice1_findIndex in F
      as (l1 & x & l2 & Hl & Hs & Hx & _ & _).
    rewrite Hs. rewrite Hl in H. rewrite map_app in *. cbn in H.
    apply in_app_or in H. apply in_or_app.
    destruct H as [H|[H|H]]; auto.
    apply hasId_eq in Hx. rewrite Hx in H. subst cur.
    now rewrite String.eqb_refl in Heq.
Qed.

(** Deleting the current conversation: the current id becomes the id of the
    first conversation that remains, or null when none remains. *)
Lemma deleteConversation_current (cid : string) (w : World) :
  currentConversationId w = Some cid ->
  List.find (conversationStore.hasId cid) (conversations w) <> None ->
  let w' := worldAfter (conversationStore.deleteConversation cid) w in
  currentConversationId w'
  = match conversations w' with
    | first :: _ => Some (Conversation.id first)
    | [] => None
    end.
Proof.
  intros Hcur Hfound. cbv zeta.
  destruct (deleteConversation_run cid w) as (w' & E & Hc & Hi).
  unfold worldAfter. rewrite E. cbn. rewrite Hi, Hc, Hcur.
  destruct (findIndex _ _) as [k|] eqn:F.
  - now rewrite String.eqb_refl.
  - apply findIndex_find in F. contradiction.
Qed.

Lemma clearAllConversations_listed (w : World) :
  currentIsListed (worldAfter conversationStore.clearAllConversations w).
Proof.
  destruct (clearAllConversations_run w) as (w' & E & Hc & Hi).
  unfold worldAfter. rewrite E. cbn. unfold currentIsListed. now rewrite Hi.
Qed.

Lemma clearCurrentConversation_listed (w : World) :
  currentIsListed (worldAfter conversationStore.clearCurrentConversation w).
Proof.
  destruct (clearCurrentConversation_run w) as (w' & E & Hc & Hi).
  unfold worldAfter. rewrite E. cbn. unfold currentIsListed. now rewrite Hi.
Qed.

Lemma loadConversations_listed (w : World) :
  currentIsListed w -> loadKeepsCurrent w ->
  currentIsListed (worldAfter conversationStore.loadConversations w).
Proof.
  intros H Hside.
  destruct (loadConversations_run w) as (v & w' & Ev & E & Hc & Hi).
  unfold loadKeepsCurrent, outcome in Hside. rewrite Ev in Hside. cbn in Hside.
  unfold worldAfter. rewrite E. cbn. unfold currentIsListed in *.
  rewrite Hi, Hc.
  destruct v as [| s | l |]; try exact H.
  destruct l as [|first rest].
  - destruct (currentConversationId w) as [cur|]; [|exact I].
    destruct Hside as [[]|[_ Hne]]. now elim Hne.
  - destruct (currentConversationId w) as [[|a s]|]; cbn; auto.
    destruct Hside as [Hin|[Heq _]]; [exact Hin | discriminate].
Qed.

Lemma keeps_weaken {W A} (R R' : W -> W -> Prop) (c : M W A) :
  (forall w w', R w w' -> R' w w') -> keeps R c -> keeps R' c.
Proof. intros H Hc w. apply H, Hc. Qed.

Lemma sendMessage_messages_evolves (content : string) :
  keeps evolves (conversationStore.sendMessage_messages content).
Proof. unfold conversationStore.sendMessage_messages. keeps_evolves. Qed.

(** [sendMessage] up to its request: a conversation is created when none is
    current, and from then on every conversation object stays in place. *)
Lemma sendMessage_begin_cases (content : string) (w : World) :
  match conversationStore.currentConversation w with
  | Some _ =>
      conversationStore.sendMessage_begin content w
      = conversationStore.sendMessage_messages content w
  | None =>
      conversationStore.sendMessage_begin content w
      = conversationStore.sendMessage_messages content
          (worldAfter (conversationStore.createNewConversation None) w)
  end.
Proof.
  unfold worldAfter, conversationStore.sendMessage_begin, bind, gets, ret.
  destruct (conversationStore.currentConversation w) as [cur|] eqn:Hcur.
  - reflexivity.
  - destruct (createNewConversation_run None w) as (c & w' & E' & _).
    rewrite E'. reflexivity.
Qed.

Lemma sendMessage_begin_listed (content : string) :
  keeps keepsListed (conversationStore.sendMessage_begin content).
Proof.
  intros w. pose proof (sendMessage_begin_cases content w) as H.
  destruct (conversationStore.currentConversation w); rewrite H.
  - apply evolves_keepsListed, sendMessage_messages_evolves.
  - intros _.
    apply (evolves_keepsListed _ _ (sendMessage_messages_evolves content _)),
      createNewConversation_listed.
Qed.

(** *** [sendMessage] is made of its pieces

    A preorder that the pieces of [sendMessage] keep, that the reading of the
    clock keeps, and that the handlers running while the request is pending
    keep, is kept by the whole of [sendMessage]. *)

Lemma sendMessage_by_pieces (R : World -> World -> Prop) (content : string)
    (net : Exchange World) :
  (forall w, R w w) ->
  (forall w1 w2 w3, R w1 w2 -> R w2 w3 -> R w1 w3) ->
  (forall a, isSendPiece content a -> keeps R (perform a)) ->
  (forall w, R w (snd (readClock w))) ->
  hooksStep R net ->
  keeps R (conversationStore.sendMessage content net).
Proof.
  intros Hrefl Htrans Hpieces Hclock Hhooks.
  unfold conversationStore.sendMessage.
  apply keeps_bind; auto; [exact (Hpieces SendLoading I)|]. intros _.
  apply keeps_try_finally; auto; [|exact (Hpieces SendFinally I)].
  apply keeps_try_catch; auto; [|intros e; exact (Hpieces SendCatch I)].
  apply keeps_bind; auto.
  - intros w. specialize (Hpieces (SendBegin content) eq_refl w).
    cbn in Hpieces. unfold bind, ret in Hpieces.
    now destruct (conversationStore.sendMessage_begin content w) as [[a|e] w'].
  - intros [request aiMessage].
    apply chatAPI_sendMessage_keeps; auto.
    + intros key w. rewrite getItem_world. apply Hrefl.
    + intros f data [= <-]. exact (Hpieces (StreamChunk _ data) I).
    + intros f r [= <-]. exact (Hpieces (StreamComplete _ r) I).
    + intros f e [= <-]. exact (Hpieces (StreamError e) I).
Qed.

(** Every step but [loadConversations] keeps the invariant. *)
Lemma step_listed (a : Action) (w : World) :
  a <> LoadConversations -> currentIsListed w -> currentIsListed (step a w).
Proof.
  intros Ha H. unfold step.
  destruct a; cbn [perform]; try congruence.
  - now apply (evolves_keepsListed _ _
      (keeps_saveConversations evolves evolves_same w)).
  - pose proof (createNewConversation_listed settings w) as H'.
    unfold worldAfter, bind, ret in *.
    now destruct (conversationStore.createNewConversation settings w) as [[c|e] w'].
  - now apply switchConversation_listed.
  - now apply deleteConversation_listed.
  - now apply (evolves_keepsListed _ _ (updateConversationTitle_evolves _ _ w)).
  - now apply (evolves_keepsListed _ _ (updateConversationSettings_evolves _ w)).
  - now apply (evolves_keepsListed _ _ (addMessage_evolves _ _ w)).
  - apply clearAllConversations_listed.
  - apply clearCurrentConversation_listed.
  - now apply (evolves_keepsListed _ _
      (keeps_set_isLoading evolves evolves_same true w)).
  - apply (keeps_result_irrelevant keepsListed _
             (sendMessage_begin_listed content) w H).
  - now apply (evolves_keepsListed _ _ (onChunk_evolves _ _ w)).
  - now apply (evolves_keepsListed _ _ (onComplete_evolves _ _ w)).
  - now apply (evolves_keepsListed _ _ (onError_evolves error w)).
  - now apply (evolves_keepsListed _ _ (settleWithApology_evolves w)).
  - now apply (evolves_keepsListed _ _
      (keeps_set_isLoading evolves evolves_same false w)).
Qed.

Lemma sendMessage_listed (content : string) (net : Exchange World) :
  hooksStep keepsListed net ->
  keeps keepsListed (conversationStore.sendMessage content net).
Proof.
  intros Hhooks. apply sendMessage_by_pieces; auto.
  - apply keepsListed_refl.
  - apply keepsListed_trans.
  - intros a Ha w H. apply step_listed; [|exact H].
    intros ->. exact Ha.
  - intros w. now apply evolves_keepsListed, evolves_same.
Qed.

(** C9 (as amended).  In every state where the current id is null or the id
    of a listed conversation, every step of the store other than
    [loadConversations] leaves it so — the exported operations
    createNewConversation, switchConversation, deleteConversation, addMessage,
    clearAllConversations, clearCurrentConversation among them — and so does
    a whole [sendMessage], provided the handlers that run while its request
    is pending do.  [loadConversations] leaves it so when what it loads is
    not a list, when no conversation is current, or when the loaded list has
    the current id.  Deleting the current conversation makes the first
    remaining conversation current, or none when none remains. *)
Theorem C9_current_conversation_is_listed (w : World) :
  currentIsListed w ->
  (forall a, a <> LoadConversations -> currentIsListed (step a w))
  /\ (forall content net,
        hooksStep keepsListed net ->
        currentIsListed (worldAfter (conversationStore.sendMessage content net) w))
  /\ (loadKeepsCurrent w -> currentIsListed (step LoadConversations w))
  /\ (forall cid,
        currentConversationId w = Some cid ->
        List.find (conversationStore.hasId cid) (conversations w) <> None ->
        currentConversationId (step (DeleteConversation cid) w)
        = match conversations (step (DeleteConversation cid) w) with
          | first :: _ => Some (Conversation.id first)
          | [] => None
          end).
Proof.
  intros H. repeat split.
  - intros a Ha. now apply step_listed.
  - intros content net Hhooks. now apply (sendMessage_listed content net Hhooks w).
  - intros Hside. now apply loadConversations_listed.
  - intros cid Hcur Hfound. now apply deleteConversation_current.
Qed.

Lemma C9_witness :
  let w := steps [LoadConversations; CreateNewConversation None] (newStore emptyStorage) in
  currentIsListed w
  /\ currentIsListed (step (DeleteConversation "a") w)
  /\ currentIsListed
       (worldAfter (conversationStore.sendMessage "hello"
                      (streamOf [line "data: hi"; line "data: [DONE]"] EndOfStream)) w).
Proof.
  cbv zeta.
  assert (H : currentIsListed
                (steps [LoadConversations; CreateNewConversation None]
                       (newStore emptyStorage))).
  { vm_compute. now left. }
  destruct (C9_current_conversation_is_listed _ H) as (Hstep & Hsend & _).
  split; [exact H|]. split.
  - apply Hstep. discriminate.
  - apply Hsend. split; [|split].
    + now intros w0 H0.
    + repeat constructor; now intros w0 H0.
    + now intros w0 H0.
Defined.

(** C9 (as stated) fails.  The store starts on a storage that holds one
    conversation and accepts no more writes; a conversation is created (the
    failed write is swallowed by [saveToLocalStorage]) and is current; then
    [loadConversations] replaces the list by the stored one and leaves the
    current id, which no listed conversation has. *)
Lemma C9_counterexample :
  let w := steps [LoadConversations; CreateNewConversation None] (newStore fullStorage) in
  currentIsListed w
  /\ currentConversationId (step LoadConversations w) = Some "a"
  /\ map Conversation.id (conversations (step LoadConversations w)) = ["stored"]
  /\ ~ currentIsListed (step LoadConversations w).
Proof.
  cbv zeta. split; [|split; [|split]].
  - vm_compute. now left.
  - vm_compute. reflexivity.
  - vm_compute. reflexivity.
  - vm_compute. intros [H|[]]. discriminate.
Qed.

(** ** Messages are appended, and never move *)





Lemma steps_cons (a : Action) (rest : list Action) (w : World) :
  steps (a :: rest) w = steps rest (step a w).
Proof. reflexivity. Qed.


(** *** The whole of [sendMessage] *)












(** ** A send begins *)

Lemma currentConversation_set_tick (n : nat) (w : World) :
  conversationStore.currentConversation (set_tick n w)
  = conversationStore.currentConversation w.
Proof. reflexivity. Qed.

Lemma currentConversationValue_run (w : World) (cur : Conversation.t) :
  conversationStore.currentConversation w = Some cur ->
  conversationStore.currentConversationValue w = (Ok cur, w).
Proof. intros H. unfold conversationStore.currentConversationValue. now rewrite H. Qed.

Lemma currentConversation_find (w : World) (cur : Conversation.t) :
  conversationStore.currentConversation w = Some cur ->
  List.find (conversationStore.hasId (Conversation.id cur)) (conversations w)
  = Some cur.
Proof.
  intros H. pose proof (currentConversation_id w cur H) as [Hid _].
  unfold conversationStore.currentConversation in H. now rewrite Hid in H.
Qed.

Lemma update_first_found {A} (p : A -> bool) (f : A -> A) (l : list A) (x : A) :
  List.find p l = Some x -> update_first p f l = update_first p (fun _ => f x) l.
Proof.
  induction l as [|y l IH]; cbn; [discriminate|].
  destruct (p y); [now intros [= ->] | intros H; now rewrite IH].
Qed.

Lemma update_first_twice {A} (p : A -> bool) (f g : A -> A) (l : list A) :
  (forall x, p x = true -> p (f x) = true) ->
  update_first p g (update_first p f l) = update_first p (fun x => g (f x)) l.
Proof.
  intros Hp. induction l as [|y l IH]; cbn; [reflexivity|].
  destruct (p y) eqn:E; cbn; [now rewrite (Hp y E) | now rewrite E, IH].
Qed.

(** [addMessage] on the current conversation. *)
Lemma addMessage_current (m : Message.t) (w : World) (cur : Conversation.t) :
  conversationStore.currentConversation w = Some cur ->
  exists w',
    conversationStore.addMessage (Conversation.id cur) m w = (Ok tt, w')
    /\ conversationStore.currentConversation w'
       = Some (conversationStore.pushMessage m (clock w (tick w)) cur)
    /\ conversations w'
       = update_first (conversationStore.hasId (Conversation.id cur))
           (conversationStore.pushMessage m (clock w (tick w))) (conversations w)
    /\ currentConversationId w' = currentConversationId w.
Proof.
  intros H. pose proof (currentConversation_find w cur H) as Hfind.
  destruct (addMessage_found _ m w cur Hfind) as (w' & E & Hc & Hi).
  exists w'. repeat split; auto.
  pose proof (currentConversation_id w cur H) as [Hid _].
  unfold conversationStore.currentConversation. rewrite Hi, Hid, Hc.
  rewrite find_update_first by (intros x Hx; exact Hx).
  now rewrite Hfind.
Qed.




(** ** The send guard of the page *)

Lemma handleSendMessage_ignored (content : string) (net : Exchange World)
    (w : World) :
  mainIsLoading w = true ->
  MainContent.handleSendMessage content net w = (Ok tt, w).
Proof.
  intros H. unfold MainContent.handleSendMessage, bind, gets. rewrite H.
  now rewrite orb_true_r.
Qed.

Lemma handleSendMessage_runs (content : string) (net : Exchange World)
    (w : World) :
  mainIsLoading w = false -> trim content <> "" ->
  MainContent.handleSendMessage content net w
  = match conversationStore.sendMessage content net (set_mainIsLoading true w) with
    | (Ok _, w1) => (Ok tt, set_mainIsLoading false (set_inputText "" w1))
    | (Throw _, w1) => (Ok tt, set_mainIsLoading false w1)
    end.
Proof.
  intros H Hne. unfold MainContent.handleSendMessage.
  unfold bind at 1. unfold gets at 1. rewrite H.
  destruct (trim content) eqn:Ht; [contradiction|]. cbn [truthy negb orb].
  unfold bind at 1. unfold modify at 1.
  unfold try_finally, try_catch. unfold bind at 1.
  destruct (conversationStore.sendMessage content net (set_mainIsLoading true w))
    as [[[]|e] w1]; reflexivity.
Qed.

(** C2 (as amended).  While a send made through MainContent is in flight its
    [isLoading] flag is set, and a second submission is ignored:
    [handleSendMessage] returns at once, without an error and without any
    effect, and [canSend] of ChatInput is false.  When a send returns,
    however it ended, the flag is cleared; and with the flag cleared a
    submission of a text that is not blank is passed to the [sendMessage] of
    the store. *)
Theorem C2_second_submission_ignored_then_retried
    (content : string) (net : Exchange World) (w : World) :
  (mainIsLoading w = true ->
     MainContent.handleSendMessage content net w = (Ok tt, w)
     /\ ChatInput_handleSend content net w = (Ok tt, w)
     /\ ChatInput.canSend content (mainIsLoading w) = false)
  /\ (mainIsLoading w = false ->
      mainIsLoading (worldAfter (MainContent.handleSendMessage content net) w) = false)
  /\ (mainIsLoading w = false -> trim content <> "" ->
      MainContent.handleSendMessage content net w
      = match conversationStore.sendMessage content net (set_mainIsLoading true w) with
        | (Ok _, w1) => (Ok tt, set_mainIsLoading false (set_inputText "" w1))
        | (Throw _, w1) => (Ok tt, set_mainIsLoading false w1)
        end).
Proof.
  split; [|split].
  - intros H. split; [now apply handleSendMessage_ignored|].
    unfold ChatInput_handleSend, ChatInput.canSend, bind, gets. rewrite H.
    now rewrite andb_false_r.
  - intros H. unfold worldAfter.
    destruct (string_dec (trim content) "") as [Hb|Hb].
    + unfold MainContent.handleSendMessage, bind, gets. rewrite Hb, H. cbn. exact H.
    + rewrite handleSendMessage_runs by assumption.
      now destruct (conversationStore.sendMessage _ _ _) as [[[]|e] w1].
  - apply handleSendMessage_runs.
Qed.

Lemma C2_witness :
  MainContent.handleSendMessage "second" (streamOf [] EndOfStream) pendingWorld
  = (Ok tt, pendingWorld)
  /\ mainIsLoading
       (worldAfter (MainContent.handleSendMessage "first"
                      (streamOf [line "data: [DONE]"] EndOfStream))
                   (newStore emptyStorage)) = false.
Proof.
  split.
  - apply (C2_second_submission_ignored_then_retried
             "second" (streamOf [] EndOfStream) pendingWorld).
    reflexivity.
  - apply (C2_second_submission_ignored_then_retried
             "first" (streamOf [line "data: [DONE]"] EndOfStream)
             (newStore emptyStorage)).
    reflexivity.
Defined.

(** C2 (as stated) fails.  A first send is waiting for its response; a second
    submission on the same conversation returns normally, not with an error,
    and leaves the world as it is: nothing reports the refusal. *)
Lemma C2_counterexample :
  mainIsLoading pendingWorld = true
  /\ (exists conv, conversationStore.currentConversation pendingWorld = Some conv
                   /\ existsb conversationStore.isStreamingAssistant
                              (Conversation.messages conv) = true)
  /\ outcome (MainContent.handleSendMessage "second" (streamOf [] EndOfStream))
             pendingWorld = Ok tt
  /\ worldAfter (MainContent.handleSendMessage "second" (streamOf [] EndOfStream))
                pendingWorld = pendingWorld
  /\ ~ exists e,
         outcome (MainContent.handleSendMessage "second" (streamOf [] EndOfStream))
                 pendingWorld = Throw e.
Proof.
  assert (E : MainContent.handleSendMessage "second" (streamOf [] EndOfStream)
                pendingWorld = (Ok tt, pendingWorld))
    by now apply handleSendMessage_ignored.
  unfold outcome, worldAfter. rewrite E. cbn [fst snd].
  split; [reflexivity|]. split.
  - eexists. split; vm_compute; reflexivity.
  - repeat split. intros [e He]. discriminate.
Qed.

(** ** The calls of a whole send *)

Section WholeSend.

Context {W : Type}.
Variable getItem : string -> M W (option Text).
Variable Date_now : W -> Z * W.
Variable request : ChatRequest.
Variable onChunk : string -> M W unit.
Variable onComplete : ChatResponse -> M W unit.
Variable onError : Error -> M W unit.

(** The calls of a send are fragments forwarded, then the calls that end it:
    no fragment is forwarded after [onComplete] or [onError]. *)
Lemma callsOfSend_shape (net : Exchange W) (w : W) :
  exists forwarded terminals,
    callsOfSend getItem Date_now request onChunk onComplete onError net w
    = map CallChunk forwarded ++ terminals
    /\ terminalShape terminals.
Proof.
  unfold callsOfSend, chatAPI.sendMessage, try_catch.
  unfold bind at 1. unfold lifted at 1. cbn [fst snd].
  destruct (getItem "auth_token" w) as [[token|e] w1].
  2:{ unfold recorded. cbn [fst snd].
      destruct (onError e w1) as [r w2]. cbn.
      exists [], [CallError e]. split; [reflexivity|].
      right. right. left. now exists e. }
  unfold bind at 1. unfold await, modify, liftedExchange. cbn [whileFetching response].
  unfold liftedHook at 1. cbn [fst snd].
  destruct (response net) as [|ok status body]; cbn [liftedResponse].
  { unfold throw, recorded. cbn [fst snd].
    destruct (onError NetworkError _) as [r w2]. cbn.
    exists [], [CallError NetworkError]. split; [reflexivity|].
    right. right. left. now eexists. }
  destruct ok; cbn [negb].
  2:{ unfold throw, recorded. cbn [fst snd].
      destruct (onError _ _) as [r w2]. cbn.
      exists [], [CallError (HttpError status)]. split; [reflexivity|].
      right. right. left. now eexists. }
  destruct body as [b|]; cbn [option_map].
  2:{ unfold throw, recorded. cbn [fst snd].
      destruct (onError _ _) as [r w2]. cbn.
      exists [], [CallError NoReaderError]. split; [reflexivity|].
      right. right. left. now eexists. }
  unfold chatAPI.consumeStream, liftedBody. cbn [reads whileLastRead ending].
  destruct (readLoop_calls Date_now request onChunk onComplete (reads b)
              (whileLastRead b) (ending b) EmptyString (whileFetching net w1) [])
    as (out & w' & E & Hout).
  cbv zeta in E. rewrite E. cbn [app].
  exists (beforeSentinel (payloadsOf (reads b))).
  destruct out as [[]|e].
  - eexists. split; [reflexivity|].
    destruct (hasSentinel _); [right; left; now eexists | now left].
  - unfold recorded. cbn [fst snd]. destruct (onError e w') as [r w2]. cbn [snd].
    rewrite <- app_assoc. eexists. split; [reflexivity|].
    destruct (hasSentinel _); cbn.
    + right. right. right. now eexists _, _.
    + right. right. left. now eexists.
Qed.

End WholeSend.

(** C7 (the code against the claim).  A send on a new store; the stream
    delivers one fragment and then ends without the sentinel.  The fragment
    is forwarded and no call ends the send — neither [onComplete] nor
    [onError] — so [sendMessage] returns normally with the assistant message
    still streaming and its content empty. *)
Theorem C7_stream_end_without_sentinel :
  let w := newStore emptyStorage in
  let w' := worldAfter (conversationStore.sendMessage "hello" cutStream) w in
  callsOfStoreSend "hello" cutStream w = [CallChunk "partial answer"]
  /\ outcome (conversationStore.sendMessage "hello" cutStream) w = Ok tt
  /\ isLoading w' = false
  /\ messageState "g" w' = Some ("", Some true, Some "partial answer").
Proof. vm_compute. repeat split; reflexivity. Qed.

(** C6 (the code against the claim).  Two sends that fail after the
    assistant message was created, and leave it streaming with empty
    content.  In the first the user opens a new conversation while the
    request is pending: the error handler looks for a streaming assistant
    message in the conversation that is current when it runs, and finds
    none.  In the second nothing else happens, but an earlier assistant
    message of the same conversation was left streaming (by a stream that
    ended without the sentinel): the handler settles that one, the first
    streaming assistant message it finds, and not the message of the send
    that failed. *)
Theorem C6_failed_send_left_streaming :
  let w := newStore emptyStorage in
  let w1 := worldAfter (conversationStore.sendMessage "hello"
                          newConversationThenFailure) w in
  let w2 := worldAfter (conversationStore.sendMessage "hello" cutStream) w in
  let w3 := worldAfter (conversationStore.sendMessage "again" failure) w2 in
  (callsOfStoreSend "hello" newConversationThenFailure w = [CallError NetworkError]
   /\ outcome (conversationStore.sendMessage "hello" newConversationThenFailure) w
      = Ok tt
   /\ messageState "g" w1 = Some ("", Some true, Some ""))
  /\ (callsOfStoreSend "again" failure w2 = [CallError NetworkError]
      /\ messageState "g" w3 = Some (conversationStore.apology, Some false, None)
      /\ messageState "m" w3 = Some ("", Some true, Some "")).
Proof. vm_compute. repeat split; reflexivity. Qed.

(** ** Settlement *)

Lemma update_first_cases {A} (p : A -> bool) (f : A -> A) (l : list A) :
  Forall2 (fun x y => y = x \/ (p x = true /\ y = f x)) l (update_first p f l).
Proof.
  induction l as [|x l IH]; cbn; [constructor|].
  destruct (p x) eqn:E; constructor; auto.
  clear. induction l; constructor; auto.
Qed.

Lemma onComplete_settleFirst (aiId : string) (r : ChatResponse) :
  conversationStore.onComplete aiId r
  = settleFirst (conversationStore.msgHasId aiId)
                (conversationStore.settled (resp_content r)).
Proof. reflexivity. Qed.

Lemma settleWithApology_settleFirst :
  conversationStore.settleWithApology
  = settleFirst conversationStore.isStreamingAssistant
                (conversationStore.settled conversationStore.apology).
Proof. reflexivity. Qed.

Section SettleFirst.

Variable p : Message.t -> bool.
Variable f : Message.t -> Message.t.

Lemma findCurrentConversation_run (w : World) (conv : Conversation.t) :
  conversationStore.currentConversation w = Some conv ->
  conversationStore.findCurrentConversation w = (Ok (Some conv), w).
Proof.
  intros Hcur. pose proof (currentConversation_find w conv Hcur) as Hfind.
  unfold conversationStore.findCurrentConversation. rewrite Hcur, Hfind.
  destruct (conversations w); [discriminate | reflexivity].
Qed.

(** A settlement attempt throws when no conversation is current and the list
    has a conversation to test, before it has changed anything; on an empty
    list it does nothing. *)
Lemma settleFirst_null (w : World) :
  conversationStore.currentConversation w = None ->
  settleFirst p f w
  = (match conversations w with [] => Ok tt | _ :: _ => Throw TypeError end, w).
Proof.
  intros H. unfold settleFirst, bind, conversationStore.findCurrentConversation.
  rewrite H. now destruct (conversations w).
Qed.

(** It does nothing when the current conversation has no message to settle. *)
Lemma settleFirst_nothing (w : World) (conv : Conversation.t) :
  conversationStore.currentConversation w = Some conv ->
  List.find p (Conversation.messages conv) = None ->
  settleFirst p f w = (Ok tt, w).
Proof.
  intros Hcur Hm. unfold settleFirst.
  unfold bind at 1. rewrite (findCurrentConversation_run w conv Hcur).
  now rewrite Hm.
Qed.

(** It settles the first message selected, and saves. *)
Lemma settleFirst_run (w : World) (conv : Conversation.t) (m : Message.t) :
  conversationStore.currentConversation w = Some conv ->
  List.find p (Conversation.messages conv) = Some m ->
  exists w' conv',
    settleFirst p f w = (Ok tt, w')
    /\ conversationStore.currentConversation w' = Some conv'
    /\ Conversation.id conv' = Conversation.id conv
    /\ Conversation.messages conv' = update_first p f (Conversation.messages conv)
    /\ (storageWritable w ->
        persistedConversations w' = Some (Encoded (JConversations (conversations w')))).
Proof.
  intros Hcur Hm. pose proof (currentConversation_find w conv Hcur) as Hfind.
  pose proof (currentConversation_id w conv Hcur) as [Hid _].
  unfold settleFirst.
  unfold bind at 1. rewrite (findCurrentConversation_run w conv Hcur). rewrite Hm.
  unfold bind at 1. unfold modify at 1.
  unfold bind at 1. unfold Date_now at 1, total at 1, readClock at 1. cbn [fst snd].
  unfold bind at 1. unfold modify at 1.
  rewrite saveConversations_run.
  set (convs' := update_first _ (conversationStore.touch _) _).
  set (w1 := set_conversations convs' _).
  assert (Hconvs : conversations w1 = convs') by reflexivity.
  assert (Hfind' : List.find (conversationStore.hasId (Conversation.id conv)) convs'
                   = Some (conversationStore.touch (clock w (tick w))
                             (conversationStore.mapMessages (update_first p f) conv))).
  { unfold convs'. cbn [conversations set_conversations set_tick].
    rewrite update_first_twice by (intros x Hx; exact Hx).
    rewrite find_update_first by (intros x Hx; exact Hx).
    now rewrite Hfind. }
  eexists _, _. split; [reflexivity|]. split; [|split; [|split]].
  - unfold conversationStore.currentConversation.
    rewrite persist_currentConversationId, persist_conversations.
    change (currentConversationId w1) with (currentConversationId w).
    rewrite Hid, Hconvs. exact Hfind'.
  - reflexivity.
  - reflexivity.
  - intros [Ha Hq]. unfold persistedConversations.
    rewrite persist_conversations. now apply persist_lookup.
Qed.

(** A settlement attempt that throws has changed nothing. *)
Lemma settleFirst_throw (w : World) (e : Error) :
  outcome (settleFirst p f) w = Throw e -> worldAfter (settleFirst p f) w = w.
Proof.
  unfold outcome, worldAfter.
  destruct (conversationStore.currentConversation w) as [conv|] eqn:Hcur.
  - destruct (List.find p (Conversation.messages conv)) as [m|] eqn:Hm.
    + destruct (settleFirst_run w conv m Hcur Hm) as (w' & conv' & E & _).
      rewrite E. discriminate.
    + rewrite (settleFirst_nothing w conv Hcur Hm). discriminate.
  - rewrite (settleFirst_null w Hcur). reflexivity.
Qed.

End SettleFirst.

Lemma find_both_update_first {A} (p q : A -> bool) (f : A -> A) (l : list A)
    (m : A) :
  (forall x, p (f x) = p x) ->
  List.find p l = Some m -> List.find q l = Some m ->
  List.find p (update_first q f l) = Some (f m).
Proof.
  intros Hp. induction l as [|x l IH]; cbn; [discriminate|].
  destruct (q x) eqn:Hq; destruct (p x) eqn:Hpx; cbn.
  - intros [= <-] _. now rewrite Hp, Hpx.
  - intros H [= <-]. apply List.find_some in H as [_ H]. congruence.
  - intros [= <-] H. apply List.find_some in H as [_ H]. congruence.
  - rewrite Hpx. exact IH.
Qed.

(** X26.  Settlement through the callbacks of the store.  Take a state where
    the current conversation holds the message of the send.  [onComplete]
    leaves that message with [isStreaming = false] and the content of the
    response, and saves the list; [onError] does so with the error marker
    when the message is the first streaming assistant message of the
    conversation.  The error path (the [onError] callback or the [catch]
    block) rewrites no message that is not a streaming assistant message,
    and is a no-op when the conversation has none: it never rewrites a
    settled message.  An attempt that throws has changed nothing.  And the
    reader ends a send with at most one [onComplete], never after
    [onError]. *)
Theorem settlement_through_the_callbacks
    (aiId : string) (w : World) (conv : Conversation.t) (m : Message.t) :
  conversationStore.currentConversation w = Some conv ->
  messageOf aiId conv = Some m ->
  (forall r, exists w' conv',
      conversationStore.onComplete aiId r w = (Ok tt, w')
      /\ conversationStore.currentConversation w' = Some conv'
      /\ messageOf aiId conv' = Some (conversationStore.settled (resp_content r) m)
      /\ (storageWritable w ->
          persistedConversations w'
          = Some (Encoded (JConversations (conversations w')))))
  /\ (List.find conversationStore.isStreamingAssistant (Conversation.messages conv)
      = Some m ->
      forall e, exists w' conv',
        conversationStore.onError e w = (Ok tt, w')
        /\ conversationStore.currentConversation w' = Some conv'
        /\ messageOf aiId conv'
           = Some (conversationStore.settled conversationStore.apology m)
        /\ (storageWritable w ->
            persistedConversations w'
            = Some (Encoded (JConversations (conversations w')))))
  /\ (List.find conversationStore.isStreamingAssistant (Conversation.messages conv)
      = None ->
      conversationStore.settleWithApology w = (Ok tt, w)
      /\ forall e, conversationStore.onError e w = (Ok tt, w))
  /\ (forall e, exists conv',
        conversationStore.currentConversation
          (worldAfter (conversationStore.onError e) w) = Some conv'
        /\ Forall2 (fun x y =>
                      y = x
                      \/ (conversationStore.isStreamingAssistant x = true
                          /\ y = conversationStore.settled conversationStore.apology x))
                   (Conversation.messages conv) (Conversation.messages conv'))
  /\ (forall w0 r e,
        (outcome (conversationStore.onComplete aiId r) w0 = Throw e ->
         worldAfter (conversationStore.onComplete aiId r) w0 = w0)
        /\ (outcome conversationStore.settleWithApology w0 = Throw e ->
            worldAfter conversationStore.settleWithApology w0 = w0))
  /\ (forall net request w0, exists forwarded terminals,
        callsOfSend getItem readClock request (conversationStore.onChunk aiId)
          (conversationStore.onComplete aiId) conversationStore.onError net w0
        = map CallChunk forwarded ++ terminals
        /\ terminalShape terminals).
Proof.
  intros Hcur Hm. split; [|split; [|split; [|split; [|split]]]].
  - intros r. rewrite onComplete_settleFirst.
    destruct (settleFirst_run (conversationStore.msgHasId aiId)
                (conversationStore.settled (resp_content r)) w conv m Hcur Hm)
      as (w' & conv' & E & Hcur' & _ & Hmsgs & Hp).
    exists w', conv'. repeat split; auto.
    unfold messageOf in *. rewrite Hmsgs.
    rewrite find_update_first by (intros x Hx; exact Hx). now rewrite Hm.
  - intros Hs e. unfold conversationStore.onError.
    rewrite settleWithApology_settleFirst.
    destruct (settleFirst_run conversationStore.isStreamingAssistant
                (conversationStore.settled conversationStore.apology) w conv m Hcur Hs)
      as (w' & conv' & E & Hcur' & _ & Hmsgs & Hp).
    exists w', conv'. repeat split; auto.
    unfold messageOf in *. rewrite Hmsgs.
    now apply find_both_update_first.
  - intros Hs. unfold conversationStore.onError.
    rewrite settleWithApology_settleFirst.
    split; [|intros e]; now apply (settleFirst_nothing _ _ w conv).
  - intros e. unfold conversationStore.onError, worldAfter.
    rewrite settleWithApology_settleFirst.
    destruct (List.find conversationStore.isStreamingAssistant
                (Conversation.messages conv)) as [m'|] eqn:Hs.
    + destruct (settleFirst_run conversationStore.isStreamingAssistant
                  (conversationStore.settled conversationStore.apology)
                  w conv m' Hcur Hs)
        as (w' & conv' & E & Hcur' & _ & Hmsgs & _).
      rewrite E. exists conv'. split; [exact Hcur'|]. rewrite Hmsgs.
      apply update_first_cases.
    + rewrite (settleFirst_nothing _ _ w conv Hcur Hs). exists conv.
      split; [exact Hcur|].
      generalize (Conversation.messages conv). intros l.
      induction l; constructor; auto.
  - intros w0 r e. split.
    + rewrite onComplete_settleFirst. apply settleFirst_throw.
    + rewrite settleWithApology_settleFirst. apply settleFirst_throw.
  - intros net request w0. apply callsOfSend_shape.
Qed.

Lemma settlement_through_the_callbacks_witness :
  exists w' conv',
    conversationStore.onComplete "g" lateResponse streamingWorld = (Ok tt, w')
    /\ conversationStore.currentConversation w' = Some conv'
    /\ option_map Message.content (messageOf "g" conv') = Some "late answer"
    /\ option_map Message.isStreaming (messageOf "g" conv') = Some (Some false).
Proof.
  assert (Hcur : exists conv m,
             conversationStore.currentConversation streamingWorld = Some conv
             /\ messageOf "g" conv = Some m).
  { eexists _, _. split; vm_compute; reflexivity. }
  destruct Hcur as (conv & m & Hcur & Hm).
  destruct (settlement_through_the_callbacks "g" streamingWorld conv m Hcur Hm)
    as (H & _).
  destruct (H lateResponse) as (w' & conv' & E & Hcur' & Hm' & _).
  exists w', conv'. rewrite Hm'.
  split; [exact E|]. split; [exact Hcur'|]. split; reflexivity.
Defined.

(** C3 (the code against the claim).  A send on a new store; the user
    opens a new conversation while the request is pending; then the answer
    comes, complete.  The reader forwards the fragment and makes the call
    that settles the send, [onComplete], with the whole answer — and the
    callbacks look for the message in the conversation that is current when
    they run, find none, and change nothing.  The send returns normally, and
    the assistant message of the send is left as it was created, in memory
    and in what is persisted: streaming, with empty content.  The first
    settlement of the send has settled nothing, and the answer is lost. *)
Theorem C3_answer_lost_after_new_conversation :
  let w := newStore emptyStorage in
  let w' := worldAfter (conversationStore.sendMessage "hello"
                          newConversationThenAnswer) w in
  callsOfStoreSend "hello" newConversationThenAnswer w
  = [CallChunk "late answer"; CallComplete "late answer"]
  /\ outcome (conversationStore.sendMessage "hello" newConversationThenAnswer) w
     = Ok tt
  /\ isLoading w' = false
  /\ messageState "g" w' = Some ("", Some true, Some "")
  /\ persistedConversations w' = Some (Encoded (JConversations (conversations w'))).
Proof. vm_compute. repeat split; reflexivity. Qed.

(** ** The readers of the local storage *)

Lemma getConversations_run (w : World) :
  storage.getConversations w
  = (Ok (match storedValue STORAGE_KEYS.CONVERSATIONS w with
         | Some v => v
         | None => JConversations []
         end), w).
Proof.
  unfold storage.getConversations, storedValue, try_catch, bind, getItem.
  destruct (accessDenied (localStorage w)); [reflexivity|].
  destruct (items (localStorage w) !! STORAGE_KEYS.CONVERSATIONS) as [[s|v]|];
    cbn; try reflexivity.
  now destruct s.
Qed.

Lemma loadFromLocalStorage_value (key : string) (w : World) :
  loadFromLocalStorage key w
  = (Ok (match storedValue key w with Some v => v | None => JNull end), w).
Proof.
  unfold loadFromLocalStorage, storedValue, try_catch, bind, getItem.
  destruct (accessDenied (localStorage w)); [reflexivity|].
  destruct (items (localStorage w) !! key) as [[s|v]|]; cbn; try reflexivity.
  now destruct s.
Qed.

(** C10 (as amended).  In every state of the storage — a missing key, an
    empty text, a text that is not JSON, a refused access — the two readers
    return normally and leave the world as it is.  When nothing usable is
    stored, [storage.getConversations] returns the empty list and
    [loadFromLocalStorage] returns null.  Otherwise each returns the value
    that the stored text encodes, as [JSON.parse] gives it: for
    [getConversations] that is a list exactly when the text encodes an
    array. *)
Theorem C10_storage_readers_total (key : string) (w : World) :
  (exists v, storage.getConversations w = (Ok v, w)
             /\ (storedValue STORAGE_KEYS.CONVERSATIONS w = None ->
                 v = JConversations [])
             /\ (forall stored,
                   storedValue STORAGE_KEYS.CONVERSATIONS w = Some stored ->
                   v = stored)
             /\ (Array_isArray v = true <->
                 storedValue STORAGE_KEYS.CONVERSATIONS w = None
                 \/ exists l, storedValue STORAGE_KEYS.CONVERSATIONS w
                              = Some (JConversations l)))
  /\ (exists v, loadFromLocalStorage key w = (Ok v, w)
                /\ (storedValue key w = None -> v = JNull)
                /\ (forall stored, storedValue key w = Some stored -> v = stored)).
Proof.
  split.
  - eexists. split; [apply getConversations_run|].
    destruct (storedValue STORAGE_KEYS.CONVERSATIONS w) as [stored|].
    + split; [discriminate|]. split; [now intros s [= <-]|].
      split.
      * destruct stored; try discriminate. intros _. right. now eexists.
      * intros [H|[l [= ->]]]; [discriminate | reflexivity].
    + split; [reflexivity|]. split; [discriminate|]. split; auto.
  - eexists. split; [apply loadFromLocalStorage_value|].
    destruct (storedValue key w) as [stored|].
    + split; [discriminate | now intros s [= <-]].
    + split; [reflexivity | discriminate].
Qed.

Lemma C10_witness :
  storage.getConversations (newStore fullStorage)
  = (Ok (JConversations []), newStore fullStorage)
  /\ loadFromLocalStorage "conversations" (newStore fullStorage)
     = (Ok (JConversations [storedConversation]), newStore fullStorage).
Proof.
  destruct (C10_storage_readers_total "conversations" (newStore fullStorage))
    as ((v1 & E1 & Hnone & _) & (v2 & E2 & _ & Hsome)).
  split.
  - rewrite E1. now rewrite (Hnone eq_refl).
  - rewrite E2. now rewrite (Hsome (JConversations [storedConversation]) eq_refl).
Defined.

(** C10 (as stated) fails.  The conversation slot holds the text [null],
    which is JSON: [storage.getConversations] returns null, not a list. *)
Lemma C10_counterexample :
  storage.getConversations (newStore nullStorage) = (Ok JNull, newStore nullStorage)
  /\ Array_isArray JNull = false
  /\ ~ exists l, outcome storage.getConversations (newStore nullStorage)
                 = Ok (JConversations l).
Proof.
  assert (E : storage.getConversations (newStore nullStorage)
              = (Ok JNull, newStore nullStorage)).
  { rewrite getConversations_run. reflexivity. }
  split; [exact E|]. split; [reflexivity|].
  unfold outcome. rewrite E. intros [l H]. discriminate.
Qed.

(** ** Code units *)

(** The first unit of a string that is not empty begins with its first
    byte. *)
Lemma units_head (c : ascii) (rest : string) :
  exists k more, units (String c rest) = String c k :: more.
Proof.
  cbn [units]. destruct (units rest) as [|[|d k] more]; try (eexists _, _; reflexivity).
  destruct (is_continuation d); eexists _, _; reflexivity.
Qed.

Lemma units_cons_lead (c : ascii) (rest : string) :
  leads rest -> units (String c rest) = String c "" :: units rest.
Proof.
  destruct rest as [|d r]; [reflexivity|]. cbn [leads]. intros Hd.
  destruct (units_head d r) as (k & more & E).
  cbn [units] in *. rewrite E, Hd. reflexivity.
Qed.

Lemma units_app (a b : string) :
  leads b -> units (a ++ b) = units a ++ units b.
Proof.
  intros Hb. induction a as [|c a IH]; [reflexivity|].
  destruct a as [|d a'].
  - cbn [String.append]. now rewrite units_cons_lead.
  - change (String c (String d a') ++ b)%string with (String c (String d a' ++ b)).
    cbn [units] in *. rewrite IH.
    destruct (units_head d a') as (k & more & E). cbn [units] in E. rewrite E.
    cbn [app]. now destruct (is_continuation d).
Qed.

Lemma joined_cons (u : string) (l : list string) :
  joined (u :: l) = (u ++ joined l)%string.
Proof. reflexivity. Qed.

(** Splitting a string into its units loses nothing. *)
Lemma joined_units (s : string) : joined (units s) = s.
Proof.
  induction s as [|c s IH]; [reflexivity|]. cbn [units].
  destruct (units s) as [|[|d k] more].
  - cbn in IH. now subst s.
  - rewrite joined_cons. cbn [String.append]. now rewrite IH.
  - destruct (is_continuation d); rewrite joined_cons; cbn [String.append];
      rewrite <- IH; reflexivity.
Qed.

Lemma units_unit (c : ascii) (k : string) :
  continues k = true -> units (String c k) = [String c k].
Proof.
  revert c. induction k as [|d k IH]; intros c; [reflexivity|].
  cbn [continues]. intros H. apply andb_true_iff in H as [Hd Hk].
  cbn [units] in *. rewrite (IH d Hk), Hd. reflexivity.
Qed.

Lemma segmented_units (s : string) : segmented (units s).
Proof.
  induction s as [|c s [IH1 IH2]]; [split; constructor|]. cbn [units].
  destruct (units s) as [|[|d k] more] eqn:E.
  - split; repeat constructor.
  - apply Forall_cons in IH1 as [H _]. discriminate.
  - apply Forall_cons in IH1 as [Hu Hmore]. cbn [tl] in IH2.
    destruct (is_continuation d) eqn:Hd.
    + split; [constructor; [|exact Hmore] | exact IH2].
      cbn [isUnit continues] in *. now rewrite Hd, Hu.
    + split; [constructor; [reflexivity | now constructor]|].
      cbn [tl]. constructor; [|exact IH2]. cbn [startsUnit]. now rewrite Hd.
Qed.

Lemma segmented_app (a b : list string) :
  segmented (a ++ b) -> segmented a /\ segmented b.
Proof.
  intros [H1 H2]. apply Forall_app in H1 as [Ha Hb].
  destruct a as [|u a]; [split; [split; constructor | split; assumption]|].
  cbn [app tl] in H2. apply Forall_app in H2 as [Ha' Hb'].
  split; [split; assumption|]. split; [exact Hb|].
  destruct b; [constructor | now apply Forall_cons in Hb' as [_ ?]].
Qed.

Lemma leads_joined (l : list string) :
  Forall (fun u => startsUnit u = true) l -> leads (joined l).
Proof.
  destruct 1 as [|[|c k] l H _]; [exact I | discriminate |].
  rewrite joined_cons. cbn [String.append leads startsUnit] in *.
  now apply negb_true_iff.
Qed.

(** A run of units is the units of its concatenation. *)
Lemma units_joined (l : list string) : segmented l -> units (joined l) = l.
Proof.
  induction l as [|u l IH]; [reflexivity|]. intros [H1 H2].
  apply Forall_cons in H1 as [Hu Hl]. cbn [tl] in H2.
  rewrite joined_cons, units_app by now apply leads_joined.
  rewrite IH.
  - destruct u as [|c k]; [discriminate|]. now rewrite units_unit.
  - split; [exact Hl|]. destruct l; [constructor | now apply Forall_cons in H2 as [_ ?]].
Qed.

Lemma units_slice_to (n : nat) (s : string) :
  units (slice_to n s) = firstn n (units s).
Proof.
  unfold slice_to. apply units_joined.
  apply (segmented_app (firstn n (units s)) (skipn n (units s))).
  rewrite firstn_skipn. apply segmented_units.
Qed.

(** ** Titles *)

Lemma length_slice_to (n : nat) (s : string) :
  js_length (slice_to n s) = Nat.min n (js_length s).
Proof. unfold js_length. rewrite units_slice_to. apply length_take. Qed.

Lemma slice_to_all (n : nat) (s : string) :
  (js_length s <= n)%nat -> slice_to n s = s.
Proof.
  unfold js_length, slice_to. intros H.
  rewrite firstn_all2 by exact H. apply joined_units.
Qed.

Lemma units_ellipsis (n : nat) (s : string) :
  units (slice_to n s ++ "...") = firstn n (units s) ++ ["."; "."; "."].
Proof. rewrite units_app by reflexivity. now rewrite units_slice_to. Qed.

Lemma slice_to_ellipsis (n : nat) (s : string) :
  (n <= js_length s)%nat -> slice_to n (slice_to n s ++ "...") = slice_to n s.
Proof.
  unfold js_length. intros H. unfold slice_to at 1. rewrite units_ellipsis.
  rewrite take_app_le by (rewrite length_take; lia).
  rewrite take_take, Nat.min_id. reflexivity.
Qed.

Lemma length_ellipsis (n : nat) (s : string) :
  (n <= js_length s)%nat -> js_length (slice_to n s ++ "...") = (n + 3)%nat.
Proof.
  unfold js_length. intros H. rewrite units_ellipsis, length_app, length_take.
  cbn [length]. lia.
Qed.

(** A text cut at [n] code units, with an ellipsis when something was cut:
    the shape of the titles that [generateConversationTitle] and [addMessage]
    build. *)
Lemma cut_facts (n : nat) (s : string) :
  let cut := (slice_to n s ++ (if (n <? js_length s)%nat then "..." else ""))%string in
  (js_length cut <= n + 3)%nat
  /\ slice_to n cut = slice_to n s
  /\ ((js_length s <= n)%nat -> cut = s)
  /\ (slice_to n cut ++ (if (n <? js_length cut)%nat then "..." else ""))%string
     = cut.
Proof.
  cbv zeta. destruct (n <? js_length s)%nat eqn:E.
  - apply Nat.ltb_lt in E.
    assert (Hlen : js_length (slice_to n s ++ "...") = (n + 3)%nat).
    { apply length_ellipsis. lia. }
    assert (Hpre : slice_to n (slice_to n s ++ "...") = slice_to n s).
    { apply slice_to_ellipsis. lia. }
    split; [lia|]. split; [exact Hpre|]. split; [lia|].
    rewrite Hpre, Hlen.
    replace (n <? n + 3)%nat with true by (symmetry; apply Nat.ltb_lt; lia).
    reflexivity.
  - apply Nat.ltb_ge in E. rewrite append_empty_r.
    rewrite (slice_to_all n s E). split; [lia|].
    split; [now rewrite (slice_to_all n s E)|]. split; [reflexivity|].
    rewrite (slice_to_all n s E).
    replace (n <? js_length s)%nat with false by (symmetry; apply Nat.ltb_ge; lia).
    apply append_empty_r.
Qed.

Lemma generateConversationTitle_cut (s : string) :
  generateConversationTitle s
  = (slice_to 20 s ++ (if (20 <? js_length s)%nat then "..." else ""))%string.
Proof.
  unfold generateConversationTitle.
  destruct (js_length s <=? 20)%nat eqn:E.
  - apply Nat.leb_le in E.
    replace (20 <? js_length s)%nat with false by (symmetry; apply Nat.ltb_ge; lia).
    now rewrite append_empty_r, slice_to_all.
  - apply Nat.leb_gt in E.
    now replace (20 <? js_length s)%nat with true by (symmetry; apply Nat.ltb_lt; lia).
Qed.

(** X1.  Lengths are counted in UTF-16 code units, as JavaScript counts them.
    A generated title has at most 23 units and starts as the message does;
    a message of at most 20 units is its own title; and the title of a title
    is that title. *)
Theorem generateConversationTitle_bounded_idempotent (firstMessage : string) :
  (js_length (generateConversationTitle firstMessage) <= 23)%nat
  /\ slice_to 20 (generateConversationTitle firstMessage) = slice_to 20 firstMessage
  /\ ((js_length firstMessage <= 20)%nat ->
      generateConversationTitle firstMessage = firstMessage)
  /\ generateConversationTitle (generateConversationTitle firstMessage)
     = generateConversationTitle firstMessage.
Proof.
  rewrite (generateConversationTitle_cut (generateConversationTitle firstMessage)).
  rewrite generateConversationTitle_cut.
  exact (cut_facts 20 firstMessage).
Qed.

Lemma titleOf_facts (content : string) :
  (js_length (conversationStore.titleOf content) <= 33)%nat
  /\ slice_to 30 (conversationStore.titleOf content) = slice_to 30 content
  /\ ((js_length content <= 30)%nat ->
      conversationStore.titleOf content = content).
Proof.
  pose proof (cut_facts 30 content) as H. cbv zeta in H.
  unfold conversationStore.titleOf. tauto.
Qed.

(** ** The slots of localStorage that the store writes *)

Lemma sameElsewhere_refl (w : World) : sameElsewhere w w.
Proof. repeat split. Qed.

Lemma sameElsewhere_trans (w1 w2 w3 : World) :
  sameElsewhere w1 w2 -> sameElsewhere w2 w3 -> sameElsewhere w1 w3.
Proof.
  intros (Ha & Hq & Hk) (Ha' & Hq' & Hk'). repeat split; try congruence.
  intros key H1 H2. rewrite Hk', Hk by assumption. reflexivity.
Qed.

Lemma sameElsewhere_storage (w w' : World) :
  localStorage w' = localStorage w -> sameElsewhere w w'.
Proof. intros H. unfold sameElsewhere. rewrite H. repeat split. Qed.

Lemma sameElsewhere_persist (key : string) (v : JSON) (w : World) :
  key = "conversations" \/ key = "currentConversationId" ->
  sameElsewhere w (persist key v w).
Proof.
  intros Hkey. unfold persist.
  destruct (accessDenied (localStorage w) || quotaExceeded (localStorage w));
    [apply sameElsewhere_refl|].
  repeat split. intros k H1 H2. cbn.
  apply lookup_insert_ne. destruct Hkey; congruence.
Qed.

Lemma keeps_unchanged {W A} (R : W -> W -> Prop) (c : M W A) :
  (forall w, R w w) -> (forall w, snd (c w) = w) -> keeps R c.
Proof. intros Hrefl H w. rewrite H. apply Hrefl. Qed.

Lemma loadFromLocalStorage_world (key : string) (w : World) :
  snd (loadFromLocalStorage key w) = w.
Proof. destruct (loadFromLocalStorage_run key w) as [v E]. now rewrite E. Qed.

Ltac keeps_elsewhere :=
  repeat first
    [ apply (keeps_bind sameElsewhere sameElsewhere_trans); [|intros ?]
    | apply (keeps_ret sameElsewhere sameElsewhere_refl)
    | apply (keeps_gets sameElsewhere sameElsewhere_refl)
    | apply (keeps_unchanged sameElsewhere _ sameElsewhere_refl);
      first [ exact currentConversationValue_world
            | exact findCurrentConversation_world
            | apply loadFromLocalStorage_world
            | apply getItem_world ]
    | apply keeps_total; intros ?; apply sameElsewhere_storage; reflexivity
    | apply keeps_modify; intros ?; apply sameElsewhere_storage; reflexivity
    | intros ?; rewrite saveConversations_run; apply sameElsewhere_persist;
      auto
    | intros ?; rewrite saveToLocalStorage_run; apply sameElsewhere_persist;
      auto
    | match goal with
      | |- keeps _ (match ?x with _ => _ end) => destruct x
      | |- keeps _ (if ?x then _ else _) => destruct x
      end ].

Lemma perform_elsewhere (a : Action) : keeps sameElsewhere (perform a).
Proof.
  destruct a; cbn [perform];
    unfold conversationStore.loadConversations,
      conversationStore.createNewConversation,
      conversationStore.switchConversation,
      conversationStore.deleteConversation,
      conversationStore.updateConversationTitle,
      conversationStore.updateConversationSettings,
      conversationStore.addMessage,
      conversationStore.clearAllConversations,
      conversationStore.clearCurrentConversation,
      conversationStore.sendMessage_begin,
      conversationStore.sendMessage_messages,
      conversationStore.addMessage,
      conversationStore.createNewConversation,
      conversationStore.onChunk, conversationStore.onComplete,
      conversationStore.onError, conversationStore.settleWithApology,
      Date_now, generateId;
    keeps_elsewhere.
Qed.

Lemma steps_elsewhere (actions : list Action) (w : World) :
  sameElsewhere w (steps actions w).
Proof.
  revert w. induction actions as [|a rest IH]; intros w.
  - apply sameElsewhere_refl.
  - rewrite steps_cons. eapply sameElsewhere_trans; [|apply IH].
    apply perform_elsewhere.
Qed.

Lemma sendMessage_elsewhere (content : string) (net : Exchange World) :
  hooksStep sameElsewhere net ->
  keeps sameElsewhere (conversationStore.sendMessage content net).
Proof.
  intros Hhooks. apply sendMessage_by_pieces; auto.
  - apply sameElsewhere_refl.
  - apply sameElsewhere_trans.
  - intros a _. apply perform_elsewhere.
  - intros w. now apply sameElsewhere_storage.
Qed.

(** What a reader finds under a key that the store does not write depends on
    the storage elsewhere only. *)
Lemma getItem_elsewhere (key : string) (w w' : World) :
  sameElsewhere w w' ->
  key <> "conversations" -> key <> "currentConversationId" ->
  outcome (getItem key) w' = outcome (getItem key) w.
Proof.
  intros (Ha & _ & Hk) H1 H2. unfold outcome, getItem. rewrite Ha.
  destruct (accessDenied (localStorage w)); cbn; [reflexivity|].
  now rewrite Hk.
Qed.

(** X2.  The store writes two slots of localStorage, "conversations" and
    "currentConversationId", and nothing else: whatever steps it takes, every
    other slot holds what it held, and the browser's refusals are what they
    were.  In particular the helper [storage.getConversations], which reads
    the slot "llm_conversations", returns after the steps what it returned
    before them: it never sees the conversations that the store saves.  The
    same holds for a whole [sendMessage] when the handlers that run while its
    request is pending leave the other slots alone. *)
Theorem store_writes_only_its_slots (actions : list Action) (w : World) :
  sameElsewhere w (steps actions w)
  /\ outcome storage.getConversations (steps actions w)
     = outcome storage.getConversations w
  /\ outcome (getItem "auth_token") (steps actions w)
     = outcome (getItem "auth_token") w
  /\ forall content net,
       hooksStep sameElsewhere net ->
       sameElsewhere w (worldAfter (conversationStore.sendMessage content net) w).
Proof.
  pose proof (steps_elsewhere actions w) as H.
  split; [exact H|]. split; [|split].
  - pose proof (getItem_elsewhere STORAGE_KEYS.CONVERSATIONS w _ H) as Hget.
    unfold outcome, storage.getConversations, try_catch, bind in *.
    destruct (getItem STORAGE_KEYS.CONVERSATIONS (steps actions w))
      as [r' w1'] eqn:E'.
    destruct (getItem STORAGE_KEYS.CONVERSATIONS w) as [r w1] eqn:E.
    cbn [fst] in Hget. rewrite Hget by discriminate.
    pose proof (getItem_world STORAGE_KEYS.CONVERSATIONS w) as Hw.
    pose proof (getItem_world STORAGE_KEYS.CONVERSATIONS (steps actions w)) as Hw'.
    rewrite E in Hw. rewrite E' in Hw'. cbn [snd] in Hw, Hw'. subst w1 w1'.
    destruct r as [[text|]|e]; cbn; try reflexivity.
    destruct (text_truthy text); [|reflexivity].
    destruct text; reflexivity.
  - apply getItem_elsewhere; [exact H | discriminate | discriminate].
  - intros content net Hhooks. apply sendMessage_elsewhere, Hhooks.
Qed.

(** ** The persisted list follows the list in memory *)

Lemma savesChanges_refl (w : World) : savesChanges w w.
Proof. repeat split. left. split; reflexivity. Qed.

Lemma savesChanges_trans (w1 w2 w3 : World) :
  savesChanges w1 w2 -> savesChanges w2 w3 -> savesChanges w1 w3.
Proof.
  intros (Ha & Hq & H) (Ha' & Hq' & H'). split; [congruence|]. split; [congruence|].
  destruct H' as [[Hc' Hp']|H'].
  - destruct H as [[Hc Hp]|H].
    + left. split; congruence.
    + right. intros Hw. specialize (H Hw). unfold inSync in *. congruence.
  - right. intros [Hw1 Hw2]. apply H'. split; congruence.
Qed.

Lemma savesChanges_same (w w' : World) :
  conversations w' = conversations w -> localStorage w' = localStorage w ->
  savesChanges w w'.
Proof.
  intros Hc Hl. unfold savesChanges, persistedConversations. rewrite Hl.
  repeat split. left. split; [exact Hc | reflexivity].
Qed.

Lemma savesChanges_save (w w1 : World) :
  localStorage w1 = localStorage w ->
  savesChanges w (persist "conversations" (JConversations (conversations w1)) w1).
Proof.
  intros Hl. pose proof (persist_flags "conversations"
                           (JConversations (conversations w1)) w1) as [Ha Hq].
  split; [congruence|]. split; [congruence|]. right. intros [Hw1 Hw2].
  unfold inSync, persistedConversations. rewrite persist_conversations.
  apply persist_lookup; congruence.
Qed.

Lemma savesChanges_current (v : JSON) (w w1 : World) :
  conversations w1 = conversations w -> localStorage w1 = localStorage w ->
  savesChanges w (persist "currentConversationId" v w1).
Proof.
  intros Hc Hl. pose proof (persist_flags "currentConversationId" v w1) as [Ha Hq].
  split; [congruence|]. split; [congruence|]. left.
  rewrite persist_conversations. split; [exact Hc|].
  unfold persistedConversations, persist.
  destruct (_ || _); [now rewrite Hl|]. cbn.
  rewrite lookup_insert_ne by discriminate. now rewrite Hl.
Qed.

Ltac run_store :=
  unfold bind, gets, modify, ret, Date_now, generateId, total, readClock,
    conversationStore.currentConversationValue,
    conversationStore.findCurrentConversation;
  cbn [fst snd];
  repeat (first
            [ progress (rewrite ?saveConversations_run, ?saveToLocalStorage_run)
            | match goal with
              | |- context [match ?x with _ => _ end] =>
                  lazymatch x with
                  | context [match _ with _ => _ end] => fail
                  | _ => destruct x eqn:?
                  end
              end ]; cbn [fst snd]).

Ltac saves_changes :=
  intros ?; run_store;
  first [ apply savesChanges_save; reflexivity
        | apply savesChanges_current; reflexivity
        | apply savesChanges_same; reflexivity ].

Lemma saveConversations_saves : keeps savesChanges conversationStore.saveConversations.
Proof. saves_changes. Qed.

Lemma addMessage_saves (cid : string) (m : Message.t) :
  keeps savesChanges (conversationStore.addMessage cid m).
Proof. unfold conversationStore.addMessage. saves_changes. Qed.

Lemma createNewConversation_saves (settings : option ConversationSettings) :
  keeps savesChanges (conversationStore.createNewConversation settings).
Proof. unfold conversationStore.createNewConversation. saves_changes. Qed.

Lemma switchConversation_saves (cid : string) :
  keeps savesChanges (conversationStore.switchConversation cid).
Proof. unfold conversationStore.switchConversation. saves_changes. Qed.

Lemma deleteConversation_saves (cid : string) :
  keeps savesChanges (conversationStore.deleteConversation cid).
Proof. unfold conversationStore.deleteConversation. saves_changes. Qed.

Lemma updateConversationTitle_saves (cid title : string) :
  keeps savesChanges (conversationStore.updateConversationTitle cid title).
Proof. unfold conversationStore.updateConversationTitle. saves_changes. Qed.

Lemma updateConversationSettings_saves (settings : ConversationSettings) :
  keeps savesChanges (conversationStore.updateConversationSettings settings).
Proof. unfold conversationStore.updateConversationSettings. saves_changes. Qed.

Lemma clearAllConversations_saves :
  keeps savesChanges conversationStore.clearAllConversations.
Proof. unfold conversationStore.clearAllConversations. saves_changes. Qed.

Lemma clearCurrentConversation_saves :
  keeps savesChanges conversationStore.clearCurrentConversation.
Proof. unfold conversationStore.clearCurrentConversation. saves_changes. Qed.

Lemma settleFirst_saves (p : Message.t -> bool) (f : Message.t -> Message.t) :
  keeps savesChanges (settleFirst p f).
Proof. unfold settleFirst. saves_changes. Qed.

Lemma deleteEmptyConversations_saves :
  keeps savesChanges conversationStore.deleteEmptyConversations.
Proof. unfold conversationStore.deleteEmptyConversations. saves_changes. Qed.

Lemma loadFromLocalStorage_stored (key : string) (w : World) :
  loadFromLocalStorage key w
  = (Ok (match storedValue key w with Some v => v | None => JNull end), w).
Proof.
  unfold loadFromLocalStorage, storedValue, try_catch, bind, getItem.
  destruct (accessDenied (localStorage w)); [reflexivity|].
  destruct (items (localStorage w) !! key) as [[s|v]|]; cbn; try reflexivity.
  now destruct s.
Qed.

Lemma loadConversations_saves :
  keeps savesChanges conversationStore.loadConversations.
Proof.
  intros w. unfold conversationStore.loadConversations.
  unfold bind at 1. rewrite loadFromLocalStorage_stored.
  destruct (storedValue "conversations" w) as [v|] eqn:Hv;
    [|apply savesChanges_refl].
  destruct v as [| s | l |]; try apply savesChanges_refl.
  assert (Hl : persistedConversations w = Some (Encoded (JConversations l))).
  { unfold storedValue in Hv. unfold persistedConversations.
    destruct (accessDenied (localStorage w)); [discriminate|].
    destruct (items (localStorage w) !! "conversations") as [[?|?]|];
      congruence. }
  run_store; (split; [reflexivity|]; split; [reflexivity|]; right; intros _;
              exact Hl).
Qed.

Lemma perform_saves (a : Action) :
  isChunkStep a = false -> keeps savesChanges (perform a).
Proof.
  intros Ha. destruct a; cbn [perform]; try discriminate.
  - apply loadConversations_saves.
  - apply saveConversations_saves.
  - apply (keeps_bind savesChanges savesChanges_trans);
      [apply createNewConversation_saves
      |intros; apply (keeps_ret savesChanges savesChanges_refl)].
  - apply switchConversation_saves.
  - apply deleteConversation_saves.
  - apply updateConversationTitle_saves.
  - apply updateConversationSettings_saves.
  - apply addMessage_saves.
  - apply clearAllConversations_saves.
  - apply clearCurrentConversation_saves.
  - intros w. now apply savesChanges_same.
  - unfold conversationStore.sendMessage_begin,
      conversationStore.sendMessage_messages.
    repeat first
      [ apply createNewConversation_saves
      | apply addMessage_saves
      | apply (keeps_bind savesChanges savesChanges_trans); [|intros ?]
      | apply (keeps_ret savesChanges savesChanges_refl)
      | apply (keeps_gets savesChanges savesChanges_refl)
      | apply (keeps_unchanged savesChanges _ savesChanges_refl);
        exact currentConversationValue_world
      | apply keeps_total; intros ?; apply savesChanges_same; reflexivity
      | match goal with
        | |- keeps _ (match ?x with _ => _ end) => destruct x
        end ].
  - rewrite onComplete_settleFirst. apply settleFirst_saves.
  - unfold conversationStore.onError. rewrite settleWithApology_settleFirst.
    apply settleFirst_saves.
  - rewrite settleWithApology_settleFirst. apply settleFirst_saves.
  - intros w. now apply savesChanges_same.
Qed.

Lemma savesChanges_savedState (w w' : World) :
  savesChanges w w' -> savedState w -> savedState w'.
Proof.
  intros (Ha & Hq & H) [[Hw1 Hw2] Hs]. split; [split; congruence|].
  destruct H as [[Hc Hp]|H]; [|now apply H].
  unfold inSync in *. congruence.
Qed.

(** X3.  When the browser accepts writes and the persisted list is the list in
    memory, it is so again after every step of the store that is not the
    arrival of a fragment: a step that changes the list ends by saving it. *)
Theorem store_saves_every_change (actions : list Action) (w : World) :
  existsb isChunkStep actions = false ->
  savedState w -> savedState (steps actions w).
Proof.
  revert w. induction actions as [|a rest IH]; intros w Hno Hw; [exact Hw|].
  cbn in Hno. apply orb_false_iff in Hno as [Ha Hrest].
  rewrite steps_cons. apply IH; [exact Hrest|].
  exact (savesChanges_savedState _ _ (perform_saves a Ha w) Hw).
Qed.

Lemma store_saves_every_change_witness :
  savedState
    (steps [AddMessage "a" (noteMessage "m1" "one"); SwitchConversation "a";
            DeleteConversation "a"]
       (steps [CreateNewConversation None] (newStore emptyStorage))).
Proof.
  apply (store_saves_every_change
           [AddMessage "a" (noteMessage "m1" "one"); SwitchConversation "a";
            DeleteConversation "a"]
           (steps [CreateNewConversation None] (newStore emptyStorage))).
  - reflexivity.
  - split; [split; vm_compute; reflexivity|]. vm_compute. reflexivity.
Defined.

(** ** Loading the page again *)

Lemma loadConversations_stored (w : World) :
  conversationStore.loadConversations w
  = (Ok tt,
     match storedValue "conversations" w with
     | Some (JConversations l) =>
         match l, currentConversationId w with
         | first :: _, None | first :: _, Some EmptyString =>
             set_currentConversationId (Some (Conversation.id first))
               (set_conversations l w)
         | _, _ => set_conversations l w
         end
     | _ => w
     end).
Proof.
  unfold conversationStore.loadConversations, bind.
  rewrite loadFromLocalStorage_stored.
  destruct (storedValue "conversations" w) as [[| s | [|first rest] |]|];
    try reflexivity.
  cbn. now destruct (currentConversationId w) as [[|]|].
Qed.

Lemma reloaded_stored (w : World) :
  conversations (reloaded w)
  = match storedValue "conversations" w with
    | Some (JConversations l) => l
    | _ => []
    end
  /\ currentConversationId (reloaded w)
     = match storedValue "conversations" w with
       | Some (JConversations (first :: _)) => Some (Conversation.id first)
       | _ => None
       end
  /\ isLoading (reloaded w) = false.
Proof.
  unfold reloaded, worldAfter. rewrite loadConversations_stored. cbn [snd].
  change (storedValue "conversations" (set_conversations _ _))
    with (storedValue "conversations" w).
  destruct (storedValue "conversations" w) as [[| s | [|first rest] |]|];
    repeat split; reflexivity.
Qed.

Lemma storedValue_inSync (w : World) :
  accessDenied (localStorage w) = false -> inSync w ->
  storedValue "conversations" w = Some (JConversations (conversations w)).
Proof.
  intros Ha Hs. unfold storedValue. rewrite Ha.
  unfold inSync, persistedConversations in Hs. now rewrite Hs.
Qed.

Lemma storedValue_other_slot (v : JSON) (w : World) :
  storedValue "conversations" (persist "currentConversationId" v w)
  = storedValue "conversations" w.
Proof.
  unfold persist.
  destruct (accessDenied (localStorage w) || quotaExceeded (localStorage w))
    eqn:E; [reflexivity|].
  apply orb_false_iff in E as [Ha _].
  unfold storedValue. cbn. rewrite Ha.
  now rewrite lookup_insert_ne by discriminate.
Qed.

Lemma reload_restores_list (w : World) :
  accessDenied (localStorage w) = false -> inSync w ->
  conversations (reloaded w) = conversations w
  /\ currentConversationId (reloaded w)
     = match conversations w with
       | first :: _ => Some (Conversation.id first)
       | [] => None
       end
  /\ isLoading (reloaded w) = false.
Proof.
  intros Ha Hs. pose proof (reloaded_stored w) as (Hc & Hi & Hl).
  rewrite (storedValue_inSync w Ha Hs) in Hc, Hi. auto.
Qed.

(** X4.  When the page is loaded again on a storage that holds the list that was
    in memory, the store has that list again, nothing is loading, and the
    current conversation is the first of the list, or none when the list is
    empty: neither the conversation that was current before nor what the
    slot "currentConversationId" holds is looked at. *)
Theorem reload_restores_the_saved_list (w : World) :
  accessDenied (localStorage w) = false -> inSync w ->
  conversations (reloaded w) = conversations w
  /\ currentConversationId (reloaded w)
     = match conversations w with
       | first :: _ => Some (Conversation.id first)
       | [] => None
       end
  /\ isLoading (reloaded w) = false
  /\ forall v cid,
       conversations
         (reloaded (persist "currentConversationId" v
                      (set_currentConversationId cid w)))
       = conversations (reloaded w)
       /\ currentConversationId
            (reloaded (persist "currentConversationId" v
                         (set_currentConversationId cid w)))
          = currentConversationId (reloaded w).
Proof.
  intros Ha Hs. destruct (reload_restores_list w Ha Hs) as (Hc & Hi & Hl).
  split; [exact Hc|]. split; [exact Hi|]. split; [exact Hl|].
  intros v cid.
  pose proof (reloaded_stored
                (persist "currentConversationId" v
                   (set_currentConversationId cid w))) as (Hc' & Hi' & _).
  rewrite storedValue_other_slot in Hc', Hi'.
  change (storedValue "conversations" (set_currentConversationId cid w))
    with (storedValue "conversations" w) in Hc', Hi'.
  pose proof (reloaded_stored w) as (Hc0 & Hi0 & _).
  split; congruence.
Qed.

Lemma reload_restores_the_saved_list_witness :
  conversations (reloaded oneMessageWorld) = conversations oneMessageWorld.
Proof.
  assert (Ha : accessDenied (localStorage oneMessageWorld) = false)
    by (vm_compute; reflexivity).
  assert (Hs : inSync oneMessageWorld) by (vm_compute; reflexivity).
  exact (proj1 (reload_restores_the_saved_list oneMessageWorld Ha Hs)).
Defined.

(** ** What a send does to the conversation, exactly *)

Lemma sendMessage_messages_exact (content : string) (w : World)
    (cur : Conversation.t) :
  conversationStore.currentConversation w = Some cur ->
  exists request userMessage aiMessage t1 t2 w',
    conversationStore.sendMessage_messages content w
    = (Ok (request, aiMessage), w')
    /\ conversationStore.currentConversation w'
       = Some (conversationStore.pushMessage aiMessage t2
                 (conversationStore.pushMessage userMessage t1 cur))
    /\ currentConversationId w' = currentConversationId w
    /\ userMessage
       = {| Message.id := Message.id userMessage; Message.role := Message.user;
            Message.content := content;
            Message.timestamp := Message.timestamp userMessage;
            Message.isStreaming := None; Message.displayContent := None |}
    /\ aiMessage
       = {| Message.id := Message.id aiMessage; Message.role := Message.assistant;
            Message.content := "";
            Message.timestamp := Message.timestamp aiMessage;
            Message.isStreaming := Some true;
            Message.displayContent := Some "" |}
    /\ request
       = {| req_messages := [userMessage];
            req_model := Conversation.model cur;
            req_deepThink := Conversation.deepThink cur;
            req_useSearch := Conversation.useSearch cur;
            req_conversationId := Some (Conversation.id cur);
            req_message := Some content |}.
Proof.
  intros Hcur. unfold conversationStore.sendMessage_messages.
  unfold bind at 1. unfold generateId at 1, total at 1.
  unfold bind at 1. unfold Date_now at 1, total at 1, readClock at 1.
  cbn [fst snd].
  set (w2 := set_tick _ (set_tick _ w)).
  set (userMessage := Message.mk _ Message.user content _ None None).
  assert (Hcur2 : conversationStore.currentConversation w2 = Some cur) by exact Hcur.
  unfold bind at 1. rewrite (currentConversationValue_run w2 cur Hcur2).
  destruct (addMessage_current userMessage w2 cur Hcur2)
    as (w3 & E3 & Hcur3 & Hc3 & Hi3).
  unfold bind at 1. rewrite E3.
  unfold bind at 1. unfold generateId at 1, total at 1.
  unfold bind at 1. unfold Date_now at 1, total at 1, readClock at 1.
  cbn [fst snd].
  set (w5 := set_tick _ (set_tick _ w3)).
  set (aiMessage := Message.mk _ Message.assistant "" _ (Some true) (Some "")).
  set (cur1 := conversationStore.pushMessage userMessage _ cur) in *.
  assert (Hcur5 : conversationStore.currentConversation w5 = Some cur1) by exact Hcur3.
  unfold bind at 1. rewrite (currentConversationValue_run w5 cur1 Hcur5).
  destruct (addMessage_current aiMessage w5 cur1 Hcur5)
    as (w6 & E6 & Hcur6 & Hc6 & Hi6).
  unfold bind at 1. rewrite E6.
  unfold bind at 1. rewrite (currentConversationValue_run w6 _ Hcur6).
  unfold ret.
  eexists _, userMessage, aiMessage, _, _, w6. split; [reflexivity|].
  split; [exact Hcur6|]. split.
  { rewrite Hi6. change (currentConversationId w5) with (currentConversationId w3).
    now rewrite Hi3. }
  repeat split; reflexivity.
Qed.

(** [sendMessage] up to its request, on the conversation it appends to: the
    current one, or the one it creates. *)
Lemma sendMessage_begin_exact (content : string) (w : World) :
  exists base request userMessage aiMessage t1 t2 w',
    match conversationStore.currentConversation w with
    | Some cur => base = cur
    | None =>
        conversationStore.currentConversation
          (worldAfter (conversationStore.createNewConversation None) w)
        = Some base
        /\ Conversation.messages base = []
        /\ Conversation.model base = conversationStore.defaultModel
        /\ Conversation.deepThink base = false
        /\ Conversation.useSearch base = false
    end
    /\ conversationStore.sendMessage_begin content w
       = (Ok (request, aiMessage), w')
    /\ conversationStore.currentConversation w'
       = Some (conversationStore.pushMessage aiMessage t2
                 (conversationStore.pushMessage userMessage t1 base))
    /\ userMessage
       = {| Message.id := Message.id userMessage; Message.role := Message.user;
            Message.content := content;
            Message.timestamp := Message.timestamp userMessage;
            Message.isStreaming := None; Message.displayContent := None |}
    /\ aiMessage
       = {| Message.id := Message.id aiMessage; Message.role := Message.assistant;
            Message.content := "";
            Message.timestamp := Message.timestamp aiMessage;
            Message.isStreaming := Some true;
            Message.displayContent := Some "" |}
    /\ request
       = {| req_messages := [userMessage];
            req_model := Conversation.model base;
            req_deepThink := Conversation.deepThink base;
            req_useSearch := Conversation.useSearch base;
            req_conversationId := Some (Conversation.id base);
            req_message := Some content |}.
Proof.
  pose proof (sendMessage_begin_cases content w) as Hcases.
  destruct (conversationStore.currentConversation w) as [cur|] eqn:Hcur.
  - destruct (sendMessage_messages_exact content w cur Hcur)
      as (request & u & a & t1 & t2 & w' & E & Hc & _ & Hu & Ha & Hr).
    exists cur, request, u, a, t1, t2, w'. rewrite Hcases. auto 10.
  - assert (Hnew : exists base,
               conversationStore.currentConversation
                 (worldAfter (conversationStore.createNewConversation None) w)
               = Some base
               /\ Conversation.messages base = []
               /\ Conversation.model base = conversationStore.defaultModel
               /\ Conversation.deepThink base = false
               /\ Conversation.useSearch base = false).
    { unfold worldAfter, conversationStore.createNewConversation, bind,
        generateId, Date_now, total, readClock, modify, ret. cbn [fst snd].
      rewrite saveConversations_run. cbn [fst snd].
      unfold conversationStore.currentConversation.
      rewrite persist_currentConversationId, persist_conversations. cbn.
      unfold conversationStore.hasId. cbn. rewrite String.eqb_refl.
      eexists. split; [reflexivity|]. repeat split. }
    destruct Hnew as (base & Hbase & Hm & Hmod & Hd & Hs).
    destruct (sendMessage_messages_exact content _ base Hbase)
      as (request & u & a & t1 & t2 & w' & E & Hc & _ & Hu & Ha & Hr).
    exists base, request, u, a, t1, t2, w'. rewrite Hcases. auto 10.
Qed.

(** ** The title that the first message gives *)

Lemma pushMessage_messages (m : Message.t) (now : Z) (c : Conversation.t) :
  Conversation.messages (conversationStore.pushMessage m now c)
  = Conversation.messages c ++ [m].
Proof. reflexivity. Qed.

Lemma pushMessage_title_later (m : Message.t) (now : Z) (c : Conversation.t) :
  Conversation.messages c <> [] ->
  Conversation.title (conversationStore.pushMessage m now c) = Conversation.title c.
Proof.
  intros H. unfold conversationStore.pushMessage. cbn.
  destruct (Conversation.messages c) as [|x l]; [contradiction|].
  rewrite length_app. cbn.
  now replace (length l + 1)%nat with (S (length l)) by lia.
Qed.

(** X5.  A send gives the conversation its title when its user message is the
    first message of the conversation — in a conversation that the send
    creates, or in a current conversation that has no message yet: the title
    is then the text when it has at most 30 code units (UTF-16 units, as
    JavaScript counts them), and otherwise its first 30 units followed by an
    ellipsis; it has at most 33 units.  A conversation that has a message
    keeps its title. *)
Theorem first_send_titles_the_conversation (content : string) (w : World) :
  exists conv,
    conversationStore.currentConversation
      (worldAfter (conversationStore.sendMessage_begin content) w) = Some conv
    /\ Conversation.title conv
       = match conversationStore.currentConversation w with
         | Some cur =>
             match Conversation.messages cur with
             | [] => conversationStore.titleOf content
             | _ :: _ => Conversation.title cur
             end
         | None => conversationStore.titleOf content
         end
    /\ (js_length (conversationStore.titleOf content) <= 33)%nat
    /\ slice_to 30 (conversationStore.titleOf content) = slice_to 30 content
    /\ ((js_length content <= 30)%nat -> conversationStore.titleOf content = content).
Proof.
  destruct (sendMessage_begin_exact content w)
    as (base & request & u & a & t1 & t2 & w' & Hbase & E & Hcur & Hu & _).
  unfold worldAfter. rewrite E. cbn [snd].
  eexists. split; [exact Hcur|].
  pose proof (titleOf_facts content) as (Hlen & Hpre & Hall).
  split; [|split; [|split]; assumption].
  rewrite pushMessage_title_later
    by (rewrite pushMessage_messages; now destruct (Conversation.messages base)).
  assert (Hfirst : Conversation.messages base = [] ->
                   Conversation.title (conversationStore.pushMessage u t1 base)
                   = conversationStore.titleOf content).
  { intros Hm. unfold conversationStore.pushMessage. cbn. rewrite Hm. cbn.
    rewrite Hu. reflexivity. }
  destruct (conversationStore.currentConversation w) as [cur|].
  - subst base. destruct (Conversation.messages cur) as [|x l] eqn:Hm.
    + now apply Hfirst.
    + apply pushMessage_title_later. now rewrite Hm.
  - apply Hfirst. tauto.
Qed.

(** ** The controls reach the request *)

Lemma updateConversationSettings_current (settings : ConversationSettings)
    (w : World) (cur : Conversation.t) :
  conversationStore.currentConversation w = Some cur ->
  exists w',
    conversationStore.updateConversationSettings settings w = (Ok tt, w')
    /\ conversationStore.currentConversation w'
       = Some (conversationStore.withSettings settings (clock w (tick w)) cur)
    /\ conversations w'
       = update_first (conversationStore.hasId (Conversation.id cur))
           (conversationStore.withSettings settings (clock w (tick w)))
           (conversations w).
Proof.
  intros Hcur. pose proof (currentConversation_find w cur Hcur) as Hfind.
  pose proof (currentConversation_id w cur Hcur) as [Hid _].
  unfold conversationStore.updateConversationSettings, bind, gets. rewrite Hcur.
  unfold Date_now, total, readClock, modify. cbn [fst snd].
  rewrite saveConversations_run.
  eexists. split; [reflexivity|]. split.
  - unfold conversationStore.currentConversation.
    rewrite persist_currentConversationId, persist_conversations. cbn.
    rewrite Hid. rewrite find_update_first by (intros x Hx; exact Hx).
    now rewrite Hfind.
  - now rewrite persist_conversations.
Qed.

Lemma handleToggleDeepThink_run (b : bool) (w : World) :
  MainContent_handleToggleDeepThink b w
  = match conversationStore.currentConversation w with
    | Some _ =>
        conversationStore.updateConversationSettings
          {| set_model := None; set_deepThink := Some b; set_useSearch := None |} w
    | None => (Ok tt, w)
    end.
Proof.
  unfold MainContent_handleToggleDeepThink, bind, gets.
  now destruct (conversationStore.currentConversation w).
Qed.

Lemma handleToggleSearch_run (b : bool) (w : World) :
  MainContent_handleToggleSearch b w
  = match conversationStore.currentConversation w with
    | Some _ =>
        conversationStore.updateConversationSettings
          {| set_model := None; set_deepThink := None; set_useSearch := Some b |} w
    | None => (Ok tt, w)
    end.
Proof.
  unfold MainContent_handleToggleSearch, bind, gets.
  now destruct (conversationStore.currentConversation w).
Qed.

Lemma handleModelChange_run (model : string) (w : World) :
  MainContent_handleModelChange model w
  = match conversationStore.currentConversation w with
    | Some _ =>
        conversationStore.updateConversationSettings
          {| set_model := Some model; set_deepThink := None;
             set_useSearch := None |} w
    | None => (Ok tt, w)
    end.
Proof.
  unfold MainContent_handleModelChange, bind, gets.
  now destruct (conversationStore.currentConversation w).
Qed.

Lemma handlers_without_conversation (w : World) :
  conversationStore.currentConversation w = None ->
  (forall model, MainContent_handleModelChange model w = (Ok tt, w))
  /\ (forall b, MainContent_handleToggleDeepThink b w = (Ok tt, w))
  /\ (forall b, MainContent_handleToggleSearch b w = (Ok tt, w)).
Proof.
  intros H. repeat split; intros;
    rewrite ?handleModelChange_run, ?handleToggleDeepThink_run,
      ?handleToggleSearch_run; now rewrite H.
Qed.

(** X6.  The model, deep-think and search controls of MainContent change the
    settings of the current conversation, and the request of the next send
    carries them.  With no current conversation the three handlers do
    nothing: the choice is lost, and the send that follows creates a
    conversation with the default model, without deep thinking and without
    search.  An empty model name is ignored. *)
Theorem controls_reach_the_request (content : string) (w : World) :
  (forall b,
     let w1 := worldAfter (MainContent_handleToggleDeepThink b) w in
     exists request aiMessage w2,
       conversationStore.sendMessage_begin content w1
       = (Ok (request, aiMessage), w2)
       /\ MainContent_deepThink w1 = req_deepThink request
       /\ req_deepThink request
          = match conversationStore.currentConversation w with
            | Some _ => b
            | None => false
            end)
  /\ (forall b,
        let w1 := worldAfter (MainContent_handleToggleSearch b) w in
        exists request aiMessage w2,
          conversationStore.sendMessage_begin content w1
          = (Ok (request, aiMessage), w2)
          /\ MainContent_useSearch w1 = req_useSearch request
          /\ req_useSearch request
             = match conversationStore.currentConversation w with
               | Some _ => b
               | None => false
               end)
  /\ (forall model,
        let w1 := worldAfter (MainContent_handleModelChange model) w in
        exists request aiMessage w2,
          conversationStore.sendMessage_begin content w1
          = (Ok (request, aiMessage), w2)
          /\ req_model request
             = match conversationStore.currentConversation w with
               | Some cur => if truthy model then model else Conversation.model cur
               | None => "deepseek-chat"
               end)
  /\ (conversationStore.currentConversation w = None ->
      forall model b,
        MainContent_handleModelChange model w = (Ok tt, w)
        /\ MainContent_handleToggleDeepThink b w = (Ok tt, w)
        /\ MainContent_handleToggleSearch b w = (Ok tt, w)).
Proof.
  assert (Hgen : forall settings,
            let w1 := worldAfter
                        (conversationStore.updateConversationSettings settings) w in
            forall cur, conversationStore.currentConversation w = Some cur ->
            exists request aiMessage w2,
              conversationStore.sendMessage_begin content w1
              = (Ok (request, aiMessage), w2)
              /\ conversationStore.currentConversation w1
                 = Some (conversationStore.withSettings settings
                           (clock w (tick w)) cur)
              /\ req_model request
                 = Conversation.model
                     (conversationStore.withSettings settings (clock w (tick w)) cur)
              /\ req_deepThink request
                 = Conversation.deepThink
                     (conversationStore.withSettings settings (clock w (tick w)) cur)
              /\ req_useSearch request
                 = Conversation.useSearch
                     (conversationStore.withSettings settings (clock w (tick w)) cur)).
  { intros settings w1 cur Hcur.
    destruct (updateConversationSettings_current settings w cur Hcur)
      as (w' & E & Hcur' & _).
    subst w1. unfold worldAfter. rewrite E. cbn [snd].
    destruct (sendMessage_begin_exact content w')
      as (base & request & u & a & t1 & t2 & w2 & Hbase & E2 & _ & _ & _ & Hr).
    rewrite Hcur' in Hbase. subst base.
    exists request, a, w2. split; [exact E2|]. split; [exact Hcur'|].
    rewrite Hr. repeat split. }
  assert (Hnone : conversationStore.currentConversation w = None ->
            exists request aiMessage w2,
              conversationStore.sendMessage_begin content w
              = (Ok (request, aiMessage), w2)
              /\ req_model request = "deepseek-chat"
              /\ req_deepThink request = false
              /\ req_useSearch request = false).
  { intros Hcur.
    destruct (sendMessage_begin_exact content w)
      as (base & request & u & a & t1 & t2 & w2 & Hbase & E2 & _ & _ & _ & Hr).
    rewrite Hcur in Hbase. destruct Hbase as (_ & _ & Hm & Hd & Hs).
    exists request, a, w2. split; [exact E2|]. rewrite Hr. cbn.
    rewrite Hm, Hd, Hs. repeat split. }
  split; [|split; [|split]].
  - intros b w1. subst w1. unfold worldAfter at 1 2.
    rewrite handleToggleDeepThink_run.
    destruct (conversationStore.currentConversation w) as [cur|] eqn:Hcur.
    + destruct (Hgen {| set_model := None; set_deepThink := Some b;
                        set_useSearch := None |} cur eq_refl)
        as (request & a & w2 & E & Hc & _ & Hd & _).
      exists request, a, w2. split; [exact E|].
      unfold MainContent_deepThink. unfold worldAfter in Hc. rewrite Hc.
      rewrite Hd. split; reflexivity.
    + destruct (Hnone eq_refl) as (request & a & w2 & E & _ & Hd & _).
      exists request, a, w2. split; [exact E|].
      unfold MainContent_deepThink. cbn [snd]. rewrite Hcur, Hd.
      split; reflexivity.
  - intros b w1. subst w1. unfold worldAfter at 1 2.
    rewrite handleToggleSearch_run.
    destruct (conversationStore.currentConversation w) as [cur|] eqn:Hcur.
    + destruct (Hgen {| set_model := None; set_deepThink := None;
                        set_useSearch := Some b |} cur eq_refl)
        as (request & a & w2 & E & Hc & _ & _ & Hs).
      exists request, a, w2. split; [exact E|].
      unfold MainContent_useSearch. unfold worldAfter in Hc. rewrite Hc.
      rewrite Hs. split; reflexivity.
    + destruct (Hnone eq_refl) as (request & a & w2 & E & _ & _ & Hs).
      exists request, a, w2. split; [exact E|].
      unfold MainContent_useSearch. cbn [snd]. rewrite Hcur, Hs.
      split; reflexivity.
  - intros model w1. subst w1. unfold worldAfter at 1.
    rewrite handleModelChange_run.
    destruct (conversationStore.currentConversation w) as [cur|] eqn:Hcur.
    + destruct (Hgen {| set_model := Some model; set_deepThink := None;
                        set_useSearch := None |} cur eq_refl)
        as (request & a & w2 & E & _ & Hm & _).
      exists request, a, w2. split; [exact E|]. rewrite Hm. reflexivity.
    + destruct (Hnone eq_refl) as (request & a & w2 & E & Hm & _).
      exists request, a, w2. split; [exact E|]. exact Hm.
  - intros Hcur model b.
    destruct (handlers_without_conversation w Hcur) as (H1 & H2 & H3). auto.
Qed.

(** ** Deleting and selecting a conversation *)

Lemma findIndex_splits {A} (p : A -> bool) (l : list A) (k : nat) :
  findIndex p l = Some k ->
  exists before x after,
    l = before ++ x :: after
    /\ length before = k
    /\ p x = true
    /\ Forall (fun y => p y = false) before
    /\ List.find p l = Some x
    /\ splice1 k l = before ++ after.
Proof.
  revert k. induction l as [|y l IH]; intros k; cbn; [discriminate|].
  destruct (p y) eqn:E.
  - intros [= <-]. exists [], y, l. repeat split; auto.
  - destruct (findIndex p l) as [i|]; [|discriminate].
    intros [= <-]. destruct (IH i eq_refl) as (b & x & a & -> & Hlen & Hx & Hb & Hf & Hs).
    exists (y :: b), x, a. cbn. rewrite Hlen, Hs. repeat split; auto.
Qed.

Lemma findIndex_none {A} (p : A -> bool) (l : list A) :
  findIndex p l = None <-> List.find p l = None.
Proof.
  induction l as [|y l IH]; cbn; [tauto|].
  destruct (p y); [split; discriminate|].
  destruct (findIndex p l); [|tauto].
  split; [discriminate|]. intros H. apply IH in H. discriminate.
Qed.

(** X7.  [deleteConversation] removes one conversation, the first that has the
    id, and leaves the others in their order; a current conversation that is
    not the one deleted stays current.  On an id that no conversation has it
    changes nothing, the storage included. *)
Theorem deleteConversation_removes_the_first_match (cid : string) (w : World) :
  let w' := worldAfter (conversationStore.deleteConversation cid) w in
  outcome (conversationStore.deleteConversation cid) w = Ok tt
  /\ match List.find (conversationStore.hasId cid) (conversations w) with
     | None => w' = w
     | Some c =>
         exists before after,
           conversations w = before ++ c :: after
           /\ Forall (fun x => Conversation.id x <> cid) before
           /\ conversations w' = before ++ after
           /\ currentConversationId w'
              = match currentConversationId w with
                | Some cur =>
                    if String.eqb cur cid
                    then match before ++ after with
                         | first :: _ => Some (Conversation.id first)
                         | [] => None
                         end
                    else Some cur
                | None => None
                end
           /\ (storageWritable w -> inSync w')
     end.
Proof.
  cbv zeta.
  destruct (deleteConversation_run cid w) as (w' & E & Hc & Hi).
  unfold outcome, worldAfter. rewrite E. cbn [fst snd]. split; [reflexivity|].
  destruct (findIndex (conversationStore.hasId cid) (conversations w)) as [k|] eqn:Hk.
  - destruct (findIndex_splits _ _ _ Hk) as (b & x & a & Hl & _ & Hx & Hb & Hf & Hs).
    rewrite Hf. exists b, a. split; [exact Hl|]. split.
    { revert Hb. apply List.Forall_impl. intros y Hy Heq.
      apply hasId_eq in Heq. congruence. }
    split; [now rewrite Hc, Hs|]. split; [now rewrite Hi, Hs|].
    intros Hw. pose proof (deleteConversation_saves cid w) as (Ha & Hq & Hsave).
    rewrite E in Ha, Hq, Hsave. cbn [snd] in Ha, Hq, Hsave.
    destruct Hsave as [[Hsame _]|Hsave]; [|now apply Hsave].
    exfalso. rewrite Hc, Hs, Hl in Hsame.
    apply (f_equal (@length _)) in Hsame. rewrite !length_app in Hsame.
    cbn in Hsame. lia.
  - apply findIndex_none in Hk as Hf. rewrite Hf.
    unfold conversationStore.deleteConversation, bind, gets in E.
    rewrite Hk in E. unfold ret in E. congruence.
Qed.

(** X8.  After [switchConversation] on the id of a listed conversation, that
    conversation — the first with the id — is the current one, the selection
    is written to the slot "currentConversationId", and a send appends its
    two messages to that conversation and names it in the request.  On an id
    that no conversation has, [switchConversation] changes nothing. *)
Theorem send_after_switch_goes_to_the_selected (cid content : string) (w : World) :
  let w1 := worldAfter (conversationStore.switchConversation cid) w in
  match List.find (conversationStore.hasId cid) (conversations w) with
  | Some c =>
      conversationStore.currentConversation w1 = Some c
      /\ conversations w1 = conversations w
      /\ (storageWritable w ->
          items (localStorage w1) !! "currentConversationId"
          = Some (Encoded (JString cid)))
      /\ exists request userMessage aiMessage conv w2,
           conversationStore.sendMessage_begin content w1
           = (Ok (request, aiMessage), w2)
           /\ conversationStore.currentConversation w2 = Some conv
           /\ Conversation.id conv = cid
           /\ Conversation.messages conv
              = Conversation.messages c ++ [userMessage; aiMessage]
           /\ Message.content userMessage = content
           /\ req_conversationId request = Some cid
  | None => conversationStore.switchConversation cid w = (Ok tt, w)
  end.
Proof.
  cbv zeta. unfold worldAfter.
  destruct (List.find (conversationStore.hasId cid) (conversations w))
    as [c|] eqn:Hfind.
  2:{ unfold conversationStore.switchConversation, bind, gets.
      now rewrite Hfind. }
  assert (Erun : conversationStore.switchConversation cid w
                 = (Ok tt, persist "currentConversationId" (JString cid)
                             (set_currentConversationId (Some cid) w))).
  { unfold conversationStore.switchConversation, bind, gets, modify.
    rewrite Hfind. cbn [fst snd]. now rewrite saveToLocalStorage_run. }
  rewrite Erun. cbn [snd]. clear Erun.
  set (w1 := persist _ _ _).
  assert (Hcur : conversationStore.currentConversation w1 = Some c).
  { unfold conversationStore.currentConversation, w1.
    rewrite persist_currentConversationId, persist_conversations. cbn.
    exact Hfind. }
  split; [exact Hcur|]. split; [unfold w1; now rewrite persist_conversations|].
  split.
  { intros [Ha Hq]. unfold w1. now apply persist_lookup. }
  destruct (sendMessage_begin_exact content w1)
    as (base & request & u & a & t1 & t2 & w2 & Hbase & E & Hc2 & Hu & _ & Hr).
  rewrite Hcur in Hbase. subst base.
  pose proof (List.find_some _ _ Hfind) as [_ Hid]. apply hasId_eq in Hid.
  eexists request, u, a, _, w2. split; [exact E|]. split; [exact Hc2|].
  split; [exact Hid|]. split.
  { cbn. now rewrite <- app_assoc. }
  split; [now rewrite Hu|]. rewrite Hr. cbn. now rewrite Hid.
Qed.

(** ** The fragments of a stream in the store *)

Lemma update_first_ext {A} (p : A -> bool) (f g : A -> A) (l : list A) :
  (forall x, f x = g x) -> update_first p f l = update_first p g l.
Proof.
  intros H. induction l as [|x l IH]; cbn; [reflexivity|].
  destruct (p x); [now rewrite H | now rewrite IH].
Qed.

Lemma update_first_same {A} (p : A -> bool) (f : A -> A) (l : list A) :
  (forall x, f x = x) -> update_first p f l = l.
Proof.
  intros H. induction l as [|x l IH]; cbn; [reflexivity|].
  destruct (p x); [now rewrite H | now rewrite IH].
Qed.

Lemma update_first_length {A} (p : A -> bool) (f : A -> A) (l : list A) :
  length (update_first p f l) = length l.
Proof.
  induction l as [|x l IH]; cbn; [reflexivity|].
  destruct (p x); cbn; [reflexivity | now rewrite IH].
Qed.

Lemma update_first_none {A} (p : A -> bool) (f : A -> A) (l : list A) :
  List.find p l = None -> update_first p f l = l.
Proof.
  induction l as [|x l IH]; cbn; [reflexivity|].
  destruct (p x); [discriminate | intros H; now rewrite IH].
Qed.

Lemma update_first_app_r {A} (p : A -> bool) (f : A -> A) (l1 l2 : list A) :
  List.find p l1 = None ->
  update_first p f (l1 ++ l2) = l1 ++ update_first p f l2.
Proof.
  induction l1 as [|x l1 IH]; cbn; [reflexivity|].
  destruct (p x); [discriminate | intros H; now rewrite IH].
Qed.

Lemma find_app_r {A} (p : A -> bool) (l1 l2 : list A) :
  List.find p l1 = None -> List.find p (l1 ++ l2) = List.find p l2.
Proof.
  induction l1 as [|x l1 IH]; cbn; [reflexivity|].
  destruct (p x); [discriminate | exact IH].
Qed.

Lemma find_app_some {A} (p : A -> bool) (l1 l2 : list A) (x : A) :
  List.find p l2 = Some x -> List.find p (l1 ++ l2) <> None.
Proof.
  intros H. induction l1 as [|y l1 IH]; cbn; [congruence|].
  destruct (p y); [discriminate | exact IH].
Qed.

Lemma appendAll_app (ds es : list string) (m : Message.t) :
  appendAll (ds ++ es) m = appendAll es (appendAll ds m).
Proof. unfold appendAll. apply fold_left_app. Qed.

Lemma appendAll_fields (ds : list string) (m : Message.t) :
  Message.id (appendAll ds m) = Message.id m
  /\ Message.role (appendAll ds m) = Message.role m
  /\ Message.content (appendAll ds m) = Message.content m
  /\ Message.timestamp (appendAll ds m) = Message.timestamp m
  /\ Message.isStreaming (appendAll ds m) = Message.isStreaming m
  /\ displayBase (appendAll ds m) = (displayBase m ++ joined ds)%string.
Proof.
  revert m. induction ds as [|d ds IH]; intros m.
  - cbn. now rewrite append_empty_r.
  - change (appendAll (d :: ds) m)
      with (appendAll ds (conversationStore.appendDisplay d m)).
    destruct (IH (conversationStore.appendDisplay d m)) as (H1 & H2 & H3 & H4 & H5 & H6).
    rewrite H1, H2, H3, H4, H5, H6. repeat split.
    cbn [joined fold_right]. unfold displayBase at 1. cbn.
    fold (displayBase m). now rewrite append_assoc.
Qed.

Lemma appendAll_display (ds : list string) (m : Message.t) (shown : string) :
  Message.displayContent m = Some shown ->
  Message.displayContent (appendAll ds m) = Some (shown ++ joined ds)%string.
Proof.
  revert m shown. induction ds as [|d ds IH]; intros m shown H.
  - cbn. now rewrite append_empty_r.
  - change (appendAll (d :: ds) m)
      with (appendAll ds (conversationStore.appendDisplay d m)).
    rewrite (IH _ (shown ++ d)%string).
    + cbn [joined fold_right]. now rewrite append_assoc.
    + cbn. now rewrite H.
Qed.

Lemma msgHasId_appendAll (aid : string) (ds : list string) (m : Message.t) :
  conversationStore.msgHasId aid (appendAll ds m)
  = conversationStore.msgHasId aid m.
Proof.
  unfold conversationStore.msgHasId.
  now destruct (appendAll_fields ds m) as (-> & _).
Qed.

Lemma isStreamingAssistant_appendAll (ds : list string) (m : Message.t) :
  conversationStore.isStreamingAssistant (appendAll ds m)
  = conversationStore.isStreamingAssistant m.
Proof.
  unfold conversationStore.isStreamingAssistant.
  now destruct (appendAll_fields ds m) as (_ & -> & _ & _ & -> & _).
Qed.

Lemma settled_appendAll (c : string) (ds : list string) (m : Message.t) :
  conversationStore.settled c (appendAll ds m) = conversationStore.settled c m.
Proof.
  unfold conversationStore.settled.
  now destruct (appendAll_fields ds m) as (-> & -> & _ & -> & _).
Qed.

Section StoreStream.

Variable aid cid : string.
Variable msgs : list Message.t.
Variable ls : LocalStorage.
Variable request : ChatRequest.

(** The assistant message is among the messages. *)
Hypothesis found : List.find (conversationStore.msgHasId aid) msgs <> None.

Local Notation "'streaming'" := (streamingState aid cid msgs ls).

Lemma streaming_found (ds : list string) (w : World) (conv : Conversation.t) :
  Conversation.messages conv
  = update_first (conversationStore.msgHasId aid) (appendAll ds) msgs ->
  exists m, List.find (conversationStore.msgHasId aid) (Conversation.messages conv)
            = Some m.
Proof.
  intros ->. rewrite find_update_first.
  - destruct (List.find _ msgs); [now eexists | contradiction].
  - intros x Hx. now rewrite msgHasId_appendAll.
Qed.

(** A fragment arrives. *)
Lemma onChunk_streaming (chunk : string) (ds : list string) (w : World) :
  streaming ds w ->
  exists w',
    conversationStore.onChunk aid chunk w = (Ok tt, w')
    /\ streaming (ds ++ [chunk]) w'
    /\ tick w' = tick w /\ clock w' = clock w /\ entropy w' = entropy w
    /\ isLoading w' = isLoading w
    /\ currentConversationId w' = currentConversationId w.
Proof.
  intros (conv & Hcur & Hid & Hm & Hls).
  destruct (streaming_found ds w conv Hm) as [m Hfound].
  pose proof (currentConversation_find w conv Hcur) as Hfind.
  pose proof (currentConversation_id w conv Hcur) as [Hcid _].
  unfold conversationStore.onChunk.
  unfold bind at 1. rewrite (findCurrentConversation_run w conv Hcur).
  rewrite Hfound. unfold modify.
  eexists. split; [reflexivity|]. split; [|repeat split].
  exists (conversationStore.mapMessages
            (update_first (conversationStore.msgHasId aid)
                          (conversationStore.appendDisplay chunk)) conv).
  split; [|split; [exact Hid|split; [|exact Hls]]].
  - unfold conversationStore.currentConversation. cbn. rewrite Hcid.
    rewrite find_update_first by (intros x Hx; exact Hx).
    now rewrite Hfind.
  - cbn. rewrite Hm.
    rewrite update_first_twice
      by (intros x Hx; now rewrite msgHasId_appendAll).
    apply update_first_ext. intros x. now rewrite appendAll_app.
Qed.

(** The first message that [p] selects is settled: what [onComplete] and the
    error handling do to a conversation that is streaming. *)
Lemma settleFirst_streaming (p : Message.t -> bool) (settle : Message.t -> Message.t)
    (ds : list string) (w : World) :
  streaming ds w ->
  exists w',
    settleFirst p settle w = (Ok tt, w')
    /\ settledState p settle cid
         (update_first (conversationStore.msgHasId aid) (appendAll ds) msgs) ls w'
    /\ isLoading w' = isLoading w.
Proof.
  intros (conv & Hcur & Hid & Hm & Hls).
  destruct (List.find p (Conversation.messages conv)) as [m|] eqn:Hp.
  - destruct (settleFirst_run p settle w conv m Hcur Hp)
      as (w' & conv' & E & Hcur' & Hid' & Hm' & Hsave).
    pose proof (settleFirst_saves p settle w) as (Ha & Hq & _).
    rewrite E in Ha, Hq. cbn [snd] in Ha, Hq.
    exists w'. split; [exact E|]. split.
    + exists conv'. rewrite <- Hm, <- Hls.
      split; [exact Hcur'|]. split; [congruence|]. split; [exact Hm'|].
      split; [exact Ha|]. split; [exact Hq|].
      intros Ha0 Hq0 _. apply Hsave. now split.
    + unfold settleFirst in E. unfold bind at 1 in E.
      rewrite (findCurrentConversation_run w conv Hcur), Hp in E.
      unfold bind, modify, Date_now, total, readClock in E. cbn [fst snd] in E.
      rewrite saveConversations_run in E. injection E as <-.
      now rewrite persist_isLoading.
  - rewrite (settleFirst_nothing p settle w conv Hcur Hp).
    exists w. split; [reflexivity|]. split; [|reflexivity].
    exists conv. rewrite <- Hm, <- Hls.
    split; [exact Hcur|]. split; [exact Hid|].
    split; [now rewrite update_first_none|].
    split; [reflexivity|]. split; [reflexivity|].
    intros _ _ H. contradiction.
Qed.

Local Notation "'forLinesS'" :=
  (chatAPI.forLines readClock request
     (Some (conversationStore.onChunk aid))
     (Some (conversationStore.onComplete aid))).

Local Notation "'readLoopS'" :=
  (chatAPI.readLoop readClock request
     (Some (conversationStore.onChunk aid))
     (Some (conversationStore.onComplete aid))).

Local Notation "'answered'" :=
  (fun fragments =>
     settledState (conversationStore.msgHasId aid)
       (conversationStore.settled (joined fragments)) cid msgs ls).

Lemma settled_after_fragments (p : Message.t -> bool) (c : string)
    (ds : list string) (w : World) :
  p = conversationStore.msgHasId aid ->
  settledState p (conversationStore.settled c) cid
    (update_first (conversationStore.msgHasId aid) (appendAll ds) msgs) ls w ->
  settledState (conversationStore.msgHasId aid) (conversationStore.settled c)
    cid msgs ls w.
Proof.
  intros -> (conv & Hcur & Hid & Hm & Ha & Hq & Hsave).
  exists conv. split; [exact Hcur|]. split; [exact Hid|]. split.
  - rewrite Hm.
    rewrite update_first_twice by (intros x Hx; now rewrite msgHasId_appendAll).
    apply update_first_ext. intros x. apply settled_appendAll.
  - split; [exact Ha|]. split; [exact Hq|]. intros Ha0 Hq0 _.
    apply Hsave; auto.
    rewrite find_update_first by (intros x Hx; now rewrite msgHasId_appendAll).
    destruct (List.find _ msgs); [discriminate | contradiction].
Qed.

(** The lines of one read.  The accumulated content is the fragments joined. *)
Lemma forLines_streaming (lines : list string) :
  forall (ds : list string) (w : World),
    streaming ds w ->
    let ps := omap payload lines in
    match forLinesS lines (joined ds) w with
    | (Ok (Some acc), w') =>
        hasSentinel ps = false /\ acc = joined (ds ++ ps)
        /\ streaming (ds ++ ps) w' /\ isLoading w' = isLoading w
    | (Ok None, w') =>
        hasSentinel ps = true /\ answered (ds ++ beforeSentinel ps) w'
        /\ isLoading w' = isLoading w
    | (Throw _, _) => False
    end.
Proof.
  induction lines as [|line rest IH]; intros ds w Hst; cbv zeta.
  - cbn. rewrite app_nil_r. auto.
  - rewrite forLines_cons. cbn [omap list_omap].
    destruct (payload line) as [data|]; [|apply IH, Hst].
    cbn [hasSentinel existsb beforeSentinel].
    fold (hasSentinel (omap payload rest)).
    destruct (String.eqb data sentinel) eqn:Hd; cbn [orb].
    + rewrite app_nil_r.
      unfold bind at 1. unfold bind at 1. unfold total at 1, readClock at 1.
      cbn [fst snd]. unfold bind at 1. unfold total at 1, readClock at 1.
      cbn [fst snd].
      set (w2 := set_tick _ (set_tick _ w)).
      assert (Hst2 : streaming ds w2).
      { destruct Hst as (conv & Hcur & H). exists conv. split; [exact Hcur | exact H]. }
      rewrite onComplete_settleFirst. cbn [resp_content].
      destruct (settleFirst_streaming (conversationStore.msgHasId aid)
                  (conversationStore.settled (joined ds)) ds w2 Hst2)
        as (w' & E & Hset & Hl).
      rewrite E. cbn. split; [reflexivity|]. split; [|exact Hl].
      exact (settled_after_fragments (conversationStore.msgHasId aid)
               (joined ds) ds w' eq_refl Hset).
    + unfold bind at 1. unfold try_catch. cbn [call_opt].
      destruct (onChunk_streaming data ds w Hst) as (w' & E & Hst' & _ & _ & _ & Hl & _).
      rewrite E.
      specialize (IH (ds ++ [data]) w' Hst'). cbv zeta in IH.
      rewrite joined_app in IH. cbn [joined fold_right] in IH.
      rewrite append_empty_r in IH.
      destruct (forLinesS rest (joined ds ++ data)%string w') as [[[acc|]|e] w''].
      * destruct IH as (H1 & H2 & H3 & H4).
        rewrite <- app_assoc in H2, H3. cbn [app] in H2, H3.
        split; [exact H1|]. split; [exact H2|]. split; [exact H3|]. congruence.
      * destruct IH as (H1 & H2 & H3).
        rewrite <- app_assoc in H2. cbn [app] in H2.
        split; [exact H1|]. split; [exact H2|]. congruence.
      * exact IH.
Qed.

(** The reads of a stream that nothing disturbs. *)
Lemma readLoop_streaming (rs : list (Read World)) (whileLast : World -> World)
    (fin : StreamEnd) :
  Forall (fun r => forall w, whileReading r w = w) rs ->
  (forall w, whileLast w = w) ->
  forall (ds : list string) (w : World),
    streaming ds w ->
    let ps := payloadsOf rs in
    match readLoopS rs whileLast fin (joined ds) w with
    | (Ok _, w') =>
        isLoading w' = isLoading w
        /\ if hasSentinel ps then answered (ds ++ beforeSentinel ps) w'
           else fin = EndOfStream /\ streaming (ds ++ ps) w'
    | (Throw e, w') =>
        isLoading w' = isLoading w
        /\ hasSentinel ps = false /\ fin = ReadFails /\ streaming (ds ++ ps) w'
    end.
Proof.
  intros Hrs Hlast. induction Hrs as [|r rs Hr Hrs IH]; intros ds w Hst; cbv zeta.
  - cbn. unfold bind, await, modify. rewrite Hlast, app_nil_r.
    destruct fin; cbn; auto.
  - cbn [chatAPI.readLoop]. unfold bind at 1. unfold await, modify. rewrite Hr.
    rewrite payloadsOf_cons, beforeSentinel_app, hasSentinel_app.
    pose proof (forLines_streaming (split newline (value r)) ds w Hst) as H.
    cbv zeta in H. unfold bind at 1.
    destruct (forLinesS (split newline (value r)) (joined ds) w)
      as [[[acc|]|e] w1]; [| |contradiction].
    + destruct H as (Hs & -> & Hst1 & Hl1). rewrite Hs. cbn [orb].
      specialize (IH _ w1 Hst1). cbv zeta in IH.
      destruct (readLoopS rs whileLast fin _ w1) as [[[]|e] w'].
      * destruct IH as [Hl IH]. split; [congruence|].
        destruct (hasSentinel (payloadsOf rs)); now rewrite <- ?app_assoc in IH.
      * destruct IH as (Hl & H1 & H2 & H3). rewrite <- app_assoc in H3.
        split; [congruence|]. auto.
    + destruct H as (Hs & Hset & Hl1). rewrite Hs. cbn [orb]. cbn. auto.
Qed.

End StoreStream.
(** ** A whole send that nothing disturbs *)

(** [sendMessage] of the store, piece by piece. *)
Lemma sendMessage_run (content : string) (net : Exchange World) (w : World)
    (request : ChatRequest) (aiMessage : Message.t) (w1 : World) :
  conversationStore.sendMessage_begin content (set_isLoading true w)
  = (Ok (request, aiMessage), w1) ->
  conversationStore.sendMessage content net w
  = match chatAPI.sendMessage getItem readClock request
            (Some (conversationStore.onChunk (Message.id aiMessage)))
            (Some (conversationStore.onComplete (Message.id aiMessage)))
            (Some conversationStore.onError) net w1 with
    | (Ok _, w2) => (Ok tt, set_isLoading false w2)
    | (Throw _, w2) =>
        match conversationStore.settleWithApology w2 with
        | (r, w3) => (r, set_isLoading false w3)
        end
    end.
Proof.
  intros E. unfold conversationStore.sendMessage.
  unfold bind at 1. unfold modify at 1. unfold try_finally, try_catch.
  unfold bind at 1. rewrite E.
  destruct (chatAPI.sendMessage _ _ _ _ _ _ _ _) as [[[]|e] w2]; [reflexivity|].
  now destruct (conversationStore.settleWithApology w2) as [[[]|e'] w3].
Qed.

(** The API on a request that nothing disturbs: an error before or during
    the stream goes to [onError]. *)
Lemma chatAPI_sendMessage_quiet (request : ChatRequest)
    (onChunk : string -> M World unit) (onComplete : ChatResponse -> M World unit)
    (onError : Error -> M World unit) (net : Exchange World) (w : World) :
  quiet net ->
  chatAPI.sendMessage getItem readClock request
    (Some onChunk) (Some onComplete) (Some onError) net w
  = if accessDenied (localStorage w) then onError DOMException w
    else match response net with
         | FetchRejects => onError NetworkError w
         | Responds false status _ => onError (HttpError status) w
         | Responds true _ None => onError NoReaderError w
         | Responds true _ (Some body) =>
             match chatAPI.readLoop readClock request (Some onChunk)
                     (Some onComplete) (reads body) (whileLastRead body)
                     (ending body) EmptyString w with
             | (Ok x, w') => (Ok x, w')
             | (Throw e, w') => onError e w'
             end
         end.
Proof.
  intros [Hfetch _]. unfold chatAPI.sendMessage, try_catch.
  unfold bind at 1. unfold getItem.
  destruct (accessDenied (localStorage w)); [reflexivity|].
  unfold bind at 1. unfold await, modify. rewrite Hfetch.
  destruct (response net) as [|[|] status [body|]]; try reflexivity.
Qed.

Lemma quiet_body (net : Exchange World) (ok : bool) (status : Z) (body : Body World) :
  quiet net -> response net = Responds ok status (Some body) ->
  Forall (fun r => forall w, whileReading r w = w) (reads body)
  /\ (forall w, whileLastRead body w = w).
Proof. intros [_ H] E. now rewrite E in H. Qed.

Lemma samePage_refl (w : World) : samePage w w.
Proof. repeat split. Qed.

Lemma samePage_trans (w1 w2 w3 : World) :
  samePage w1 w2 -> samePage w2 w3 -> samePage w1 w3.
Proof. intros (H1 & H2 & H3) (H1' & H2' & H3'). repeat split; congruence. Qed.

Lemma samePage_persist (key : string) (v : JSON) (w : World) :
  samePage w (persist key v w).
Proof.
  repeat split;
    [apply persist_isLoading | apply persist_mainIsLoading | apply persist_inputText].
Qed.

Ltac keeps_page :=
  repeat first
    [ apply (keeps_bind samePage samePage_trans); [|intros ?]
    | apply (keeps_ret samePage samePage_refl)
    | apply (keeps_gets samePage samePage_refl)
    | apply (keeps_unchanged samePage _ samePage_refl);
      first [ exact currentConversationValue_world
            | exact findCurrentConversation_world
            | apply loadFromLocalStorage_world
            | apply getItem_world ]
    | solve [apply keeps_total; intros ?; repeat split]
    | solve [apply keeps_modify; intros ?; repeat split]
    | intros ?; rewrite saveConversations_run; apply samePage_persist
    | intros ?; rewrite saveToLocalStorage_run; apply samePage_persist
    | match goal with
      | |- keeps _ (match ?x with _ => _ end) => destruct x
      | |- keeps _ (if ?x then _ else _) => destruct x
      end ].

Lemma sendMessage_begin_page (content : string) :
  keeps samePage (conversationStore.sendMessage_begin content).
Proof.
  unfold conversationStore.sendMessage_begin,
    conversationStore.sendMessage_messages, conversationStore.addMessage,
    conversationStore.createNewConversation, Date_now, generateId.
  keeps_page.
Qed.

(** The state in which the request is made. *)
Lemma sendMessage_begin_streaming (content : string) (w : World) :
  exists request userMessage aiMessage w1 conv1,
    conversationStore.sendMessage_begin content (set_isLoading true w)
    = (Ok (request, aiMessage), w1)
    /\ conversationStore.currentConversation w1 = Some conv1
    /\ Conversation.messages conv1 = currentMessages w ++ [userMessage; aiMessage]
    /\ streamingState (Message.id aiMessage) (Conversation.id conv1)
         (currentMessages w ++ [userMessage; aiMessage]) (localStorage w1) [] w1
    /\ List.find (conversationStore.msgHasId (Message.id aiMessage))
         (currentMessages w ++ [userMessage; aiMessage]) <> None
    /\ isLoading w1 = true
    /\ sameElsewhere w w1
    /\ Message.role userMessage = Message.user
    /\ Message.content userMessage = content
    /\ Message.isStreaming userMessage = None
    /\ aiMessage
       = {| Message.id := Message.id aiMessage; Message.role := Message.assistant;
            Message.content := "";
            Message.timestamp := Message.timestamp aiMessage;
            Message.isStreaming := Some true;
            Message.displayContent := Some "" |}.
Proof.
  destruct (sendMessage_begin_exact content (set_isLoading true w))
    as (base & request & u & a & t1 & t2 & w1 & Hbase & E & Hcur & Hu & Ha & _).
  assert (Hmsgs : Conversation.messages base = currentMessages w).
  { unfold currentMessages.
    change (conversationStore.currentConversation (set_isLoading true w))
      with (conversationStore.currentConversation w) in Hbase.
    destruct (conversationStore.currentConversation w); [now subst|].
    tauto. }
  exists request, u, a, w1,
    (conversationStore.pushMessage a t2 (conversationStore.pushMessage u t1 base)).
  split; [exact E|]. split; [exact Hcur|].
  assert (Hm : Conversation.messages
                 (conversationStore.pushMessage a t2
                    (conversationStore.pushMessage u t1 base))
               = currentMessages w ++ [u; a]).
  { cbn. rewrite Hmsgs. now rewrite <- app_assoc. }
  split; [exact Hm|]. split.
  { eexists. split; [exact Hcur|]. split; [reflexivity|]. split; [|reflexivity].
    rewrite Hm. symmetry. apply update_first_same. reflexivity. }
  split.
  { change (currentMessages w ++ [u; a]) with (currentMessages w ++ [u] ++ [a]).
    rewrite app_assoc. apply (find_app_some _ _ _ a). cbn.
    unfold conversationStore.msgHasId. now rewrite String.eqb_refl. }
  split.
  { pose proof (sendMessage_begin_page content (set_isLoading true w)) as [H _].
    rewrite E in H. exact H. }
  split.
  { pose proof (perform_elsewhere (SendBegin content) (set_isLoading true w)) as H.
    cbn [perform] in H. unfold bind in H. rewrite E in H. exact H. }
  rewrite Hu. repeat split. exact Ha.
Qed.

(** ** How a send ends *)




Lemma isStreamingAssistant_settled (c : string) (m : Message.t) :
  conversationStore.isStreamingAssistant (conversationStore.settled c m) = false.
Proof. unfold conversationStore.isStreamingAssistant. cbn. apply andb_false_r. Qed.

(** Where the apology lands when no older message is streaming: on the
    assistant message of the send, whatever the fragments did before. *)
Lemma apology_lands (aid : string) (ds : list string)
    (before : list Message.t) (u a : Message.t) :
  Message.role u = Message.user ->
  conversationStore.isStreamingAssistant a = true ->
  List.find conversationStore.isStreamingAssistant before = None ->
  let l := update_first conversationStore.isStreamingAssistant
             (conversationStore.settled conversationStore.apology)
             (update_first (conversationStore.msgHasId aid) (appendAll ds)
                (before ++ [u; a])) in
  l !! S (length before)
  = Some (conversationStore.settled conversationStore.apology a)
  /\ List.find conversationStore.isStreamingAssistant l = None.
Proof.
  intros Hu Ha Hbefore. cbv zeta.
  pose proof (update_first_cases (conversationStore.msgHasId aid) (appendAll ds)
                (before ++ [u; a])) as H.
  apply Forall2_app_inv_l in H as (B & T & HB & HT & ->).
  inversion HT as [|u0 u' t1 t1' Hu' HT1]; subst. clear HT.
  inversion HT1 as [|a0 a' t2 t2' Ha' HT2]; subst. clear HT1.
  inversion HT2; subst. clear HT2.
  assert (Hsame : forall x y,
             y = x \/ (conversationStore.msgHasId aid x = true /\ y = appendAll ds x) ->
             conversationStore.isStreamingAssistant y
             = conversationStore.isStreamingAssistant x
             /\ conversationStore.settled conversationStore.apology y
                = conversationStore.settled conversationStore.apology x).
  { intros x y [->|[_ ->]]; [auto|].
    split; [apply isStreamingAssistant_appendAll | apply settled_appendAll]. }
  assert (HB' : List.find conversationStore.isStreamingAssistant B = None
                /\ length B = length before).
  { clear - HB Hbefore Hsame. induction HB as [|x y l l' Hxy HB IH]; [auto|].
    cbn in *. destruct (Hsame x y Hxy) as [-> _].
    destruct (conversationStore.isStreamingAssistant x); [discriminate|].
    destruct (IH Hbefore) as [-> ->]. auto. }
  destruct HB' as [HBnone HBlen].
  destruct (Hsame _ _ Hu') as [Hu1 _]. destruct (Hsame _ _ Ha') as [Ha1 Ha2].
  assert (Hu2 : conversationStore.isStreamingAssistant u' = false).
  { rewrite Hu1. unfold conversationStore.isStreamingAssistant. now rewrite Hu. }
  rewrite update_first_app_r by exact HBnone.
  cbn [update_first]. rewrite Hu2, Ha1, Ha, Ha2. split.
  - rewrite lookup_app_r by lia. rewrite HBlen.
    replace (S (length before) - length before)%nat with 1%nat by lia.
    reflexivity.
  - rewrite find_app_r by exact HBnone. cbn. rewrite Hu2.
    now rewrite isStreamingAssistant_settled.
Qed.




(** X10.  When the request fails and nothing else happens meanwhile — [fetch]
    rejects, the status is not a success, the response has no body, a read
    rejects before the sentinel, or the browser refuses the access to
    localStorage that precedes the request — [sendMessage] returns normally
    with [isLoading] cleared and the conversation has its two new messages.
    When no older message of the conversation was still streaming, the
    assistant message of the send holds the apology and is no longer
    streaming, no message of the conversation is left streaming, and the
    list is saved. *)
Theorem failed_send_settles_with_the_apology
    (content : string) (net : Exchange World) (w : World) :
  quiet net ->
  fails net = true \/ accessDenied (localStorage w) = true ->
  let w' := worldAfter (conversationStore.sendMessage content net) w in
  exists request aiMessage w1 conv,
    conversationStore.sendMessage_begin content (set_isLoading true w)
    = (Ok (request, aiMessage), w1)
    /\ outcome (conversationStore.sendMessage content net) w = Ok tt
    /\ isLoading w' = false
    /\ conversationStore.currentConversation w' = Some conv
    /\ length (Conversation.messages conv) = (length (currentMessages w) + 2)%nat
    /\ (List.find conversationStore.isStreamingAssistant (currentMessages w) = None ->
        Conversation.messages conv !! S (length (currentMessages w))
        = Some (conversationStore.settled conversationStore.apology aiMessage)
        /\ List.find conversationStore.isStreamingAssistant
             (Conversation.messages conv) = None
        /\ ChatMessages_text
             (conversationStore.settled conversationStore.apology aiMessage)
           = conversationStore.apology)
    /\ (storageWritable w -> inSync w').
Proof.
  intros Hquiet Hfails. cbv zeta.
  destruct (sendMessage_begin_streaming content w)
    as (request & u & a & w1 & conv1 & E & Hcur1 & Hm1 & Hst & Hfound & Hl1
        & (Ha1 & Hq1 & _) & Hu1 & Hu2 & Hu3 & Ha).
  assert (HaSA : conversationStore.isStreamingAssistant a = true)
    by (rewrite Ha; reflexivity).
  (* Every failure ends in the error handling, on a state that is streaming. *)
  assert (Hend : exists ds w2,
             chatAPI.sendMessage getItem readClock request
               (Some (conversationStore.onChunk (Message.id a)))
               (Some (conversationStore.onComplete (Message.id a)))
               (Some conversationStore.onError) net w1
             = conversationStore.settleWithApology w2
             /\ streamingState (Message.id a) (Conversation.id conv1)
                  (currentMessages w ++ [u; a]) (localStorage w1) ds w2).
  { rewrite chatAPI_sendMessage_quiet by exact Hquiet. rewrite Ha1.
    destruct (accessDenied (localStorage w)) eqn:Hacc; [now exists [], w1|].
    destruct Hfails as [Hfails|Hfails]; [|discriminate].
    unfold fails in Hfails.
    destruct (response net) as [|[|] status [body|]] eqn:Hresp;
      try (now exists [], w1).
    apply andb_true_iff in Hfails as [Hsent Hfin].
    apply negb_true_iff in Hsent.
    destruct (quiet_body net _ _ _ Hquiet Hresp) as [Hreads Hlast].
    pose proof (readLoop_streaming (Message.id a) (Conversation.id conv1)
                  (currentMessages w ++ [u; a]) (localStorage w1) request Hfound
                  (reads body) (whileLastRead body) (ending body) Hreads Hlast
                  [] w1 Hst) as Hloop.
    cbv zeta in Hloop. rewrite Hsent in Hloop. cbn [app joined fold_right] in Hloop.
    destruct (chatAPI.readLoop _ _ _ _ _ _ _ _ _) as [[[]|e] w2].
    - destruct Hloop as (_ & Hfin' & _). rewrite Hfin' in Hfin. discriminate.
    - destruct Hloop as (_ & _ & _ & Hst2). now exists (payloadsOf (reads body)), w2. }
  destruct Hend as (ds & w2 & Eapi & Hst2).
  assert (Hl2 : isLoading w2 = isLoading w2) by reflexivity.
  rewrite settleWithApology_settleFirst in Eapi.
  destruct (settleFirst_streaming (Message.id a) (Conversation.id conv1)
              (currentMessages w ++ [u; a]) (localStorage w1)
              conversationStore.isStreamingAssistant
              (conversationStore.settled conversationStore.apology) ds w2 Hst2)
    as (w3 & Esettle & (conv & Hcur & Hid & Hm & Ha3 & Hq3 & Hsave) & _).
  exists request, a, w1, conv.
  unfold outcome, worldAfter. rewrite (sendMessage_run content net w _ _ _ E).
  rewrite Eapi, Esettle. cbn [fst snd].
  split; [exact E|]. split; [reflexivity|]. split; [reflexivity|].
  split; [exact Hcur|]. split.
  { rewrite Hm, !update_first_length, length_app. reflexivity. }
  split.
  { intros Hnone.
    destruct (apology_lands (Message.id a) ds (currentMessages w) u a
                Hu1 HaSA Hnone) as [Hat Hleft].
    cbv zeta in Hat, Hleft. rewrite Hm.
    split; [exact Hat|]. split; [exact Hleft|]. rewrite Ha. reflexivity. }
  intros [Hw1 Hw2]. apply Hsave; try congruence.
  (* a streaming assistant message exists: the one of the send *)
  pose proof (update_first_cases (conversationStore.msgHasId (Message.id a))
                (appendAll ds) (currentMessages w ++ [u; a])) as H.
  clear - H HaSA.
  revert H. generalize (update_first (conversationStore.msgHasId (Message.id a))
                          (appendAll ds) (currentMessages w ++ [u; a])).
  change (currentMessages w ++ [u; a]) with (currentMessages w ++ [u] ++ [a]).
  rewrite app_assoc. generalize (currentMessages w ++ [u]).
  intros pre l H. apply Forall2_app_inv_l in H as (B & T & _ & HT & ->).
  inversion HT as [|a0 a' t t' Ha' HT']; subst. inversion HT'; subst.
  apply (find_app_some _ _ _ a'). cbn.
  replace (conversationStore.isStreamingAssistant a') with true; [reflexivity|].
  destruct Ha' as [->|[_ ->]]; [now rewrite HaSA|].
  now rewrite isStreamingAssistant_appendAll, HaSA.
Qed.

Lemma failed_send_settles_with_the_apology_witness :
  exists conv,
    conversationStore.currentConversation
      (worldAfter (conversationStore.sendMessage "hello" failure)
                  (newStore emptyStorage)) = Some conv
    /\ option_map Message.content (Conversation.messages conv !! 1%nat)
       = Some conversationStore.apology.
Proof.
  assert (Hq : quiet failure) by (split; [reflexivity | exact I]).
  destruct (failed_send_settles_with_the_apology "hello" failure
              (newStore emptyStorage) Hq (or_introl eq_refl))
    as (request & a & w1 & conv & E & _ & _ & Hcur & _ & Hat & _).
  exists conv. split; [exact Hcur|].
  destruct (Hat eq_refl) as [H _].
  change (S (length (currentMessages (newStore emptyStorage)))) with 1%nat in H.
  rewrite H. reflexivity.
Defined.

(** ** Fragments on the page *)

Lemma steps_app (xs ys : list Action) (w : World) :
  steps (xs ++ ys) w = steps ys (steps xs w).
Proof. unfold steps. apply fold_left_app. Qed.

Section Fragments.

Variable aid cid : string.
Variable msgs : list Message.t.
Variable ls : LocalStorage.
Hypothesis found : List.find (conversationStore.msgHasId aid) msgs <> None.

Lemma chunks_streaming (fragments : list string) :
  forall (ds : list string) (w : World),
    streamingState aid cid msgs ls ds w ->
    streamingState aid cid msgs ls (ds ++ fragments)
      (steps (map (StreamChunk aid) fragments) w)
    /\ samePage w (steps (map (StreamChunk aid) fragments) w)
    /\ currentConversationId (steps (map (StreamChunk aid) fragments) w)
       = currentConversationId w.
Proof.
  induction fragments as [|d rest IH]; intros ds w Hst.
  - rewrite app_nil_r. cbn. split; [exact Hst|]. split; [apply samePage_refl|].
    reflexivity.
  - cbn [map]. rewrite steps_cons.
    destruct (onChunk_streaming aid cid msgs ls found d ds w Hst)
      as (w' & E & Hst' & _ & _ & _ & Hl & Hi).
    unfold step, worldAfter. cbn [perform]. rewrite E. cbn [snd].
    destruct (IH (ds ++ [d]) w' Hst') as (H1 & H2 & H3).
    rewrite <- app_assoc in H1. split; [exact H1|]. split; [|congruence].
    eapply samePage_trans; [|exact H2].
    unfold conversationStore.onChunk in E. unfold bind at 1 in E.
    destruct Hst as (conv & Hcur & _ & Hm & _).
    rewrite (findCurrentConversation_run w conv Hcur) in E.
    destruct (List.find _ (Conversation.messages conv)); unfold modify, ret in E;
      injection E as <-; repeat split.
Qed.

End Fragments.

(** X11.  While an assistant message streams, the fragments that arrive are
    appended to its [displayContent], in order, and that is the text the page
    shows for it; its content and its streaming flag do not change, no other
    message changes, and nothing is written to localStorage: the fragments
    are persisted only when the message is settled. *)
Theorem fragments_accumulate_in_the_display
    (aiId : string) (fragments : list string) (w : World)
    (conv : Conversation.t) (m : Message.t) (shown : string) :
  conversationStore.currentConversation w = Some conv ->
  messageOf aiId conv = Some m ->
  Message.displayContent m = Some shown ->
  let w' := steps (map (StreamChunk aiId) fragments) w in
  exists conv' m',
    conversationStore.currentConversation w' = Some conv'
    /\ Conversation.messages conv'
       = update_first (conversationStore.msgHasId aiId) (fun _ => m')
           (Conversation.messages conv)
    /\ messageOf aiId conv' = Some m'
    /\ Message.displayContent m' = Some (shown ++ joined fragments)%string
    /\ Message.content m' = Message.content m
    /\ Message.isStreaming m' = Message.isStreaming m
    /\ Message.role m' = Message.role m
    /\ (conversationStore.isStreamingAssistant m = true ->
        ChatMessages_text m' = (shown ++ joined fragments)%string)
    /\ localStorage w' = localStorage w
    /\ isLoading w' = isLoading w.
Proof.
  intros Hcur Hm Hshown. cbv zeta.
  assert (Hfound : List.find (conversationStore.msgHasId aiId)
                     (Conversation.messages conv) <> None).
  { unfold messageOf in Hm. congruence. }
  assert (Hst : streamingState aiId (Conversation.id conv)
                  (Conversation.messages conv) (localStorage w) [] w).
  { exists conv. split; [exact Hcur|]. split; [reflexivity|].
    split; [|reflexivity]. symmetry. now apply update_first_same. }
  destruct (chunks_streaming aiId (Conversation.id conv)
              (Conversation.messages conv) (localStorage w) Hfound
              fragments [] w Hst)
    as ((conv' & Hcur' & _ & Hm' & Hls) & (Hl & _) & _).
  cbn [app] in Hm'.
  destruct (appendAll_fields fragments m) as (_ & Hrole & Hcontent & _ & Hstream & _).
  exists conv', (appendAll fragments m).
  split; [exact Hcur'|]. split.
  { rewrite Hm'. unfold messageOf in Hm. now apply update_first_found. }
  split.
  { unfold messageOf. rewrite Hm'.
    rewrite find_update_first by (intros x Hx; now rewrite msgHasId_appendAll).
    unfold messageOf in Hm. now rewrite Hm. }
  split; [now apply appendAll_display|].
  split; [exact Hcontent|]. split; [exact Hstream|]. split; [exact Hrole|].
  split; [|split; [exact Hls | exact Hl]].
  intros Hsa. unfold ChatMessages_text.
  unfold conversationStore.isStreamingAssistant in Hsa.
  rewrite Hrole, Hstream, (appendAll_display fragments m shown Hshown).
  destruct (Message.role m); [discriminate|].
  now destruct (Message.isStreaming m) as [[|]|].
Qed.

Lemma fragments_accumulate_in_the_display_witness :
  exists conv' m',
    conversationStore.currentConversation
      (steps (map (StreamChunk "g") ["Hel"; "lo"]) streamingWorld) = Some conv'
    /\ messageOf "g" conv' = Some m'
    /\ Message.displayContent m' = Some "Hello".
Proof.
  assert (H : exists conv m,
             conversationStore.currentConversation streamingWorld = Some conv
             /\ messageOf "g" conv = Some m
             /\ Message.displayContent m = Some "").
  { eexists _, _. split; [vm_compute; reflexivity|].
    split; vm_compute; reflexivity. }
  destruct H as (conv & m & Hcur & Hm & Hshown).
  destruct (fragments_accumulate_in_the_display "g" ["Hel"; "lo"] streamingWorld
              conv m "" Hcur Hm Hshown)
    as (conv' & m' & Hcur' & _ & Hm' & Hd & _).
  exists conv', m'. split; [exact Hcur'|]. split; [exact Hm'|]. exact Hd.
Defined.

(** ** A stream that ends before the sentinel *)





(** ** The page: what is sent, and what comes back to the handler *)

Lemma dropSpaces_idempotent (l : list string) :
  dropSpaces (dropSpaces l) = dropSpaces l.
Proof.
  induction l as [|u l IH]; [reflexivity|]. cbn [dropSpaces].
  destruct (is_space u) eqn:Hu; [exact IH|]. cbn [dropSpaces]. now rewrite Hu.
Qed.

Lemma dropSpaces_head (l : list string) :
  dropSpaces l = [] \/ exists u r, dropSpaces l = u :: r /\ is_space u = false.
Proof.
  induction l as [|u l IH]; [now left|].
  cbn [dropSpaces]. destruct (is_space u) eqn:Hu; [exact IH|].
  right. now exists u, l.
Qed.

Lemma dropSpaces_suffix (l : list string) :
  exists dropped, l = dropped ++ dropSpaces l.
Proof.
  induction l as [|u l [d IH]]; [now exists []|]. cbn [dropSpaces].
  destruct (is_space u); [|now exists []].
  exists (u :: d). cbn [app]. now rewrite <- IH.
Qed.

Lemma dropSpaces_snoc (l : list string) (u : string) :
  is_space u = false -> dropSpaces (l ++ [u]) = dropSpaces l ++ [u].
Proof.
  intros Hu. induction l as [|v l IH]; cbn [app dropSpaces]; [now rewrite Hu|].
  now destruct (is_space v).
Qed.

Lemma trim_end_cons (u : string) (r : list string) :
  is_space u = false -> trim_end (u :: r) = u :: trim_end r.
Proof.
  intros Hu. unfold trim_end. cbn [rev].
  rewrite dropSpaces_snoc by exact Hu. rewrite rev_app_distr. reflexivity.
Qed.

Lemma trim_end_idempotent (l : list string) : trim_end (trim_end l) = trim_end l.
Proof.
  unfold trim_end. now rewrite rev_involutive, dropSpaces_idempotent.
Qed.

Lemma trim_end_prefix (l : list string) :
  exists dropped, l = trim_end l ++ dropped.
Proof.
  unfold trim_end. destruct (dropSpaces_suffix (rev l)) as [d H].
  exists (rev d). rewrite <- rev_app_distr, <- H. now rewrite rev_involutive.
Qed.

(** Trimming the units at both ends, once more. *)
Lemma trim_units_idempotent (l : list string) :
  trim_end (trim_start (trim_end (trim_start l))) = trim_end (trim_start l).
Proof.
  unfold trim_start. destruct (dropSpaces_head l) as [->|(u & r & -> & Hu)].
  - reflexivity.
  - rewrite trim_end_cons by exact Hu. cbn [dropSpaces]. rewrite Hu.
    rewrite trim_end_cons by exact Hu. now rewrite trim_end_idempotent.
Qed.

Lemma units_trim (s : string) :
  units (trim s) = trim_end (trim_start (units s)).
Proof.
  unfold trim. apply units_joined.
  destruct (trim_end_prefix (trim_start (units s))) as [d Hd].
  destruct (dropSpaces_suffix (units s)) as [d' Hd'].
  pose proof (segmented_units s) as H. rewrite Hd' in H.
  apply segmented_app in H as [_ H]. unfold trim_start in Hd.
  rewrite Hd in H. now apply segmented_app in H as [H _].
Qed.

Lemma trim_idempotent (s : string) : trim (trim s) = trim s.
Proof.
  unfold trim at 1. rewrite units_trim, trim_units_idempotent. reflexivity.
Qed.

Lemma truthy_length (s : string) :
  (0 <? js_length s)%nat = truthy s.
Proof.
  destruct s as [|c s]; [reflexivity|]. unfold js_length.
  now destruct (units_head c s) as (k & more & ->).
Qed.

(** X13.  What ChatInput sends is the text of the input without the white space
    around it, and it sends only a text that MainContent accepts: when
    [canSend] holds, [handleSend] ends in the [sendMessage] of the store on
    the trimmed text — the guard of [handleSendMessage], which trims again,
    never drops it; when [canSend] does not hold, nothing happens.  Trimming
    twice is trimming once.  A key pressed with Shift never sends. *)
Theorem ChatInput_sends_the_trimmed_text
    (localValue : string) (net : Exchange World) (w : World) :
  ChatInput_handleSend localValue net w
  = (if ChatInput.canSend localValue (mainIsLoading w)
     then match conversationStore.sendMessage (trim localValue) net
                  (set_mainIsLoading true w) with
          | (Ok _, w1) => (Ok tt, set_mainIsLoading false (set_inputText "" w1))
          | (Throw _, w1) => (Ok tt, set_mainIsLoading false w1)
          end
     else (Ok tt, w))
  /\ trim (trim localValue) = trim localValue
  /\ (forall key, ChatInput_handleKeydown key true localValue net w = (Ok tt, w))
  /\ ChatInput_handleKeydown "Enter" false localValue net w
     = ChatInput_handleSend localValue net w.
Proof.
  split; [|split; [apply trim_idempotent|split]].
  - unfold ChatInput_handleSend. unfold bind at 1, gets at 1.
    destruct (ChatInput.canSend localValue (mainIsLoading w)) eqn:Hcan;
      [|reflexivity].
    unfold ChatInput.canSend in Hcan. apply andb_true_iff in Hcan as [Hlen Hload].
    apply negb_true_iff in Hload. rewrite truthy_length in Hlen.
    apply handleSendMessage_runs; [exact Hload|].
    rewrite trim_idempotent. now destruct (trim localValue).
  - intros key. unfold ChatInput_handleKeydown. now rewrite andb_false_r.
  - reflexivity.
Qed.

(** Every send that nothing disturbs returns normally. *)
Lemma sendMessage_quiet_returns (content : string) (net : Exchange World)
    (w : World) :
  quiet net ->
  outcome (conversationStore.sendMessage content net) w = Ok tt
  /\ isLoading (worldAfter (conversationStore.sendMessage content net) w) = false.
Proof.
  intros Hquiet.
  destruct (sendMessage_begin_streaming content w)
    as (request & u & a & w1 & conv1 & E & Hcur1 & Hm1 & Hst & Hfound & _).
  unfold outcome, worldAfter. rewrite (sendMessage_run content net w _ _ _ E).
  assert (Herr : forall e ds w2,
             streamingState (Message.id a) (Conversation.id conv1)
               (currentMessages w ++ [u; a]) (localStorage w1) ds w2 ->
             exists w3, conversationStore.onError e w2 = (Ok tt, w3)).
  { intros e ds w2 Hst2. unfold conversationStore.onError.
    rewrite settleWithApology_settleFirst.
    destruct (settleFirst_streaming (Message.id a) (Conversation.id conv1)
                (currentMessages w ++ [u; a]) (localStorage w1)
                conversationStore.isStreamingAssistant
                (conversationStore.settled conversationStore.apology) ds w2 Hst2)
      as (w3 & Es & _). now exists w3. }
  rewrite chatAPI_sendMessage_quiet by exact Hquiet.
  destruct (accessDenied (localStorage w1)).
  { destruct (Herr DOMException [] w1 Hst) as [w3 ->]. now split. }
  destruct (response net) as [|[|] status [body|]] eqn:Hresp.
  - destruct (Herr NetworkError [] w1 Hst) as [w3 ->]. now split.
  - destruct (quiet_body net _ _ _ Hquiet Hresp) as [Hreads Hlast].
    pose proof (readLoop_streaming (Message.id a) (Conversation.id conv1)
                  (currentMessages w ++ [u; a]) (localStorage w1) request Hfound
                  (reads body) (whileLastRead body) (ending body) Hreads Hlast
                  [] w1 Hst) as Hloop.
    cbv zeta in Hloop. cbn [app joined fold_right] in Hloop.
    destruct (chatAPI.readLoop _ _ _ _ _ _ _ _ _) as [[[]|e] w2]; [now split|].
    destruct Hloop as (_ & _ & _ & Hst2).
    destruct (Herr e _ w2 Hst2) as [w3 ->]. now split.
  - destruct (Herr NoReaderError [] w1 Hst) as [w3 ->]. now split.
  - destruct (Herr (HttpError status) [] w1 Hst) as [w3 ->]. now split.
  - destruct (Herr (HttpError status) [] w1 Hst) as [w3 ->]. now split.
Qed.

(** X14.  [handleSendMessage] never throws, whatever the store and the network do,
    and it leaves the loading flag of MainContent as it found it: set when a
    send was already in flight, cleared otherwise.  After a send that nothing
    disturbed — answered, failed or cut short alike, since the store reports
    a failure through the message and not through an error — the input text
    is emptied and the loading flag of the store is cleared too. *)
Theorem handleSendMessage_always_returns
    (content : string) (net : Exchange World) (w : World) :
  let w' := worldAfter (MainContent.handleSendMessage content net) w in
  outcome (MainContent.handleSendMessage content net) w = Ok tt
  /\ mainIsLoading w' = mainIsLoading w
  /\ (quiet net -> mainIsLoading w = false -> trim content <> "" ->
      inputText w' = "" /\ isLoading w' = false).
Proof.
  cbv zeta. unfold outcome, worldAfter.
  destruct (mainIsLoading w) eqn:Hload.
  - rewrite handleSendMessage_ignored by exact Hload. cbn.
    split; [reflexivity|]. split; [exact Hload | discriminate].
  - destruct (string_dec (trim content) "") as [Hblank|Hblank].
    + unfold MainContent.handleSendMessage, bind, gets. rewrite Hblank, Hload. cbn.
      split; [reflexivity|]. split; [exact Hload | contradiction].
    + rewrite handleSendMessage_runs by assumption.
      destruct (conversationStore.sendMessage content net (set_mainIsLoading true w))
        as [[[]|e] w1] eqn:E; cbn [fst snd].
      * split; [reflexivity|]. split; [reflexivity|]. intros Hquiet _ _.
        split; [reflexivity|].
        pose proof (sendMessage_quiet_returns content net
                      (set_mainIsLoading true w) Hquiet) as [_ Hl].
        unfold worldAfter in Hl. rewrite E in Hl. exact Hl.
      * split; [reflexivity|]. split; [reflexivity|]. intros Hquiet _ _.
        pose proof (sendMessage_quiet_returns content net
                      (set_mainIsLoading true w) Hquiet) as [Hout _].
        unfold outcome in Hout. rewrite E in Hout. discriminate.
Qed.

(** ** The API and its callbacks *)

(** X15.  An error never escapes [chatAPI.sendMessage] unless [onError] itself
    throws: whatever the response, whatever the other callbacks do and
    whatever happens meanwhile, it returns normally when the error callback
    does — and always when none is given, the simulated reply taking over. *)
Theorem errors_never_escape_the_API {W : Type}
    (getItem : string -> M W (option Text)) (Date_now : W -> Z * W)
    (request : ChatRequest) (onChunk : option (string -> M W unit))
    (onComplete : option (ChatResponse -> M W unit))
    (onError : option (Error -> M W unit)) (net : Exchange W) (w : W) :
  (forall f e w', onError = Some f -> is_ok (fst (f e w')) = true) ->
  fst (chatAPI.sendMessage getItem Date_now request onChunk onComplete onError net w)
  = Ok tt.
Proof.
  intros Herr. unfold chatAPI.sendMessage, try_catch.
  match goal with |- context [match ?body w with _ => _ end] =>
    destruct (body w) as [[[]|e] w1] end; [reflexivity|].
  destruct onError as [f|].
  - specialize (Herr f e w1 eq_refl). now destruct (f e w1) as [[[]|e'] w2].
  - unfold chatAPI.sendMessageMock, try_catch.
    match goal with |- context [match ?body w1 with _ => _ end] =>
      destruct (body w1) as [[[]|e'] w2] end; reflexivity.
Qed.

Lemma errors_never_escape_the_API_witness :
  fst (chatAPI.sendMessage getItem readClock
         {| req_messages := []; req_model := "deepseek-chat"; req_deepThink := false;
            req_useSearch := false; req_conversationId := None;
            req_message := Some "hello" |}
         None None (Some (fun _ => ret tt)) failure (newStore emptyStorage))
  = Ok tt.
Proof.
  apply (errors_never_escape_the_API getItem readClock _ None None
           (Some (fun _ => ret tt)) failure (newStore emptyStorage)).
  intros f e w' [= <-]. reflexivity.
Defined.

Lemma units_single (s : string) : Forall (fun unit => js_length unit = 1%nat) (units s).
Proof.
  destruct (segmented_units s) as [H _]. revert H. apply List.Forall_impl.
  intros [|c k] Hu; [discriminate|]. unfold js_length.
  now rewrite units_unit.
Qed.

Lemma mockLoop_calls {W} (onChunk : string -> M W unit) (chunks : list string) :
  (forall d w, is_ok (fst (onChunk d w)) = true) ->
  forall (acc : string) (w : W) (tr : list Call),
  exists w',
    chatAPI.mockLoop (Some (recorded CallChunk onChunk)) chunks acc (w, tr)
    = (Ok (acc ++ joined chunks)%string, (w', tr ++ map CallChunk chunks)).
Proof.
  intros Hok. induction chunks as [|d rest IH]; intros acc w tr.
  - cbn. rewrite app_nil_r, append_empty_r. now exists w.
  - cbn [chatAPI.mockLoop call_opt]. unfold bind. unfold recorded at 1.
    cbn [fst snd].
    specialize (Hok d w). destruct (onChunk d w) as [[[]|e] w1]; [|discriminate].
    destruct (IH (acc ++ d)%string w1 (tr ++ [CallChunk d])) as [w' E].
    rewrite E. exists w'. cbn [map joined fold_right].
    now rewrite append_assoc, <- app_assoc.
Qed.

(** X16.  The simulated reply: when [onChunk] does not throw, [sendMessageMock]
    hands the reply to [onChunk] one code unit at a time, in order — as many
    calls as the reply has units — and then calls [onComplete] once, with
    the whole reply, which is the units joined; and it returns normally even
    when [onComplete] throws, no error callback being given.  It is what
    [sendMessage] falls back to when the request fails and no error callback
    was given. *)
Theorem sendMessageMock_streams_the_reply {W : Type}
    (getItem : string -> M W (option Text)) (Date_now : W -> Z * W)
    (request : ChatRequest) (onChunk : string -> M W unit)
    (onComplete : ChatResponse -> M W unit) (w : W) :
  (forall d w', is_ok (fst (onChunk d w')) = true) ->
  callsOfMock Date_now request onChunk onComplete w
  = map CallChunk (chatAPI.chunks request)
    ++ [CallComplete (chatAPI.mockResponse request)]
  /\ joined (chatAPI.chunks request) = chatAPI.mockResponse request
  /\ length (chatAPI.chunks request) = js_length (chatAPI.mockResponse request)
  /\ Forall (fun chunk => js_length chunk = 1%nat) (chatAPI.chunks request)
  /\ fst (chatAPI.sendMessageMock Date_now request (Some onChunk) (Some onComplete)
            None w) = Ok tt
  /\ (forall hook token,
        getItem "auth_token" w = (Ok token, w) ->
        chatAPI.sendMessage getItem Date_now request (Some onChunk)
          (Some onComplete) None
          {| whileFetching := hook; response := FetchRejects |} w
        = chatAPI.sendMessageMock Date_now request (Some onChunk) (Some onComplete)
            None (hook w)).
Proof.
  intros Hok. split; [|split; [apply joined_units|split; [reflexivity|]]].
  2: split; [apply units_single|split].
  - unfold callsOfMock, chatAPI.sendMessageMock, try_catch.
    unfold bind at 1.
    destruct (mockLoop_calls onChunk (chatAPI.chunks request)
                Hok EmptyString w []) as [w' E].
    rewrite E. cbn [String.append app]. unfold chatAPI.chunks at 1.
    rewrite joined_units.
    unfold bind, total, liftedTotal, recorded. cbn [fst snd].
    destruct (Date_now w') as [id w1]. cbn [fst snd].
    destruct (Date_now w1) as [ts w2]. cbn [fst snd resp_content].
    now destruct (onComplete _ w2) as [[[]|e] w3].
  - unfold chatAPI.sendMessageMock, try_catch.
    match goal with |- context [match ?body w with _ => _ end] =>
      destruct (body w) as [[[]|e'] w2] end; reflexivity.
  - intros hook token Hget. unfold chatAPI.sendMessage, try_catch.
    unfold bind at 1. rewrite Hget. unfold bind at 1. unfold await, modify.
    cbn [whileFetching response]. unfold throw. reflexivity.
Qed.

Lemma sendMessageMock_streams_the_reply_witness :
  length (callsOfMock readClock
            {| req_messages := []; req_model := "m"; req_deepThink := false;
               req_useSearch := false; req_conversationId := None;
               req_message := Some "hi" |}
            (fun _ => ret tt) (fun _ => ret tt) (newStore emptyStorage))
  = 44%nat.
Proof.
  assert (Hok : forall (d : string) (w' : World),
             is_ok (fst ((fun _ => ret tt) d w' : Result unit * World)) = true)
    by reflexivity.
  rewrite (proj1 (sendMessageMock_streams_the_reply getItem readClock _
                    (fun _ => ret tt) (fun _ => ret tt) (newStore emptyStorage) Hok)).
  vm_compute. reflexivity.
Defined.

(** ** Round trips through localStorage *)

Lemma loadFromLocalStorage_outcome (key : string) (w : World) :
  outcome (loadFromLocalStorage key) w
  = Ok (match storedValue key w with Some v => v | None => JNull end).
Proof. unfold outcome. now rewrite loadFromLocalStorage_stored. Qed.

Lemma storedValue_persist (key other : string) (v : JSON) (w : World) :
  storedValue other (persist key v w)
  = if accessDenied (localStorage w) || quotaExceeded (localStorage w)
    then storedValue other w
    else if String.eqb other key then Some v else storedValue other w.
Proof.
  unfold persist.
  destruct (accessDenied (localStorage w) || quotaExceeded (localStorage w)) eqn:E;
    [reflexivity|].
  apply orb_false_iff in E as [Ha _]. unfold storedValue. cbn. rewrite Ha.
  destruct (String.eqb other key) eqn:Hk.
  - apply String.eqb_eq in Hk as ->. now rewrite lookup_insert_eq.
  - apply String.eqb_neq in Hk. now rewrite lookup_insert_ne by congruence.
Qed.

(** X17.  [saveToLocalStorage] never throws, and changes nothing but the slot it
    writes.  When the browser accepts the write, [loadFromLocalStorage] of
    the same key returns the value that was saved; when it refuses, the
    failure is swallowed and a later load returns what it returned before.
    A load of another key is not affected. *)
Theorem save_then_load_round_trip (key other : string) (data : JSON) (w : World) :
  let w' := worldAfter (saveToLocalStorage key data) w in
  outcome (saveToLocalStorage key data) w = Ok tt
  /\ outcome (loadFromLocalStorage key) w'
     = (if accessDenied (localStorage w) || quotaExceeded (localStorage w)
        then outcome (loadFromLocalStorage key) w
        else Ok data)
  /\ (other <> key ->
      outcome (loadFromLocalStorage other) w'
      = outcome (loadFromLocalStorage other) w)
  /\ conversations w' = conversations w
  /\ currentConversationId w' = currentConversationId w.
Proof.
  cbv zeta. unfold worldAfter. unfold outcome at 1.
  rewrite saveToLocalStorage_run. cbn [fst snd].
  rewrite !loadFromLocalStorage_outcome, !storedValue_persist.
  rewrite String.eqb_refl.
  split; [reflexivity|]. split.
  { now destruct (accessDenied (localStorage w) || quotaExceeded (localStorage w)). }
  split.
  { intros Hne. apply String.eqb_neq in Hne. rewrite Hne.
    now destruct (accessDenied (localStorage w) || quotaExceeded (localStorage w)). }
  split; [apply persist_conversations | apply persist_currentConversationId].
Qed.

Lemma storage_saveConversations_run (l : list Conversation.t) (w : World) :
  storage.saveConversations l w
  = if accessDenied (localStorage w) || quotaExceeded (localStorage w)
    then (Throw DOMException, w)
    else (Ok tt,
          set_localStorage
            {| items := <[STORAGE_KEYS.CONVERSATIONS := Encoded (JConversations l)]>
                          (items (localStorage w));
               accessDenied := accessDenied (localStorage w);
               quotaExceeded := quotaExceeded (localStorage w) |} w).
Proof. reflexivity. Qed.

(** X18.  The helpers of [storage]: unlike [saveToLocalStorage],
    [storage.saveConversations] lets a refused write throw, and then nothing
    is written.  When the write is accepted, [storage.getConversations]
    returns the list that was saved; the list of the store in memory and the
    slot that the store loads from are not touched: the store never sees
    what these helpers save. *)
Theorem storage_conversations_round_trip (l : list Conversation.t) (w : World) :
  let w' := worldAfter (storage.saveConversations l) w in
  if accessDenied (localStorage w) || quotaExceeded (localStorage w)
  then storage.saveConversations l w = (Throw DOMException, w)
  else outcome (storage.saveConversations l) w = Ok tt
       /\ outcome storage.getConversations w' = Ok (JConversations l)
       /\ conversations w' = conversations w
       /\ outcome (loadFromLocalStorage "conversations") w'
          = outcome (loadFromLocalStorage "conversations") w
       /\ conversations (worldAfter conversationStore.loadConversations w')
          = conversations (worldAfter conversationStore.loadConversations w).
Proof.
  cbv zeta. unfold worldAfter, outcome.
  rewrite !storage_saveConversations_run.
  destruct (accessDenied (localStorage w) || quotaExceeded (localStorage w)) eqn:E;
    [reflexivity|].
  apply orb_false_iff in E as [Ha Hq]. cbn [fst snd].
  set (w' := set_localStorage _ w).
  assert (Hstored : storedValue "conversations" w' = storedValue "conversations" w).
  { unfold storedValue, w'. cbn. rewrite Ha.
    now rewrite lookup_insert_ne by discriminate. }
  split; [reflexivity|]. split; [|split; [reflexivity|split]].
  - unfold storage.getConversations, try_catch, bind, getItem, w'. cbn. rewrite Ha.
    rewrite lookup_insert_eq. reflexivity.
  - rewrite !loadFromLocalStorage_stored. cbn [fst].
    now rewrite Hstored.
  - rewrite !loadConversations_stored. cbn [snd].
    rewrite Hstored.
    change (currentConversationId w') with (currentConversationId w).
    destruct (storedValue "conversations" w) as [[| s | [|first rest] |]|];
      try reflexivity.
    now destruct (currentConversationId w) as [[|]|].
Qed.

(** X19.  The id of the current conversation through [storage]: after
    [saveCurrentConversationId(id)] with an id that is not empty,
    [getCurrentConversationId()] returns that id; a null or an empty id
    removes the entry, and the getter returns null — also when the storage is
    full, a removal needing no room.  A refused write or access throws: these
    two helpers catch nothing. *)
Theorem storage_current_id_round_trip (id : option string) (s : TextStorage) :
  let saved := storage_saveCurrentConversationId id s in
  if textAccessDenied s
  then saved = (Throw DOMException, s)
       /\ storage_getCurrentConversationId s = (Throw DOMException, s)
  else match id with
       | Some (String c rest) =>
           if textQuotaExceeded s then saved = (Throw DOMException, s)
           else fst saved = Ok tt
                /\ fst (storage_getCurrentConversationId (snd saved))
                   = Ok (Some (String c rest))
       | _ => fst saved = Ok tt
              /\ fst (storage_getCurrentConversationId (snd saved)) = Ok None
       end.
Proof.
  cbv zeta. unfold storage_saveCurrentConversationId, storage_getCurrentConversationId.
  destruct id as [[|c rest]|]; cbn [truthy];
    unfold text_setItem, text_removeItem, text_getItem;
    destruct (textAccessDenied s) eqn:Ha; cbn [orb]; try (split; reflexivity).
  - cbn. rewrite ?Ha. split; [reflexivity|]. now rewrite lookup_delete_eq.
  - destruct (textQuotaExceeded s); [reflexivity|].
    cbn. rewrite ?Ha. split; [reflexivity|]. now rewrite lookup_insert_eq.
  - cbn. rewrite ?Ha. split; [reflexivity|]. now rewrite lookup_delete_eq.
Qed.

(** ** A storage that refuses writes *)

Lemma nothingWritten_refl (w : World) : nothingWritten w w.
Proof. intros _. reflexivity. Qed.

Lemma nothingWritten_trans (w1 w2 w3 : World) :
  nothingWritten w1 w2 -> nothingWritten w2 w3 -> nothingWritten w1 w3.
Proof.
  unfold nothingWritten. intros H12 H23 H. specialize (H12 H).
  rewrite H12 in H23. rewrite (H23 H). reflexivity.
Qed.

Lemma nothingWritten_storage (w w' : World) :
  localStorage w' = localStorage w -> nothingWritten w w'.
Proof. intros H _. exact H. Qed.

Lemma nothingWritten_persist (key : string) (v : JSON) (w : World) :
  nothingWritten w (persist key v w).
Proof. intros H. unfold persist. now rewrite H. Qed.

Ltac keeps_unwritten :=
  repeat first
    [ apply (keeps_bind nothingWritten nothingWritten_trans); [|intros ?]
    | apply (keeps_ret nothingWritten nothingWritten_refl)
    | apply (keeps_gets nothingWritten nothingWritten_refl)
    | apply (keeps_unchanged nothingWritten _ nothingWritten_refl);
      first [ exact currentConversationValue_world
            | exact findCurrentConversation_world
            | apply loadFromLocalStorage_world
            | apply getItem_world ]
    | solve [apply keeps_total; intros ?; apply nothingWritten_storage; reflexivity]
    | solve [apply keeps_modify; intros ?; apply nothingWritten_storage; reflexivity]
    | intros ?; rewrite saveConversations_run; apply nothingWritten_persist
    | intros ?; rewrite saveToLocalStorage_run; apply nothingWritten_persist
    | match goal with
      | |- keeps _ (match ?x with _ => _ end) => destruct x
      | |- keeps _ (if ?x then _ else _) => destruct x
      end ].

Lemma perform_unwritten (a : Action) : keeps nothingWritten (perform a).
Proof.
  destruct a; cbn [perform];
    unfold conversationStore.loadConversations,
      conversationStore.createNewConversation,
      conversationStore.switchConversation,
      conversationStore.deleteConversation,
      conversationStore.updateConversationTitle,
      conversationStore.updateConversationSettings,
      conversationStore.addMessage,
      conversationStore.clearAllConversations,
      conversationStore.clearCurrentConversation,
      conversationStore.sendMessage_begin,
      conversationStore.sendMessage_messages,
      conversationStore.addMessage,
      conversationStore.createNewConversation,
      conversationStore.onChunk, conversationStore.onComplete,
      conversationStore.onError, conversationStore.settleWithApology,
      Date_now, generateId;
    keeps_unwritten.
Qed.

Lemma steps_unwritten (actions : list Action) (w : World) :
  nothingWritten w (steps actions w).
Proof.
  revert w. induction actions as [|a rest IH]; intros w.
  - apply nothingWritten_refl.
  - rewrite steps_cons. eapply nothingWritten_trans; [|apply IH].
    apply perform_unwritten.
Qed.

Lemma reloaded_storage (w w' : World) :
  localStorage w' = localStorage w ->
  conversations (reloaded w') = conversations (reloaded w)
  /\ currentConversationId (reloaded w') = currentConversationId (reloaded w).
Proof.
  intros H. pose proof (reloaded_stored w) as (Hc & Hi & _).
  pose proof (reloaded_stored w') as (Hc' & Hi' & _).
  assert (Hs : storedValue "conversations" w' = storedValue "conversations" w)
    by (unfold storedValue; now rewrite H).
  rewrite Hs in Hc', Hi'. split; congruence.
Qed.

(** X20.  The operations that save never report a refused write.  While the
    browser refuses writes — the storage is full, or disabled — every step
    of the store leaves localStorage exactly as it was, and so does a whole
    [sendMessage] when the handlers running meanwhile do; the operations
    that do not throw for another reason return normally all the same.  What
    was changed in memory is therefore lost when the page is loaded again:
    the store then has the list, and the current conversation, that a
    reload before the steps would have given. *)
Theorem refused_writes_lose_changes_silently (actions : list Action) (w : World) :
  accessDenied (localStorage w) || quotaExceeded (localStorage w) = true ->
  localStorage (steps actions w) = localStorage w
  /\ conversations (reloaded (steps actions w)) = conversations (reloaded w)
  /\ currentConversationId (reloaded (steps actions w))
     = currentConversationId (reloaded w)
  /\ (forall settings cid message title,
        is_ok (outcome (conversationStore.createNewConversation settings) w) = true
        /\ outcome (conversationStore.addMessage cid message) w = Ok tt
        /\ outcome (conversationStore.deleteConversation cid) w = Ok tt
        /\ outcome (conversationStore.updateConversationTitle cid title) w = Ok tt
        /\ outcome conversationStore.clearAllConversations w = Ok tt
        /\ outcome conversationStore.saveConversations w = Ok tt)
  /\ (forall content net,
        hooksStep nothingWritten net ->
        localStorage (worldAfter (conversationStore.sendMessage content net) w)
        = localStorage w).
Proof.
  intros Hfull. pose proof (steps_unwritten actions w Hfull) as Hls.
  split; [exact Hls|].
  destruct (reloaded_storage w _ Hls) as [Hc Hi].
  split; [exact Hc|]. split; [exact Hi|]. split.
  - intros settings cid message title. unfold outcome.
    destruct (createNewConversation_run settings w) as (c & w1 & -> & _).
    destruct (deleteConversation_run cid w) as (w2 & -> & _).
    destruct (clearAllConversations_run w) as (w3 & -> & _).
    rewrite saveConversations_run. cbn [fst is_ok].
    repeat split.
    + destruct (List.find (conversationStore.hasId cid) (conversations w)) eqn:Hf.
      * destruct (addMessage_found cid message w _ Hf) as (w4 & -> & _). reflexivity.
      * now rewrite (addMessage_not_found cid message w Hf).
    + unfold conversationStore.updateConversationTitle, bind, gets.
      destruct (List.find _ _); [|reflexivity].
      unfold Date_now, total, readClock, modify. cbn [fst snd].
      now rewrite saveConversations_run.
  - intros content net Hhooks.
    apply (sendMessage_by_pieces nothingWritten content net
             nothingWritten_refl nothingWritten_trans); auto.
    + intros a _. apply perform_unwritten.
    + intros w0. now apply nothingWritten_storage.
Qed.

Lemma refused_writes_lose_changes_silently_witness :
  conversations
    (reloaded (steps [CreateNewConversation None;
                      AddMessage "a" (noteMessage "m1" "one")]
                     (newStore fullStorage)))
  = [storedConversation].
Proof.
  assert (Hfull : accessDenied (localStorage (newStore fullStorage))
                  || quotaExceeded (localStorage (newStore fullStorage)) = true)
    by reflexivity.
  destruct (refused_writes_lose_changes_silently
              [CreateNewConversation None; AddMessage "a" (noteMessage "m1" "one")]
              (newStore fullStorage) Hfull) as (_ & Hc & _).
  rewrite Hc. vm_compute. reflexivity.
Defined.

(** ** Loading the page again while a send is pending *)

(** X21.  The assistant message is saved as soon as it is created, with
    [isStreaming] set.  When the page is loaded again before the send has
    ended — here, right after the request was made, on a storage that held
    the list in memory — the store has the conversation again with that
    message still marked as streaming and with its content empty, while
    nothing is loading any more: no callback is left to settle it. *)
Theorem reload_during_a_send_keeps_the_message_streaming
    (content : string) (w : World) :
  savedState (set_isLoading true w) ->
  exists request aiMessage w1 conv,
    conversationStore.sendMessage_begin content (set_isLoading true w)
    = (Ok (request, aiMessage), w1)
    /\ isLoading w1 = true
    /\ isLoading (reloaded w1) = false
    /\ In conv (conversations (reloaded w1))
    /\ In aiMessage (Conversation.messages conv)
    /\ conversationStore.isStreamingAssistant aiMessage = true
    /\ Message.content aiMessage = ""
    /\ ChatMessages_text aiMessage = "".
Proof.
  intros Hsaved.
  destruct (sendMessage_begin_streaming content w)
    as (request & u & a & w1 & conv1 & E & Hcur1 & Hm1 & _ & _ & Hl1 & _ & _ & _ & _ & Ha).
  pose proof (perform_saves (SendBegin content) eq_refl (set_isLoading true w)) as Hs.
  cbn [perform] in Hs. unfold bind in Hs. rewrite E in Hs. cbn [snd ret] in Hs.
  destruct (savesChanges_savedState _ _ Hs Hsaved) as [[Hacc _] Hsync].
  destruct (reload_restores_list w1 Hacc Hsync) as (Hc & _ & Hl).
  exists request, a, w1, conv1.
  split; [exact E|]. split; [exact Hl1|]. split; [exact Hl|]. split.
  { rewrite Hc. now apply (currentConversation_id w1 conv1). }
  split.
  { rewrite Hm1. apply in_or_app. right. right. now left. }
  rewrite Ha. repeat split.
Qed.

Lemma reload_during_a_send_keeps_the_message_streaming_witness :
  exists request aiMessage w1,
    conversationStore.sendMessage_begin "hello" (set_isLoading true oneMessageWorld)
    = (Ok (request, aiMessage), w1)
    /\ isLoading (reloaded w1) = false.
Proof.
  assert (Hs : savedState (set_isLoading true oneMessageWorld)).
  { split; [split; vm_compute; reflexivity|]. vm_compute. reflexivity. }
  destruct (reload_during_a_send_keeps_the_message_streaming "hello"
              oneMessageWorld Hs)
    as (request & a & w1 & conv & E & _ & Hl & _).
  exists request, a, w1. split; [exact E | exact Hl].
Defined.

(** ** The sidebar *)

Section SidebarOrder.

Let byUpdate (a b : Conversation.t) : Z :=
  (Conversation.updatedAt b - Conversation.updatedAt a)%Z.

Lemma Array_insert_perm (x : Conversation.t) (l : list Conversation.t) :
  Permutation (Array_insert byUpdate x l) (x :: l).
Proof.
  induction l as [|y rest IH]; cbn [Array_insert]; [reflexivity|].
  destruct (byUpdate x y <=? 0)%Z; [reflexivity|].
  rewrite IH. apply perm_swap.
Qed.

Lemma Array_insert_newestFirst (x : Conversation.t) (l : list Conversation.t) :
  newestFirst l -> newestFirst (Array_insert byUpdate x l).
Proof.
  induction l as [|y rest IH]; intros Hl; cbn [Array_insert].
  - cbn. split; [constructor | exact I].
  - destruct Hl as [Hy Hrest]. unfold byUpdate at 1.
    destruct (Z.leb_spec (Conversation.updatedAt y - Conversation.updatedAt x) 0).
    + cbn [newestFirst]. split; [|split; assumption].
      constructor; [lia|]. revert Hy. apply List.Forall_impl. intros d Hd. lia.
    + cbn [newestFirst]. split; [|now apply IH].
      rewrite (Array_insert_perm x rest). constructor; [lia | exact Hy].
Qed.

Lemma Array_insert_stable (t : Z) (x : Conversation.t) (l : list Conversation.t) :
  updatedAtTime t (Array_insert byUpdate x l) = updatedAtTime t (x :: l).
Proof.
  unfold updatedAtTime.
  induction l as [|y rest IH]; cbn [Array_insert]; [reflexivity|].
  unfold byUpdate at 1.
  destruct (Z.leb_spec (Conversation.updatedAt y - Conversation.updatedAt x) 0);
    [reflexivity|].
  cbn [List.filter] in *. rewrite IH.
  destruct (Z.eqb_spec (Conversation.updatedAt x) t);
    destruct (Z.eqb_spec (Conversation.updatedAt y) t); try reflexivity. lia.
Qed.

Lemma sortedConversations_cons (c : Conversation.t) (l : list Conversation.t) :
  Sidebar.sortedConversations (c :: l)
  = Array_insert byUpdate c (Sidebar.sortedConversations l).
Proof. reflexivity. Qed.

Lemma sortedConversations_facts (l : list Conversation.t) :
  Permutation (Sidebar.sortedConversations l) l
  /\ newestFirst (Sidebar.sortedConversations l)
  /\ forall t, updatedAtTime t (Sidebar.sortedConversations l) = updatedAtTime t l.
Proof.
  induction l as [|c rest (Hp & Hn & Hs)].
  - repeat split. reflexivity.
  - rewrite sortedConversations_cons. split; [|split].
    + rewrite Array_insert_perm. now constructor.
    + now apply Array_insert_newestFirst.
    + intros t. rewrite Array_insert_stable. unfold updatedAtTime in *.
      cbn [List.filter]. now rewrite (Hs t).
Qed.

End SidebarOrder.

Lemma newestFirst_sorted (l : list Conversation.t) :
  newestFirst l -> Sidebar.sortedConversations l = l.
Proof.
  induction l as [|c rest IH]; [reflexivity|]. intros [Hc Hrest].
  rewrite sortedConversations_cons, (IH Hrest).
  destruct rest as [|d rest']; [reflexivity|]. cbn [Array_insert].
  apply Forall_cons in Hc as [Hd _].
  destruct (Z.leb_spec (Conversation.updatedAt d - Conversation.updatedAt c) 0);
    [reflexivity | lia].
Qed.

(** X22.  The sidebar lists every conversation of the store exactly once, newest
    first by [updatedAt]; conversations updated at the same time keep the
    order they have in the store.  A list that is already in that order is
    shown as it is, and the collapsed sidebar shows at most five
    conversations, none older than one it leaves out. *)
Theorem Sidebar_lists_every_conversation_newest_first (l : list Conversation.t) :
  Permutation (Sidebar.sortedConversations l) l
  /\ newestFirst (Sidebar.sortedConversations l)
  /\ (forall t, updatedAtTime t (Sidebar.sortedConversations l) = updatedAtTime t l)
  /\ (newestFirst l -> Sidebar.sortedConversations l = l)
  /\ (length (Sidebar.collapsedConversations l) <= 5)%nat
  /\ (forall shown hidden,
        In shown (Sidebar.collapsedConversations l) ->
        In hidden l -> ~ In hidden (Sidebar.collapsedConversations l) ->
        (Conversation.updatedAt hidden <= Conversation.updatedAt shown)%Z).
Proof.
  destruct (sortedConversations_facts l) as (Hp & Hn & Hs).
  split; [exact Hp|]. split; [exact Hn|]. split; [exact Hs|].
  split; [apply newestFirst_sorted|]. split.
  { unfold Sidebar.collapsedConversations. rewrite length_take. lia. }
  intros shown hidden Hshown Hin Hout.
  unfold Sidebar.collapsedConversations in *.
  apply (Permutation_in _ (Permutation_sym Hp)) in Hin.
  rewrite <- (firstn_skipn 5 (Sidebar.sortedConversations l)) in Hin, Hn.
  apply in_app_or in Hin as [Hin|Hin]; [contradiction|].
  revert Hn Hshown Hin. generalize (firstn 5 (Sidebar.sortedConversations l)).
  generalize (skipn 5 (Sidebar.sortedConversations l)). intros back front.
  induction front as [|c front IH]; [intros _ []|].
  cbn [app newestFirst]. intros [Hc Hrest] [->|Hshown] Hin.
  - rewrite List.Forall_forall in Hc. apply Hc. apply in_or_app. now right.
  - now apply IH.
Qed.
Lemma update_first_contents (p : Message.t -> bool) (ds : list string)
    (l : list Message.t) :
  map Message.content (update_first p (appendAll ds) l) = map Message.content l.
Proof.
  induction l as [|m l IH]; cbn [update_first map]; [reflexivity|].
  destruct (p m); cbn [map]; [|now rewrite IH].
  now destruct (appendAll_fields ds m) as (_ & _ & -> & _).
Qed.

Lemma last_contents (l : list Message.t) :
  last (map Message.content l) = option_map Message.content (last l).
Proof.
  induction l as [|x [|y l] IH]; [reflexivity | reflexivity |].
  exact IH.
Qed.

Lemma preview_contents (c : Conversation.t) :
  Sidebar.preview c
  = match last (map Message.content (Conversation.messages c)) with
    | Some text => if truthy text then text else "空对话"
    | None => "空对话"
    end.
Proof.
  unfold Sidebar.preview. rewrite last_contents.
  now destruct (last (Conversation.messages c)).
Qed.

(** X23.  While a send is pending the sidebar does not show what was received: the
    preview is made from the content of the last message, which is the
    assistant message with its content still empty, so the conversation is
    previewed as empty, whatever fragments the page already shows. *)
Theorem Sidebar_preview_waits_for_the_answer
    (content : string) (fragments : list string) (w : World) :
  exists request aiMessage w1 conv,
    conversationStore.sendMessage_begin content (set_isLoading true w)
    = (Ok (request, aiMessage), w1)
    /\ conversationStore.currentConversation
         (steps (map (StreamChunk (Message.id aiMessage)) fragments) w1)
       = Some conv
    /\ Sidebar.preview conv = "空对话"
    /\ exists before userMessage shown,
         Conversation.messages conv = before ++ [userMessage; shown]
         /\ Message.content userMessage = content
         /\ Message.content shown = "".
Proof.
  destruct (sendMessage_begin_streaming content w)
    as (request & u & a & w1 & conv1 & E & Hcur1 & Hm1 & Hst & Hfound & _ & _
        & _ & Hu & _ & Ha).
  destruct (chunks_streaming (Message.id a) (Conversation.id conv1)
              (currentMessages w ++ [u; a]) (localStorage w1) Hfound
              fragments [] w1 Hst) as ((conv & Hcur & _ & Hm & _) & _).
  cbn [app] in Hm.
  assert (Hcontents : map Message.content (Conversation.messages conv)
                      = map Message.content (currentMessages w) ++ [content; ""]).
  { rewrite Hm, update_first_contents, map_app. cbn [map]. rewrite Hu, Ha.
    reflexivity. }
  exists request, a, w1, conv. split; [exact E|]. split; [exact Hcur|]. split.
  { rewrite preview_contents, Hcontents.
    change [content; ""] with ([content] ++ [""]). rewrite app_assoc.
    now rewrite last_snoc. }
  clear Hm. revert Hcontents.
  generalize (map Message.content (currentMessages w)).
  generalize (Conversation.messages conv). intros msgs texts H.
  assert (Hlen : length msgs = (length texts + 2)%nat).
  { rewrite <- (length_map Message.content msgs), H, length_app. reflexivity. }
  destruct (rev msgs) as [|shown [|um back]] eqn:Hrev;
    try (apply (f_equal (@length _)) in Hrev; rewrite length_rev in Hrev;
         cbn in Hrev; lia).
  assert (Hmsgs : msgs = rev back ++ [um; shown]).
  { rewrite <- (rev_involutive msgs), Hrev. cbn [rev]. now rewrite <- app_assoc. }
  exists (rev back), um, shown. split; [exact Hmsgs|].
  subst msgs. rewrite map_app in H. cbn [map] in H.
  apply app_inj_2 in H as [_ H]; [|reflexivity].
  now injection H.
Qed.

(** ** Renaming a conversation *)

Lemma find_splits {A} (p : A -> bool) (f : A -> A) (l : list A) (x : A) :
  List.find p l = Some x ->
  exists before after,
    l = before ++ x :: after
    /\ Forall (fun y => p y = false) before
    /\ p x = true
    /\ update_first p f l = before ++ f x :: after.
Proof.
  induction l as [|y l IH]; cbn [List.find update_first]; [discriminate|].
  destruct (p y) eqn:E.
  - intros [= <-]. exists [], l. repeat split; auto.
  - intros H. destruct (IH H) as (b & a & Hl & Hb & Hx & Hu).
    exists (y :: b), a. rewrite Hl at 1. rewrite Hu.
    repeat split; auto.
Qed.

(** X24.  [updateConversationTitle] gives the title to one conversation, the first
    that has the id, and sets its [updatedAt]; its messages and its settings,
    the other conversations, their order and the selection stay as they
    were, and the list is saved.  The title is not checked: an empty one is
    stored, and the sidebar then shows the placeholder.  On an id that no
    conversation has, nothing changes, the storage included. *)
Theorem updateConversationTitle_renames_the_first_match
    (cid title : string) (w : World) :
  let w' := worldAfter (conversationStore.updateConversationTitle cid title) w in
  outcome (conversationStore.updateConversationTitle cid title) w = Ok tt
  /\ match List.find (conversationStore.hasId cid) (conversations w) with
     | None => w' = w
     | Some c =>
         exists before after renamed,
           conversations w = before ++ c :: after
           /\ Forall (fun x => Conversation.id x <> cid) before
           /\ conversations w' = before ++ renamed :: after
           /\ renamed = conversationStore.withTitle title (clock w (tick w)) c
           /\ Conversation.title renamed = title
           /\ Conversation.id renamed = cid
           /\ Conversation.messages renamed = Conversation.messages c
           /\ Sidebar.titleText renamed = (if truthy title then title else "新对话")
           /\ currentConversationId w' = currentConversationId w
           /\ (storageWritable w -> inSync w')
     end.
Proof.
  cbv zeta. unfold outcome, worldAfter.
  unfold conversationStore.updateConversationTitle, bind, gets. cbn [fst snd].
  destruct (List.find (conversationStore.hasId cid) (conversations w)) as [c|] eqn:Hf.
  2:{ split; reflexivity. }
  unfold Date_now, total, readClock, modify. cbn [fst snd].
  rewrite saveConversations_run. cbn [fst snd]. split; [reflexivity|].
  destruct (find_splits _ (conversationStore.withTitle title (clock w (tick w))) _ _ Hf)
    as (b & a & Hl & Hb & Hc & Hu).
  exists b, a, (conversationStore.withTitle title (clock w (tick w)) c).
  split; [exact Hl|]. split.
  { revert Hb. apply List.Forall_impl. intros y Hy Heq.
    apply hasId_eq in Heq. congruence. }
  split; [rewrite persist_conversations; exact Hu|].
  split; [reflexivity|]. split; [reflexivity|].
  split; [apply hasId_eq in Hc; exact Hc |]. split; [reflexivity|].
  split; [reflexivity|]. split; [now rewrite persist_currentConversationId|].
  intros [Hw1 Hw2]. unfold inSync, persistedConversations.
  rewrite persist_conversations. apply persist_lookup; assumption.
Qed.
